(** * The IPFS backend: root-hash state, persistence and size conversion

    A shallow embedding of [backend/ipfs/ipfs.go], of the [Root] type with
    its persistence, and of the thin client of [backend/ipfs/api].  Go strings are byte
    strings ([string]), [int64] is [Z] with its wrap-around written out,
    a [(T, error)] return is a [result], an [error] return is an
    [option error], and the Go map of shared roots is a [gmap].  The IPFS
    endpoint is a parameter of the development: every client method logs
    its request and asks the endpoint for the reply. *)

From stdpp Require Import gmap strings list.
From Stdlib Require Import ZArith Lia Ascii DecimalString.

(** ** Go strings *)

(** [strings.HasPrefix(s, prefix)] *)
Definition HasPrefix (s prefix : string) : bool := String.prefix prefix s.

(** [strings.Contains(s, substr)] *)
Fixpoint Contains (s substr : string) : bool :=
  HasPrefix s substr ||
  match s with
  | EmptyString => false
  | String _ s' => Contains s' substr
  end.

(** [path.Split]: the path is cut just after its last slash; there is no
    directory part when it has no slash. *)
Fixpoint path_Split (p : string) : string * string :=
  match p with
  | EmptyString => (EmptyString, EmptyString)
  | String c p' =>
      let '(dir, file) := path_Split p' in
      if Ascii.eqb c "/"%char then (String c dir, file)
      else match dir with
           | EmptyString => (EmptyString, String c file)
           | _ => (String c dir, file)
           end
  end.

(** [s[1:]] when [s] starts with a slash (the function strips a leading
    slash, whatever its name says). *)
Definition removeTrailingSlash (s : string) : string :=
  if HasPrefix s "/" then
    match s with
    | String _ s' => s'
    | EmptyString => EmptyString
    end
  else s.

(** ** int64 *)

Module Int64.
Definition modulus : Z := 2 ^ 64.
Definition half : Z := 2 ^ 63.
Definition wrap (z : Z) : Z := (z + half) mod modulus - half.
Definition inRange (z : Z) : Prop := (- half <= z < half)%Z.
Definition add (a b : Z) : Z := wrap (a + b).
Definition sub (a b : Z) : Z := wrap (a - b).
Definition mul (a b : Z) : Z := wrap (a * b).
  (** Go's [/] and [%] truncate toward zero. *)
Definition div (a b : Z) : Z := wrap (Z.quot a b).
Definition rem (a b : Z) : Z := Z.rem a b.
End Int64.

(** ** api/types.go *)

Record HasHash := { Hash : string }.

Record ObjectStat := {
  os_Hash : string;
  NumLinks : Z;
  BlockSize : Z;
  LinksSize : Z;
  DataSize : Z;
  CumulativeSize : Z;
}.

(** [api.Error]: the decoded payload of a non-2xx reply.  [Error()] reads
    [Message] only; the numeric [Code] is not modelled. *)
Record api_Error := { Message : string; Type_ : string }.

(** What a client method can fail with: the decoded remote error
    ([*api.Error]) or an error of the transport underneath. *)
Inductive neterror :=
| ApiError (e : api_Error)
| TransportError (msg : string).

Definition neterror_Error (e : neterror) : string :=
  match e with
  | ApiError e => Message e
  | TransportError msg => msg
  end.

Definition isApiError (e : neterror) : bool :=
  match e with ApiError _ => true | TransportError _ => false end.

Definition FileEntryTypeFolder : Z := 1.
Definition FileEntryTypeFile : Z := 2.

Record FileAdded := { fa_Hash : string; fa_Name : string; fa_Size : string }.

Record Link := { l_Hash : string; l_Name : string; l_Size : Z; l_Type : Z }.

Record ListObject := { lo_Hash : string; Links : list Link }.

Record List_ := { Objects : list ListObject }.

(** [Before] and [After] are Go maps that may be nil. *)
Record ObjectChange := {
  oc_Type : Z;
  Path : string;
  Before : option (gmap string string);
  After : option (gmap string string);
}.

Record ObjectDiff := { Changes : list ObjectChange }.

Record HasPath := { hp_Path : string }.

Record Key := { k_Name : string; k_Id : string }.

Record KeyList := { Keys : list Key }.

(** ** Size conversion *)

Definition MaxChunkSize : Z := 262144.

Definition convertSmallFileSize (cumulativeSize : Z) : Z :=
  if (cumulativeSize =? 0)%Z then 0%Z
  else if (cumulativeSize <? 9)%Z then Int64.sub cumulativeSize 6
  else if (cumulativeSize <? 131)%Z then Int64.sub cumulativeSize 8
  else if (cumulativeSize <? 139)%Z then Int64.sub cumulativeSize 9
  else if (cumulativeSize <? 16388)%Z then Int64.sub cumulativeSize 11
  else if (cumulativeSize <? 16398)%Z then Int64.sub cumulativeSize 12
  else Int64.sub cumulativeSize 14.

Definition convertToFileSize (stat : ObjectStat) : Z :=
  let cumulativeSize := CumulativeSize stat in
  if (cumulativeSize <? Int64.add MaxChunkSize 123)%Z then
    convertSmallFileSize cumulativeSize
  else
    let i := Int64.sub cumulativeSize (BlockSize stat) in
    let maxSizeChunks := Int64.div i (Int64.add MaxChunkSize 14) in
    let remainingSizeChunk := Int64.rem i (Int64.add MaxChunkSize 14) in
    Int64.sub (Int64.sub i (Int64.mul maxSizeChunks 14))
      (Int64.sub remainingSizeChunk (convertSmallFileSize remainingSizeChunk)).

(** The overhead table as the specification words it: six steps, the
    first one for every size below 9. *)
Definition stepOverhead (size : Z) : Z :=
  if (size <? 9)%Z then 6
  else if (size <? 131)%Z then 8
  else if (size <? 139)%Z then 9
  else if (size <? 16388)%Z then 11
  else if (size <? 16398)%Z then 12
  else 14.

(** The same table with the guard the code puts in front of it: an empty
    chunk has no envelope. *)
Definition chunkOverhead (size : Z) : Z :=
  if (size =? 0)%Z then 0 else stepOverhead size.

(** The size the specification's formula gives, over the integers. *)
Definition specFileSize (overhead : Z -> Z) (stat : ObjectStat) : Z :=
  let c := CumulativeSize stat in
  if (c <? MaxChunkSize + 123)%Z then (c - overhead c)%Z
  else
    let remaining := (c - BlockSize stat)%Z in
    let full := Z.quot remaining (MaxChunkSize + 14) in
    let rest := Z.rem remaining (MaxChunkSize + 14) in
    (remaining - 14 * full - overhead rest)%Z.

(** A stat whose sizes are [int64] values and whose block size can be
    taken off the cumulative size without overflow. *)
Definition statInRange (stat : ObjectStat) : Prop :=
  Int64.inRange (CumulativeSize stat) /\
  Int64.inRange (BlockSize stat) /\
  Int64.inRange (CumulativeSize stat - BlockSize stat)%Z.

Definition mkStat (cumulative block : Z) : ObjectStat :=
  {| os_Hash := ""; NumLinks := 0; BlockSize := block; LinksSize := 0;
     DataSize := 0; CumulativeSize := cumulative |}.


(** ** Errors and results *)

(** A Go [error] value as this package builds and tests it: an error of
    the client, [errors.New], [errors.Wrap], or one of the framework's
    sentinels that the code returns and compares by identity. *)
Inductive error :=
| Remote (e : neterror)
| New (msg : string)
| Wrap (cause : error) (msg : string)
| ErrorDirNotFound
| ErrorObjectNotFound
| ErrorNotAFile
| ErrorIsFile
| ErrorDirExists
| ErrorDirectoryNotEmpty.

(** [errors.Cause] *)
Fixpoint Cause (e : error) : error :=
  match e with
  | Wrap cause _ => Cause cause
  | _ => e
  end.

Definition isErrorObjectNotFound (e : error) : bool :=
  match e with ErrorObjectNotFound => true | _ => false end.

Definition isErrorNotAFile (e : error) : bool :=
  match e with ErrorNotAFile => true | _ => false end.

(** A [(T, error)] return. *)
Inductive result (E A : Type) :=
| Ok (a : A)
| Err (e : E).
Arguments Ok {E A} a.
Arguments Err {E A} e.

(** ** The endpoint *)

(** One constructor per method of [api.Client] that this development
    uses, with the arguments the method sends. *)
Inductive Call :=
| Add (name content : string)
| IsReadOnlyProbe
| Ls (path : string)
| ObjectStat_ (objectPath : string)
| ObjectPatchAddLink (rootHash path linkHash : string)
| ObjectPatchRmLink (rootHash path : string)
| ObjectNewDir
| ObjectDiff_ (object1 object2 : string)
| FilesStat (file : string)
| FilesCp (from to : string)
| FilesRm (dir : string)
| NameResolve (ipnsPath : string)
| KeyList_
| NamePublish (ipfsPath key : string)
| PinAdd (hash : string) (recursive : bool)
| PinRm (hash : string).

(** The reply to the bodiless [POST /api/v0/add] of [IsReadOnly]: the
    status code when there is a response, and the error of the call. *)
Record ProbeReply := { StatusCode : option Z; probeErr : option neterror }.

Definition reply (c : Call) : Type :=
  match c with
  | Add _ _ => result neterror FileAdded
  | IsReadOnlyProbe => ProbeReply
  | Ls _ => result neterror List_
  | ObjectStat_ _ => result neterror ObjectStat
  | ObjectPatchAddLink _ _ _ => result neterror HasHash
  | ObjectPatchRmLink _ _ => result neterror HasHash
  | ObjectNewDir => result neterror HasHash
  | ObjectDiff_ _ _ => result neterror ObjectDiff
  | FilesStat _ => result neterror HasHash
  | FilesCp _ _ => option neterror
  | FilesRm _ => option neterror
  | NameResolve _ => result neterror HasPath
  | KeyList_ => result neterror KeyList
  | NamePublish _ _ => option neterror
  | PinAdd _ _ => option neterror
  | PinRm _ => option neterror
  end.

(** The error a reply carries, if it carries one. *)
Definition replyFailure (c : Call) : reply c -> option neterror :=
  match c return reply c -> option neterror with
  | IsReadOnlyProbe => probeErr
  | FilesCp _ _ | FilesRm _ | NamePublish _ _ | PinAdd _ _ | PinRm _ => fun r => r
  | _ => fun r => match r with Ok _ => None | Err e => Some e end
  end.

(** One entry of the log of the process: a call sent to the endpoint a
    client is rooted at, and the error that came back, if any. *)
Record Request := {
  to : string;
  call : Call;
  failure : option neterror;
}.

(** The world outside the process: it answers each request, and the answer
    may depend on everything that went before. *)
Definition Network : Type := list Request -> string -> forall c : Call, reply c.

(** Calls that change the MFS tree. *)
Definition isMfsWrite (c : Call) : bool :=
  match c with FilesCp _ _ | FilesRm _ => true | _ => false end.

(** Calls that change the pin set. *)
Definition isPinCall (c : Call) : bool :=
  match c with PinAdd _ _ | PinRm _ => true | _ => false end.

(** Calls that write an IPNS record. *)
Definition isPublish (c : Call) : bool :=
  match c with NamePublish _ _ => true | _ => false end.

(** Calls that produce a patched DAG root. *)
Definition isPatch (c : Call) : bool :=
  match c with
  | ObjectPatchAddLink _ _ _ | ObjectPatchRmLink _ _ => true
  | _ => false
  end.

(** Calls that change something on the endpoint. *)
Definition isWrite (c : Call) : bool :=
  match c with
  | Add _ _ | FilesCp _ _ | FilesRm _ | NamePublish _ _ | PinAdd _ _ | PinRm _ => true
  | _ => false
  end.

(** ** The process state *)

Record Options := {
  Endpoint : string;
  IpfsRoot : string;
  UpdatePeriod : Z;
}.

Global Instance Options_eq_dec : EqDecision Options.
Proof. solve_decision. Defined.

Global Instance Options_countable : Countable Options.
Proof.
  refine (inj_countable'
            (fun o => (Endpoint o, IpfsRoot o, UpdatePeriod o))
            (fun t => {| Endpoint := t.1.1; IpfsRoot := t.1.2; UpdatePeriod := t.2 |})
            _).
  intros []; reflexivity.
Defined.

(** [api.Client]: a rest client rooted at an endpoint. *)
Record Client := { srv : string }.

Definition NewApi (endpoint : string) : Client := {| srv := endpoint |}.

Record Root := {
  r_api : Client;
  r_opt : Options;
  lastPersistedHash : string;
  hash : string;
  ipnsPath : string;
  ipnsKey : string;
  isMFS : bool;
  isReadOnly : bool;
}.

Definition Root_with_hash (h : string) (r : Root) : Root :=
  {| r_api := r_api r; r_opt := r_opt r; lastPersistedHash := lastPersistedHash r;
     hash := h; ipnsPath := ipnsPath r; ipnsKey := ipnsKey r;
     isMFS := isMFS r; isReadOnly := isReadOnly r |}.

Definition Root_with_lastPersistedHash (h : string) (r : Root) : Root :=
  {| r_api := r_api r; r_opt := r_opt r; lastPersistedHash := h;
     hash := hash r; ipnsPath := ipnsPath r; ipnsKey := ipnsKey r;
     isMFS := isMFS r; isReadOnly := isReadOnly r |}.

(** [*Root] and [*Fs] are addresses into the heaps of the world; [None]
    is the nil pointer. *)
Definition RootPtr : Type := option nat.

Record Fs := {
  name : string;
  root : string;
  opt : Options;
  api : Client;
  ipfsRoot : RootPtr;
  _emptyDirHash : string;
}.

Definition Fs_with_root (s : string) (f : Fs) : Fs :=
  {| name := name f; root := s; opt := opt f; api := api f;
     ipfsRoot := ipfsRoot f; _emptyDirHash := _emptyDirHash f |}.

Definition Fs_with_ipfsRoot (p : RootPtr) (f : Fs) : Fs :=
  {| name := name f; root := root f; opt := opt f; api := api f;
     ipfsRoot := p; _emptyDirHash := _emptyDirHash f |}.

Definition Fs_with_emptyDirHash (h : string) (f : Fs) : Fs :=
  {| name := name f; root := root f; opt := opt f; api := api f;
     ipfsRoot := ipfsRoot f; _emptyDirHash := h |}.

Record Object := {
  o_fs : nat;
  remote : string;
  size : Z;
  ipfsHash : string;
}.

(** Everything an operation can read or change: the requests sent so far,
    the heaps, the process-wide cache of shared roots with the state of
    its lock, the persistence timers armed so far (by root) and the roots
    registered for a persist at exit. *)
Record World := {
  calls : list Request;
  roots : list Root;
  fss : list Fs;
  cache : gmap Options nat;
  cacheLocked : bool;
  timers : list nat;
  atexit : list nat;
}.

Definition World_with_calls (l : list Request) (w : World) : World :=
  {| calls := l; roots := roots w; fss := fss w; cache := cache w;
     cacheLocked := cacheLocked w; timers := timers w; atexit := atexit w |}.

Definition World_with_roots (l : list Root) (w : World) : World :=
  {| calls := calls w; roots := l; fss := fss w; cache := cache w;
     cacheLocked := cacheLocked w; timers := timers w; atexit := atexit w |}.

Definition World_with_fss (l : list Fs) (w : World) : World :=
  {| calls := calls w; roots := roots w; fss := l; cache := cache w;
     cacheLocked := cacheLocked w; timers := timers w; atexit := atexit w |}.

Definition World_with_cache (m : gmap Options nat) (w : World) : World :=
  {| calls := calls w; roots := roots w; fss := fss w; cache := m;
     cacheLocked := cacheLocked w; timers := timers w; atexit := atexit w |}.

Definition World_with_cacheLocked (b : bool) (w : World) : World :=
  {| calls := calls w; roots := roots w; fss := fss w; cache := cache w;
     cacheLocked := b; timers := timers w; atexit := atexit w |}.

Definition World_with_timers (l : list nat) (w : World) : World :=
  {| calls := calls w; roots := roots w; fss := fss w; cache := cache w;
     cacheLocked := cacheLocked w; timers := l; atexit := atexit w |}.

Definition World_with_atexit (l : list nat) (w : World) : World :=
  {| calls := calls w; roots := roots w; fss := fss w; cache := cache w;
     cacheLocked := cacheLocked w; timers := timers w; atexit := l |}.

Definition addCalls (sent : list Request) (w : World) : World :=
  World_with_calls (calls w ++ sent) w.

(** The requests that were sent between two states of the process. *)
Definition sentBetween (w w' : World) : list Request :=
  drop (length (calls w)) (calls w').

(** The process at start: [sharedRoot] is an empty map. *)
Definition emptyWorld : World :=
  {| calls := []; roots := []; fss := []; cache := ∅; cacheLocked := false;
     timers := []; atexit := [] |}.

(** ** The monad of operations *)

(** What a Go panic carries: the error given to [panic], or the message of
    a run-time panic. *)
Inductive panicValue :=
| PanicError (e : error)
| RuntimePanic (msg : string).

(** How a call ends: it returns, it panics, or it waits forever for a
    lock nobody will release. *)
Inductive outcome (A : Type) :=
| Done (a : A)
| Panicked (v : panicValue)
| Blocked.
Arguments Done {A} a.
Arguments Panicked {A} v.
Arguments Blocked {A}.

Definition M (A : Type) : Type := World -> outcome A * World.

Definition ret {A} (a : A) : M A := fun w => (Done a, w).

Definition bind {A B} (m : M A) (k : A -> M B) : M B :=
  fun w =>
    match m w with
    | (Done a, w') => k a w'
    | (Panicked v, w') => (Panicked v, w')
    | (Blocked, w') => (Blocked, w')
    end.

Definition panic {A} (v : panicValue) : M A := fun w => (Panicked v, w).

Notation "'let*' x := m 'in' k" := (bind m (fun x => k))
  (at level 10, x pattern, m at level 100, k at level 200).

Definition nilDereference : panicValue :=
  RuntimePanic "invalid memory address or nil pointer dereference".

Definition indexOutOfRange : panicValue :=
  RuntimePanic "index out of range".

Definition getRoot (p : RootPtr) : M Root :=
  fun w =>
    match p with
    | Some a => match roots w !! a with
                | Some r => (Done r, w)
                | None => (Panicked nilDereference, w)
                end
    | None => (Panicked nilDereference, w)
    end.

Definition modifyRoot (p : RootPtr) (g : Root -> Root) : M unit :=
  let* r := getRoot p in
  fun w =>
    match p with
    | Some a => (Done tt, World_with_roots (<[a := g r]> (roots w)) w)
    | None => (Panicked nilDereference, w)
    end.

Definition getFs (fp : nat) : M Fs :=
  fun w =>
    match fss w !! fp with
    | Some f => (Done f, w)
    | None => (Panicked nilDereference, w)
    end.

Definition modifyFs (fp : nat) (g : Fs -> Fs) : M unit :=
  let* f := getFs fp in
  fun w => (Done tt, World_with_fss (<[fp := g f]> (fss w)) w).

(** A computation that talks to the endpoint and touches nothing else in
    the process. *)
Definition onlySends {A} (m : M A) : Prop :=
  forall w, exists o sent, m w = (o, addCalls sent w).

Notation "a =s b" := (String.eqb a b) (at level 70, no associativity).

(** ** api/api.go *)

Section Backend.

(** The endpoint, and the functions of Go's [path] package that the code
    calls and this development does not define. *)
Variable net : Network.
Variable path_Join : list string -> string.
Variable path_Base : string -> string.
Variable path_Dir : string -> string.

(** Every method sends one request: the request is logged and the
    endpoint's answer, given what was sent before, comes back. *)
Definition send (a : Client) (c : Call) : M (reply c) :=
  fun w =>
    let r := net (calls w) (srv a) c in
    (Done r, addCalls [{| to := srv a; call := c; failure := replyFailure c r |}] w).

Definition api_Add (a : Client) (content name : string)
  : M (result neterror FileAdded) :=
  send a (Add name content).

Definition api_IsReadOnly (a : Client) : M (bool * option neterror) :=
  let* resp := send a IsReadOnlyProbe in
  match StatusCode resp with
  | Some 404%Z => ret (true, None)
  | Some 400%Z => ret (false, None)
  | _ => ret (false, probeErr resp)
  end.

Definition api_Ls (a : Client) (path : string) : M (result neterror (list Link)) :=
  let* r := send a (Ls path) in
  match r with
  | Err e => ret (Err e)
  | Ok result =>
      match Objects result with
      | o :: _ => ret (Ok (Links o))
      | [] => panic indexOutOfRange
      end
  end.

Definition api_ObjectStat (a : Client) (objectPath : string) :=
  send a (ObjectStat_ objectPath).

Definition api_ObjectPatchAddLink (a : Client) (rootHash path linkHash : string) :=
  send a (ObjectPatchAddLink rootHash path linkHash).

Definition api_ObjectPatchRmLink (a : Client) (rootHash path : string) :=
  send a (ObjectPatchRmLink rootHash path).

Definition api_ObjectNewDir (a : Client) := send a ObjectNewDir.

Definition api_ObjectDiff (a : Client) (object1 object2 : string) :=
  send a (ObjectDiff_ object1 object2).

Definition api_FilesStat (a : Client) (file : string) := send a (FilesStat file).

Definition api_FilesCp (a : Client) (from to : string) := send a (FilesCp from to).

Definition api_FilesRm (a : Client) (dir : string) := send a (FilesRm dir).

Definition api_NameResolve (a : Client) (ipnsPath : string) :=
  send a (NameResolve ipnsPath).

Definition api_KeyList (a : Client) := send a KeyList_.

Definition api_NamePublish (a : Client) (ipfsPath key : string) :=
  send a (NamePublish ipfsPath key).

Definition api_PinAdd (a : Client) (hash : string) (recursive : bool) :=
  send a (PinAdd hash recursive).

Definition api_PinRm (a : Client) (hash : string) := send a (PinRm hash).

(** ** Root: persistence *)

Definition listChangedPath (changes : list ObjectChange) : list string :=
  map Path changes.

(** The two nested loops of [persistToMFS]: is some externally changed
    path a prefix of some locally changed path, or the other way round? *)
Definition pathsConflict (externalChangedPaths localChangedPaths : list string) : bool :=
  existsb (fun externalChangedPath =>
    existsb (fun localChangedPath =>
      HasPrefix externalChangedPath localChangedPath ||
      HasPrefix localChangedPath externalChangedPath)
      localChangedPaths)
    externalChangedPaths.

Definition mfsConflict : error :=
  New "Error: concurrent modification of the IPFS MFS. Consistency not guaranteed.".

Definition ipnsConflict : error :=
  New "concurrent modification of the IPFS IPNS. Consistency not guaranteed.".

(** The last loop of [persistToMFS].  [err] is assigned by the removal
    and assigned again by the copy when there is one. *)
Fixpoint applyChanges (a : Client) (changes : list ObjectChange) : M (option error) :=
  match changes with
  | [] => ret None
  | change :: rest =>
      let filePath := "/" +:+ Path change in
      let* err := match Before change with
                  | Some _ => api_FilesRm a filePath
                  | None => ret None
                  end in
      let* err := match After change with
                  | Some after =>
                      let absolutePath := "/ipfs/" +:+ default "" (after !! "/") in
                      api_FilesCp a absolutePath filePath
                  | None => ret err
                  end in
      match err with
      | Some e =>
          ret (Some (Wrap (Remote e) ("could not update MFS at path '" +:+ filePath +:+ "'")))
      | None => applyChanges a rest
      end
  end.

Definition persistToMFS (a : Client) (lastPersistedHash newHash : string)
  : M (option error) :=
  let* stat := api_FilesStat a "/" in
  match stat with
  | Err e => ret (Some (Wrap (Remote e) "could not obtain stats for MFS root directory"))
  | Ok stat =>
      let* diff := api_ObjectDiff a lastPersistedHash newHash in
      match diff with
      | Err e => ret (Some (Remote e))
      | Ok diff =>
          let* conflict :=
            if negb (Hash stat =s lastPersistedHash) then
              let* externalDiff := api_ObjectDiff a (Hash stat) lastPersistedHash in
              match externalDiff with
              | Err e => ret (Some (Remote e))
              | Ok externalDiff =>
                  let externalChangedPaths := listChangedPath (Changes externalDiff) in
                  let localChangedPaths := listChangedPath (Changes diff) in
                  if pathsConflict externalChangedPaths localChangedPaths
                  then ret (Some mfsConflict)
                  else ret None
              end
            else ret None in
          match conflict with
          | Some e => ret (Some e)
          | None => applyChanges a (Changes diff)
          end
      end
  end.

Definition persistToIPNS (a : Client)
  (lastPersistedHash newHash ipnsPath ipnsKey : string) : M (option error) :=
  let* result := api_NameResolve a ipnsPath in
  match result with
  | Err e => ret (Some (Wrap (Remote e) ("could not resolve IPNS path '" +:+ ipnsPath +:+ "'")))
  | Ok result =>
      let ipfsHash := (path_Split (hp_Path result)).2 in
      if negb (lastPersistedHash =s ipfsHash) then ret (Some ipnsConflict)
      else
        let* err := api_NamePublish a newHash ipnsKey in
        match err with
        | Some e => ret (Some (Wrap (Remote e) ("could not update IPNS path '" +:+ ipnsPath +:+ "'")))
        | None => ret None
        end
  end.

Definition pinError (e : neterror) : error :=
  Wrap (Remote e) "could not pin hash on IPFS endpoint. Consistency not guaranteed.".

Definition unpinError (last : string) (e : neterror) : error :=
  Wrap (Remote e) ("could not un-pin old hash '" +:+ last +:+ "'.").

Definition updatePin (client : Client) (lastPersistedHash newHash : string)
  : M (option error) :=
  let* err := api_PinAdd client newHash true in
  match err with
  | Some e =>
      ret (Some (pinError e))
  | None =>
      let* err := api_PinRm client lastPersistedHash in
      match err with
      | Some e =>
          let isAlreadyNotPinned := Contains (neterror_Error e) "not pinned" in
          if negb isAlreadyNotPinned
          then ret (Some (unpinError lastPersistedHash e))
          else ret None
      | None => ret None
      end
  end.

(** The second half of [Root.persist], under its comment "Update
    persisted hash": write back to MFS or to IPNS, panic on failure, and
    only then advance [lastPersistedHash]. *)
Definition updatePersistedHash (r : RootPtr) (root : Root) : M unit :=
  let* err :=
    if isMFS root then
      persistToMFS (r_api root) (lastPersistedHash root) (hash root)
    else if negb (ipnsKey root =s "") then
      persistToIPNS (r_api root) (lastPersistedHash root) (hash root)
        (ipnsPath root) (ipnsKey root)
    else ret None in
  match err with
  | Some e => panic (PanicError e)
  | None => modifyRoot r (fun root => Root_with_lastPersistedHash (hash root) root)
  end.

(** The write-back of [persist] found the store modified by someone
    else: from the state [w2] reached after the pin swap, the MFS or the
    IPNS write-back returned its conflict error [e], in state [w3]. *)
Definition conflictDetected (root : Root) (w2 : World) (e : error) (w3 : World) : Prop :=
  (isMFS root = true /\ e = mfsConflict /\
   persistToMFS (r_api root) (lastPersistedHash root) (hash root) w2
   = (Done (Some e), w3))
  \/
  (isMFS root = false /\ ipnsKey root <> "" /\ e = ipnsConflict /\
   persistToIPNS (r_api root) (lastPersistedHash root) (hash root)
     (ipnsPath root) (ipnsKey root) w2
   = (Done (Some e), w3)).

(** [Root.persist].  The read lock and the wait group do nothing when
    calls run one after the other; a failure of either half panics. *)
Definition persist (r : RootPtr) : M unit :=
  let* root := getRoot r in
  if hash root =s lastPersistedHash root then ret tt
  else
    let* err := updatePin (r_api root) (lastPersistedHash root) (hash root) in
    match err with
    | Some e => panic (PanicError e)
    | None => updatePersistedHash r root
    end.

(** [Root.periodicPersist] arms a timer for the root. *)
Definition periodicPersist (r : nat) : M unit :=
  fun w => (Done tt, World_with_timers (timers w ++ [r]) w).

(** The function the timer runs when it fires: persist, then arm the
    next timer. *)
Definition timerCallback (r : nat) : M unit :=
  let* _ := persist (Some r) in
  periodicPersist r.

Definition atexit_Register (r : nat) : M unit :=
  fun w => (Done tt, World_with_atexit (atexit w ++ [r]) w).

Definition allocRoot (r : Root) : M nat :=
  fun w => (Done (length (roots w)), World_with_roots (roots w ++ [r]) w).

(** The key search of [NewRoot]: the name of the first key whose id is
    the IPNS hash. *)
Fixpoint findKey (ipnsHash : string) (keys : list Key) : string :=
  match keys with
  | [] => ""
  | key :: rest => if k_Id key =s ipnsHash then k_Name key else findKey ipnsHash rest
  end.

Definition NewRoot (f : Fs) : M (result error nat) :=
  let* (isEndpointReadOnly, err) := api_IsReadOnly (api f) in
  match err with
  | Some e => ret (Err (Remote e))
  | None =>
      let '(base, hash) := path_Split (IpfsRoot (opt f)) in
      let* found :=
        if base =s "/ipfs/" then ret (Ok ("", "", false, hash))
        else if base =s "/ipns/" then
          let ipnsPath := IpfsRoot (opt f) in
          let ipnsHash := hash in
          let* ipnsKey :=
            if negb isEndpointReadOnly then
              let* keys := api_KeyList (api f) in
              match keys with
              | Err e => ret (Err (Remote e))
              | Ok keys => ret (Ok (findKey ipnsHash (Keys keys)))
              end
            else ret (Ok "") in
          match ipnsKey with
          | Err e => ret (Err e)
          | Ok ipnsKey =>
              let* result := api_NameResolve (api f) (IpfsRoot (opt f)) in
              match result with
              | Err e => ret (Err (Remote e))
              | Ok result =>
                  ret (Ok (ipnsKey, ipnsPath, false, (path_Split (hp_Path result)).2))
              end
          end
        else if IpfsRoot (opt f) =s "" then
          if isEndpointReadOnly then
            ret (Err (New ("read only public IPFS gateway can't use MFS. " +:+
                           "Please use a IPFS path or IPNS path as `--ipfs-root` parameter")))
          else
            let* stat := api_FilesStat (api f) "/" in
            match stat with
            | Err e => ret (Err (Remote e))
            | Ok stat => ret (Ok ("", "", true, Hash stat))
            end
        else ret (Err (New ("Invalid IPFS path '" +:+ IpfsRoot (opt f) +:+ "'"))) in
      match found with
      | Err e => ret (Err e)
      | Ok (ipnsKey, ipnsPath, isMFS, hash) =>
          let r := {| r_api := api f; r_opt := opt f;
                      lastPersistedHash := hash; hash := hash;
                      ipnsPath := ipnsPath; ipnsKey := ipnsKey; isMFS := isMFS;
                      isReadOnly := isEndpointReadOnly
                                    || negb (isMFS || negb (ipnsKey =s "")) |} in
          let* p := allocRoot r in
          let* _ := if negb (isReadOnly r)
                    then let* _ := periodicPersist p in atexit_Register p
                    else ret tt in
          ret (Ok p)
      end
  end.

(** ** ipfs.go *)

Definition relativePath (f : Fs) (remote : string) : string :=
  removeTrailingSlash (path_Join [root f; remote]).

Definition readOnlyError (f : Fs) : error :=
  New ("IPFS path '" +:+ IpfsRoot (opt f) +:+ "' is read only!").

Definition checkReadOnly (f : Fs) : M (option error) :=
  let* r := getRoot (ipfsRoot f) in
  if isReadOnly r then ret (Some (readOnlyError f)) else ret None.

(** Get or fetch the hash of an empty directory; the hash is kept in the
    [Fs]. *)
Definition emptyDirHash (fp : nat) : M (result error string) :=
  let* f := getFs fp in
  if _emptyDirHash f =s "" then
    let* result := api_ObjectNewDir (api f) in
    match result with
    | Err e => ret (Err (Remote e))
    | Ok result =>
        let* _ := modifyFs fp (Fs_with_emptyDirHash (Hash result)) in
        ret (Ok (Hash result))
    end
  else ret (Ok (_emptyDirHash f)).

Definition newObject (fp : nat) (remote : string) (stat : ObjectStat) : Object :=
  {| o_fs := fp; remote := remote; size := convertToFileSize stat;
     ipfsHash := os_Hash stat |}.

(** The link search of [NewObject]: the first link with the name decides. *)
Fixpoint linkIsFile (file : string) (links : list Link) : bool :=
  match links with
  | [] => false
  | link :: rest =>
      if l_Name link =s file then (l_Type link =? FileEntryTypeFile)%Z
      else linkIsFile file rest
  end.

Definition NewObject (fp : nat) (remote : string) : M (result error Object) :=
  let* f := getFs fp in
  let* r := getRoot (ipfsRoot f) in
  let rootHash := hash r in
  let absolutePath := path_Join [rootHash; relativePath f remote] in
  let* stat := api_ObjectStat (api f) absolutePath in
  match stat with
  | Err e => if isApiError e then ret (Err ErrorObjectNotFound) else ret (Err (Remote e))
  | Ok stat =>
      let '(dir, file) := path_Split absolutePath in
      let* isFile :=
        if negb (dir =s rootHash) then
          let* links := api_Ls (api f) dir in
          match links with
          | Err e => ret (Err (Remote e))
          | Ok links => ret (Ok (linkIsFile file links))
          end
        else ret (Ok false) in
      match isFile with
      | Err e => ret (Err e)
      | Ok isFile =>
          if negb isFile then ret (Err ErrorNotAFile)
          else ret (Ok (newObject fp remote stat))
      end
  end.

(** [Fs.Put]: [content] is what the reader yields and [remote] is
    [src.Remote()]. *)
Definition Put (fp : nat) (content remote : string) : M (result error Object) :=
  let* f := getFs fp in
  let* err := checkReadOnly f in
  match err with
  | Some e => ret (Err e)
  | None =>
      let file := (path_Split remote).2 in
      let* fileAdded := api_Add (api f) content file in
      match fileAdded with
      | Err e => ret (Err (Remote e))
      | Ok fileAdded =>
          let objectPath := relativePath f remote in
          let* r := getRoot (ipfsRoot f) in
          let* result := api_ObjectPatchAddLink (api f) (hash r) objectPath (fa_Hash fileAdded) in
          match result with
          | Err e => ret (Err (Remote e))
          | Ok result =>
              let* _ := modifyRoot (ipfsRoot f) (Root_with_hash (Hash result)) in
              NewObject fp remote
          end
      end
  end.

Definition Mkdir (fp : nat) (dir : string) : M (option error) :=
  let* f := getFs fp in
  let* err := checkReadOnly f in
  match err with
  | Some e => ret (Some e)
  | None =>
      let* emptyDir := emptyDirHash fp in
      match emptyDir with
      | Err e => ret (Some e)
      | Ok emptyDir =>
          let dirPath := relativePath f dir in
          let* r := getRoot (ipfsRoot f) in
          let* stat := api_ObjectStat (api f) (path_Join [hash r; dirPath]) in
          match stat with
          | Ok _ => ret None
          | Err _ =>
              let* result := api_ObjectPatchAddLink (api f) (hash r) dirPath emptyDir in
              match result with
              | Err e => ret (Some (Remote e))
              | Ok result =>
                  let* _ := modifyRoot (ipfsRoot f) (Root_with_hash (Hash result)) in
                  ret None
              end
          end
      end
  end.

Definition Rmdir (fp : nat) (dir : string) : M (option error) :=
  let* f := getFs fp in
  let* err := checkReadOnly f in
  match err with
  | Some e => ret (Some e)
  | None =>
      let* r := getRoot (ipfsRoot f) in
      let absolutePath := path_Join [hash r; relativePath f dir] in
      let* stat := api_ObjectStat (api f) absolutePath in
      match stat with
      | Err e => if isApiError e then ret (Some ErrorDirNotFound) else ret (Some (Remote e))
      | Ok stat =>
          if (NumLinks stat >? 0)%Z then ret (Some ErrorDirectoryNotEmpty)
          else
            let dirPath := relativePath f dir in
            let* result := api_ObjectPatchRmLink (api f) (hash r) dirPath in
            match result with
            | Err e => ret (Some (Remote e))
            | Ok result =>
                let* _ := modifyRoot (ipfsRoot f) (Root_with_hash (Hash result)) in
                ret None
            end
      end
  end.

Definition Copy (fp : nat) (src : Object) (remote : string) : M (result error Object) :=
  let* f := getFs fp in
  let* err := checkReadOnly f in
  match err with
  | Some e => ret (Err e)
  | None =>
      let objectPath := relativePath f remote in
      let* r := getRoot (ipfsRoot f) in
      let* result := api_ObjectPatchAddLink (api f) (hash r) objectPath (ipfsHash src) in
      match result with
      | Err e => ret (Err (Remote e))
      | Ok result =>
          let* _ := modifyRoot (ipfsRoot f) (Root_with_hash (Hash result)) in
          NewObject fp remote
      end
  end.

(** [Object.Remove] works on the root of the object's own [Fs]. *)
Definition Object_Remove (o : Object) : M (option error) :=
  let* f := getFs (o_fs o) in
  let* err := checkReadOnly f in
  match err with
  | Some e => ret (Some e)
  | None =>
      let* r := getRoot (ipfsRoot f) in
      let* result := api_ObjectPatchRmLink (api f) (hash r) (relativePath f (remote o)) in
      match result with
      | Err e => if isApiError e then ret (Some ErrorObjectNotFound) else ret (Some (Remote e))
      | Ok result =>
          let* _ := modifyRoot (ipfsRoot f) (Root_with_hash (Hash result)) in
          ret None
      end
  end.

Definition Move (fp : nat) (src : Object) (remote : string) : M (result error Object) :=
  let* f := getFs fp in
  let* err := checkReadOnly f in
  match err with
  | Some e => ret (Err e)
  | None =>
      let* o := Copy fp src remote in
      match o with
      | Err e => ret (Err e)
      | Ok o =>
          let* err := Object_Remove src in
          match err with
          | Some e => ret (Err e)
          | None => ret (Ok o)
          end
      end
  end.

Definition DirMove (fp : nat) (src : nat) (srcRemote dstRemote : string) : M (option error) :=
  let* f := getFs fp in
  let* err := checkReadOnly f in
  match err with
  | Some e => ret (Some e)
  | None =>
      let* srcFs := getFs src in
      let* r := getRoot (ipfsRoot f) in
      let dstRelativePath := relativePath f dstRemote in
      let destAbsolutePath := path_Join [hash r; dstRelativePath] in
      let* destStat := api_ObjectStat (api f) destAbsolutePath in
      match destStat with
      | Ok _ => ret (Some ErrorDirExists)
      | Err _ =>
          let srcRelativePath := relativePath srcFs srcRemote in
          let srcAbsolutePath := path_Join [hash r; srcRelativePath] in
          let* srcStat := api_ObjectStat (api f) srcAbsolutePath in
          match srcStat with
          | Err e => ret (Some (Remote e))
          | Ok srcStat =>
              let* result := api_ObjectPatchAddLink (api f) (hash r) dstRelativePath (os_Hash srcStat) in
              match result with
              | Err e => ret (Some (Remote e))
              | Ok result =>
                  let* _ := modifyRoot (ipfsRoot f) (Root_with_hash (Hash result)) in
                  let* r := getRoot (ipfsRoot f) in
                  let* result := api_ObjectPatchRmLink (api srcFs) (hash r) srcRelativePath in
                  match result with
                  | Err e => ret (Some (Remote e))
                  | Ok result =>
                      let* _ := modifyRoot (ipfsRoot f) (Root_with_hash (Hash result)) in
                      ret None
                  end
              end
          end
      end
  end.

(** The inner loop of [MergeDirs]: link every entry of a merged directory
    under the first one, threading the working hash. *)
Fixpoint mergeLinks (a : Client) (srcPath : string) (links : list Link)
  (workingRootHash : string) : M (result error string) :=
  match links with
  | [] => ret (Ok workingRootHash)
  | link :: rest =>
      let relativePath := path_Join [srcPath; l_Name link] in
      let* result := api_ObjectPatchAddLink a workingRootHash relativePath (l_Hash link) in
      match result with
      | Err e => ret (Err (Remote e))
      | Ok result => mergeLinks a srcPath rest (Hash result)
      end
  end.

(** The outer loop of [MergeDirs], over [dirs[1:]]. *)
Fixpoint mergeDirs (f : Fs) (srcPath : string) (dirs : list string)
  (workingRootHash : string) : M (result error string) :=
  match dirs with
  | [] => ret (Ok workingRootHash)
  | dir :: rest =>
      let absolutePath := path_Join [workingRootHash; root f; dir] in
      let* links := api_Ls (api f) absolutePath in
      match links with
      | Err e => ret (Err (Remote e))
      | Ok links =>
          let* merged := mergeLinks (api f) srcPath links workingRootHash in
          match merged with
          | Err e => ret (Err e)
          | Ok workingRootHash =>
              let* result := api_ObjectPatchRmLink (api f) workingRootHash (relativePath f dir) in
              match result with
              | Err e => ret (Err (Remote e))
              | Ok result => mergeDirs f srcPath rest (Hash result)
              end
          end
      end
  end.

(** [Fs.MergeDirs]; [dirs] lists the remotes of the directories. *)
Definition MergeDirs (fp : nat) (dirs : list string) : M (option error) :=
  let* f := getFs fp in
  let* err := checkReadOnly f in
  match err with
  | Some e => ret (Some e)
  | None =>
      match dirs with
      | [] => panic indexOutOfRange
      | firstDirectory :: rest =>
          let srcPath := relativePath f firstDirectory in
          let* r := getRoot (ipfsRoot f) in
          let* merged := mergeDirs f srcPath rest (hash r) in
          match merged with
          | Err e => ret (Some e)
          | Ok workingRootHash =>
              let* _ := modifyRoot (ipfsRoot f) (Root_with_hash workingRootHash) in
              ret None
          end
      end
  end.

Definition PutStream (fp : nat) (content remote : string) : M (result error Object) :=
  Put fp content remote.

Definition Purge (fp : nat) (dir : string) : M (option error) :=
  let* f := getFs fp in
  let* err := checkReadOnly f in
  match err with
  | Some e => ret (Some e)
  | None =>
      if root f =s "" then
        let* emptyDir := emptyDirHash fp in
        match emptyDir with
        | Err e => ret (Some e)
        | Ok emptyDir =>
            let* _ := modifyRoot (ipfsRoot f) (Root_with_hash emptyDir) in
            ret None
        end
      else
        let* r := getRoot (ipfsRoot f) in
        let* result := api_ObjectPatchRmLink (api f) (hash r) (root f) in
        match result with
        | Err e =>
            if Contains (neterror_Error e) "not found" then ret (Some ErrorDirNotFound)
            else ret (Some (Remote e))
        | Ok result =>
            let* _ := modifyRoot (ipfsRoot f) (Root_with_hash (Hash result)) in
            ret None
        end
  end.

(** [Object.Update] puts through the object's [Fs]; what it then writes
    into the receiver is written into a copy. *)
Definition Object_Update (o : Object) (content remote : string) : M (option error) :=
  let* o2 := Put (o_fs o) content remote in
  match o2 with
  | Err e => ret (Some e)
  | Ok _ => ret None
  end.

(** ** NewFs and the shared roots *)

Definition allocFs (f : Fs) : M nat :=
  fun w => (Done (length (fss w)), World_with_fss (fss w ++ [f]) w).

(** [sharedRoot.Lock()]: a caller that finds the lock held waits. *)
Definition sharedRoot_Lock : M unit :=
  fun w => if cacheLocked w then (Blocked, w)
           else (Done tt, World_with_cacheLocked true w).

Definition sharedRoot_Unlock : M unit :=
  fun w => (Done tt, World_with_cacheLocked false w).

Definition cacheLookup (o : Options) : M (option nat) :=
  fun w => (Done (cache w !! o), w).

Definition cacheStore (o : Options) (p : nat) : M unit :=
  fun w => (Done tt, World_with_cache (<[o := p]> (cache w)) w).

(** The options as [NewFs] uses them, for the client and as the key of
    the cache. *)
Definition normalize (o : Options) : Options :=
  {| Endpoint := removeTrailingSlash (Endpoint o);
     IpfsRoot := IpfsRoot o; UpdatePeriod := UpdatePeriod o |}.

(** The block of [NewFs] that reads and fills the cache: take the lock,
    look the options up, and make and store a root when there is none.
    The lock is still held when it returns, also when [NewRoot] failed. *)
Definition lookupSharedRoot (f : Fs) : M (result error nat) :=
  let* _ := sharedRoot_Lock in
  let* cached := cacheLookup (opt f) in
  match cached with
  | Some p => ret (Ok p)
  | None =>
      let* created := NewRoot f in
      match created with
      | Err e => ret (Err e)
      | Ok p => let* _ := cacheStore (opt f) p in ret (Ok p)
      end
  end.

(** The end of [NewFs]: when a root path is given, find out whether it
    names a file. *)
Definition checkRootIsFile (fp : nat) (root : string) : M (option nat * option error) :=
  if negb (root =s "") then
    let remote := path_Base root in
    let* _ := modifyFs fp (Fs_with_root (path_Dir root)) in
    let* _ := if path_Dir root =s "." then modifyFs fp (Fs_with_root "")
              else ret tt in
    let* o := NewObject fp remote in
    match o with
    | Err err =>
        if isErrorObjectNotFound err || isErrorNotAFile (Cause err)
           || isErrorNotAFile err
        then let* _ := modifyFs fp (Fs_with_root root) in ret (Some fp, None)
        else ret (None, Some err)
    | Ok _ => ret (Some fp, Some ErrorIsFile)
    end
  else ret (Some fp, None).

(** [NewFs]; [parsed] is what [configstruct.Set] made of the mapper.  The
    result is the pair the Go function returns. *)
Definition NewFs (name root : string) (parsed : result error Options)
  : M (option nat * option error) :=
  match parsed with
  | Err e => ret (None, Some e)
  | Ok opt0 =>
      let opt := normalize opt0 in
      let* fp := allocFs {| name := name; root := root; opt := opt;
                            api := NewApi (Endpoint opt); ipfsRoot := None;
                            _emptyDirHash := "" |} in
      let* f := getFs fp in
      let* ipfsRoot := lookupSharedRoot f in
      match ipfsRoot with
      | Err e => ret (None, Some e)
      | Ok p =>
          let* _ := modifyFs fp (Fs_with_ipfsRoot (Some p)) in
          let* _ := sharedRoot_Unlock in
          checkRootIsFile fp root
      end
  end.

(** ** The mutating entry points *)

(** The calls through which a caller changes the tree, with their
    arguments. *)
Inductive Mutation :=
| MPut (fp : nat) (content remote : string)
| MPutStream (fp : nat) (content remote : string)
| MUpdate (o : Object) (content remote : string)
| MRemove (o : Object)
| MMkdir (fp : nat) (dir : string)
| MRmdir (fp : nat) (dir : string)
| MCopy (fp : nat) (src : Object) (remote : string)
| MMove (fp : nat) (src : Object) (remote : string)
| MDirMove (fp : nat) (src : nat) (srcRemote dstRemote : string)
| MMergeDirs (fp : nat) (dirs : list string)
| MPurge (fp : nat) (dir : string).

Definition errorOf {A} (r : result error A) : option error :=
  match r with Ok _ => None | Err e => Some e end.

(** Run an entry point and keep the error it returns. *)
Definition runMutation (m : Mutation) : M (option error) :=
  match m with
  | MPut fp content remote => let* r := Put fp content remote in ret (errorOf r)
  | MPutStream fp content remote => let* r := PutStream fp content remote in ret (errorOf r)
  | MUpdate o content remote => Object_Update o content remote
  | MRemove o => Object_Remove o
  | MMkdir fp dir => Mkdir fp dir
  | MRmdir fp dir => Rmdir fp dir
  | MCopy fp src remote => let* r := Copy fp src remote in ret (errorOf r)
  | MMove fp src remote => let* r := Move fp src remote in ret (errorOf r)
  | MDirMove fp src srcRemote dstRemote => DirMove fp src srcRemote dstRemote
  | MMergeDirs fp dirs => MergeDirs fp dirs
  | MPurge fp dir => Purge fp dir
  end.

End Backend.

(** The [Fs] an entry point is called on. *)
Definition receiver (m : Mutation) : nat :=
  match m with
  | MPut fp _ _ | MPutStream fp _ _ | MMkdir fp _ | MRmdir fp _ | MCopy fp _ _
  | MMove fp _ _ | MDirMove fp _ _ _ | MMergeDirs fp _ | MPurge fp _ => fp
  | MUpdate o _ _ | MRemove o => o_fs o
  end.

(** Move and directory move: a copy patch followed by a removal patch. *)
Definition copiesThenRemoves (m : Mutation) : bool :=
  match m with MMove _ _ _ | MDirMove _ _ _ _ => true | _ => false end.

Definition isAddLink (c : Call) : bool :=
  match c with ObjectPatchAddLink _ _ _ => true | _ => false end.

(** The error an entry point returns when its patch call [c] failed with
    [e]: the error itself, but [Object.Remove] reports a decoded API error
    as object-not-found and [Purge] reports a "not found" message as
    directory-not-found. *)
Definition patchErrorReturned (m : Mutation) (c : Call) (e : neterror) : error :=
  match m with
  | MRemove _ => if isApiError e then ErrorObjectNotFound else Remote e
  | MMove _ _ _ =>
      if isAddLink c then Remote e
      else if isApiError e then ErrorObjectNotFound else Remote e
  | MPurge _ _ =>
      if Contains (neterror_Error e) "not found" then ErrorDirNotFound else Remote e
  | _ => Remote e
  end.

(** What the inner loops of [MergeDirs] guarantee: a failed patch call
    among the requests sent is what the loop returned. *)
Definition failedPatchIs {A} (sent : list Request) (o : outcome (result error A)) : Prop :=
  forall rq e, In rq sent -> isPatch (call rq) = true -> failure rq = Some e ->
               o = Done (Err (Remote e)).

(** What holds of an entry point when one of its patch calls fails: it
    returns the error of [patchErrorReturned], and, unless the call was the
    removal patch of a move, every root of the heap is what it was. *)
Definition patchFailureAborts (net : Network) (path_Join : list string -> string)
    (m : Mutation) : Prop :=
  forall (w w' : World) (o : outcome (option error)) (rq : Request) (e : neterror),
    runMutation net path_Join m w = (o, w') ->
    In rq (sentBetween w w') ->
    isPatch (call rq) = true ->
    failure rq = Some e ->
    o = Done (Some (patchErrorReturned m (call rq) e)) /\
    (copiesThenRemoves m = false \/ isAddLink (call rq) = true -> roots w' = roots w).

(** ** The registry of shared roots *)

(** The configuration each root of the heap was made for. *)
Definition keysOfRoots (w : World) : list Options := r_opt <$> roots w.

(** Every entry of the cache points at a root made for its key. *)
Definition cacheInv (w : World) : Prop :=
  forall k a, cache w !! k = Some a -> keysOfRoots w !! a = Some k.

(** A computation that keeps a property of the process. *)
Definition stable {A} (I : World -> Prop) (m : M A) : Prop :=
  forall w, I w -> I (m w).2.

(** The [Fs] at [fp] has options [o] and points at the root [p]; the
    cache, the roots, the timers and the exit hooks are those of [w0]. *)
Definition opened (w0 : World) (fp : nat) (o : Options) (p : nat) (w : World) : Prop :=
  cache w = cache w0 /\ roots w = roots w0 /\ timers w = timers w0 /\
  atexit w = atexit w0 /\
  exists f, fss w !! fp = Some f /\ opt f = o /\ ipfsRoot f = Some p.

(** A computation that leaves the cache alone and changes no root's
    configuration. *)
Definition preservesRegistry {A} (m : M A) : Prop :=
  forall w, cache (m w).2 = cache w /\ keysOfRoots (m w).2 = keysOfRoots w.

(** What the process does, one call at a time: open a filesystem, run a
    mutating entry point, persist a root, or run a timer's function. *)
Inductive step (net : Network) (path_Join : list string -> string)
    (path_Base path_Dir : string -> string) : World -> World -> Prop :=
| step_NewFs name root parsed w :
    step net path_Join path_Base path_Dir w
      (NewFs net path_Join path_Base path_Dir name root parsed w).2
| step_mutation m w :
    step net path_Join path_Base path_Dir w (runMutation net path_Join m w).2
| step_persist p w :
    step net path_Join path_Base path_Dir w (persist net p w).2
| step_timer r w :
    step net path_Join path_Base path_Dir w (timerCallback net r w).2.

(** ** Example endpoints and processes *)

(** A stand-in for [path.Join] on elements that are already clean: the
    non-empty elements, separated by slashes. *)
Fixpoint simpleJoin (elems : list string) : string :=
  match elems with
  | [] => ""
  | e :: rest =>
      if e =s "" then simpleJoin rest
      else match simpleJoin rest with
           | "" => e
           | joined => e +:+ "/" +:+ joined
           end
  end.

Definition timeout : neterror := TransportError "context deadline exceeded".

Definition notPinned : neterror :=
  ApiError {| Message := "not pinned or pinned indirectly"; Type_ := "error" |}.

Definition noLink : neterror :=
  ApiError {| Message := "no link named"; Type_ := "error" |}.

(** An endpoint that never answers. *)
Definition unreachable (c : Call) : reply c :=
  match c return reply c with
  | Add _ _ => Err timeout
  | IsReadOnlyProbe => {| StatusCode := None; probeErr := Some timeout |}
  | Ls _ => Err timeout
  | ObjectStat_ _ => Err timeout
  | ObjectPatchAddLink _ _ _ => Err timeout
  | ObjectPatchRmLink _ _ => Err timeout
  | ObjectNewDir => Err timeout
  | ObjectDiff_ _ _ => Err timeout
  | FilesStat _ => Err timeout
  | FilesCp _ _ => Some timeout
  | FilesRm _ => Some timeout
  | NameResolve _ => Err timeout
  | KeyList_ => Err timeout
  | NamePublish _ _ => Some timeout
  | PinAdd _ _ => Some timeout
  | PinRm _ => Some timeout
  end.

Definition unreachableNet : Network := fun _ _ c => unreachable c.

Definition changed (path : string) (after : option string) : ObjectChange :=
  {| oc_Type := 2; Path := path; Before := None;
     After := (fun h => {["/" := h]}) <$> after |}.

(** An endpoint whose MFS root was moved to [Hext] by someone else, who
    touched [a/b/c], while the process changed [a/b] between [H0] and its
    current hash.  The old hash turns out not to be pinned. *)
Definition conflictNet : Network :=
  fun _ _ c =>
    match c return reply c with
    | FilesStat _ => Ok {| Hash := "Hext" |}
    | ObjectDiff_ object1 _ =>
        if object1 =s "H0" then Ok {| Changes := [changed "a/b" (Some "Qmb")] |}
        else Ok {| Changes := [changed "a/b/c" None] |}
    | PinAdd _ _ => None
    | PinRm _ => Some notPinned
    | c => unreachable c
    end.

(** An endpoint on which the IPNS name was republished to another hash. *)
Definition republishedNet : Network :=
  fun _ _ c =>
    match c return reply c with
    | NameResolve _ => Ok {| hp_Path := "/ipfs/Hother" |}
    | PinAdd _ _ => None
    | PinRm _ => None
    | NamePublish _ _ => None
    | c => unreachable c
    end.

Definition exampleStat (h : string) : ObjectStat :=
  {| os_Hash := h; NumLinks := 0; BlockSize := 4; LinksSize := 0; DataSize := 2;
     CumulativeSize := 4 |}.

(** An endpoint whose DAG has [docs] and [src] under [H1], that patches a
    link in and then loses the connection. *)
Definition flakyNet : Network :=
  fun past _ c =>
    match c return reply c with
    | ObjectStat_ p =>
        if (p =s "H1/docs") || (p =s "H1/src") then Ok (exampleStat "QmDir")
        else Err noLink
    | ObjectNewDir => Ok {| Hash := "QmEmpty" |}
    | ObjectPatchAddLink _ path _ =>
        if path =s "dst" then Ok {| Hash := "H2" |} else Err timeout
    | c => unreachable c
    end.

(** A writable endpoint with MFS at [H0]. *)
Definition mfsNet : Network :=
  fun _ _ c =>
    match c return reply c with
    | IsReadOnlyProbe => {| StatusCode := Some 400%Z; probeErr := Some noLink |}
    | FilesStat _ => Ok {| Hash := "H0" |}
    | c => unreachable c
    end.

Definition localOptions : Options :=
  {| Endpoint := "http://localhost:5001"; IpfsRoot := ""; UpdatePeriod := 15000000000 |}.

Definition exampleRoot (last current : string) (readOnly : bool) : Root :=
  {| r_api := NewApi "http://localhost:5001"; r_opt := localOptions;
     lastPersistedHash := last; hash := current; ipnsPath := ""; ipnsKey := "";
     isMFS := true; isReadOnly := readOnly |}.

Definition ipnsRoot (last current : string) : Root :=
  {| r_api := NewApi "http://localhost:5001";
     r_opt := {| Endpoint := "http://localhost:5001"; IpfsRoot := "/ipns/QmKey";
                 UpdatePeriod := 15000000000 |};
     lastPersistedHash := last; hash := current; ipnsPath := "/ipns/QmKey";
     ipnsKey := "self"; isMFS := false; isReadOnly := false |}.

Definition exampleFs : Fs :=
  {| name := "remote"; root := ""; opt := localOptions;
     api := NewApi "http://localhost:5001"; ipfsRoot := Some 0;
     _emptyDirHash := "" |}.

(** A process with one filesystem open on one root. *)
Definition exampleWorld (r : Root) : World :=
  {| calls := []; roots := [r]; fss := [exampleFs];
     cache := {[ r_opt r := 0 ]}; cacheLocked := false;
     timers := [0]; atexit := [0] |}.

Definition ep : string := "http://localhost:5001".

(** The example process after the pin swap of a persist from [H0] to
    [H1], and after the three reads that find the conflict. *)
Definition afterPinSwap (w : World) : World :=
  addCalls
    [ {| to := ep; call := PinAdd "H1" true; failure := None |};
      {| to := ep; call := PinRm "H0"; failure := Some notPinned |} ] w.

Definition afterConflict (w : World) : World :=
  addCalls
    [ {| to := ep; call := FilesStat "/"; failure := None |};
      {| to := ep; call := ObjectDiff_ "H0" "H1"; failure := None |};
      {| to := ep; call := ObjectDiff_ "Hext" "H0"; failure := None |} ]
    (afterPinSwap w).


Definition failedAddLink : Request :=
  {| to := ep; call := ObjectPatchAddLink "H1" "new" "QmEmpty"; failure := Some timeout |}.

Definition failedRmLink : Request :=
  {| to := ep; call := ObjectPatchRmLink "H2" "src"; failure := Some timeout |}.

(** Two filesystems opened one after the other with the same options, and
    a third one on an IPFS path. *)
Definition firstOpen :=
  NewFs mfsNet simpleJoin id id "remote" "" (Ok localOptions) emptyWorld.

Definition secondOpen :=
  NewFs mfsNet simpleJoin id id "other" "" (Ok localOptions) firstOpen.2.

Definition snapshotOptions : Options :=
  {| Endpoint := "http://localhost:5001"; IpfsRoot := "/ipfs/QmSnapshot";
     UpdatePeriod := 15000000000 |}.

Definition thirdOpen :=
  NewFs mfsNet simpleJoin id id "snapshot" "" (Ok snapshotOptions) secondOpen.2.

(** The options of the first two, with a slash in front of the endpoint. *)
Definition slashOptions : Options :=
  {| Endpoint := "/http://localhost:5001"; IpfsRoot := ""; UpdatePeriod := 15000000000 |}.

Definition fourthOpen :=
  NewFs mfsNet simpleJoin id id "slash" "" (Ok slashOptions) thirdOpen.2.

(** A filesystem opened while the endpoint is unreachable, and one opened
    after that. *)
Definition failedOpen :=
  NewFs unreachableNet simpleJoin id id "remote" "" (Ok localOptions) emptyWorld.

Definition openAfterFailure :=
  NewFs mfsNet simpleJoin id id "remote" "" (Ok localOptions) failedOpen.2.

(** ** Reading: List, PublicLink and the parameters of Cat *)

(** What [Fs.List] puts into its entries: a directory made by
    [fs.NewDir(remote, DefaultModTime)], or an object. *)
Inductive DirEntry :=
| EntryDir (remote : string)
| EntryObject (o : Object).

Definition entryRemote (e : DirEntry) : string :=
  match e with
  | EntryDir remote => remote
  | EntryObject o => remote o
  end.

Definition entryIsDir (e : DirEntry) : bool :=
  match e with EntryDir _ => true | EntryObject _ => false end.

Definition PublicGateway : string := "https://ipfs.io".

(** The open options [Client.Cat] looks at, with the fields it reads; an
    option of any other type is [OtherOption]. *)
Inductive OpenOption :=
| SeekOption (Offset : Z)
| RangeOption (Start End_ : Z)
| OtherOption.

(** [strconv.FormatInt(i, 10)] *)
Definition FormatInt (i : Z) : string := NilZero.string_of_int (Z.to_int i).

(** [url.Values]: the values of each key, in the order they were added. *)
Definition Values_Add (key value : string) (v : gmap string (list string))
  : gmap string (list string) :=
  <[key := default [] (v !! key) ++ [value]]> v.

(** The parameters [Client.Cat] sends: the path, and what one pass over
    the options adds. *)
Definition catOption (objectSize : Z) (parameters : gmap string (list string))
    (option : OpenOption) : gmap string (list string) :=
  match option with
  | SeekOption Offset => Values_Add "offset" (FormatInt Offset) parameters
  | RangeOption Start End_ =>
      if (Start <? 0)%Z then
        Values_Add "offset" (FormatInt (Int64.sub objectSize End_)) parameters
      else
        let parameters := Values_Add "offset" (FormatInt Start) parameters in
        if (End_ >? Start)%Z then
          Values_Add "length" (FormatInt (Int64.add (Int64.sub End_ Start) 1)) parameters
        else parameters
  | OtherOption => parameters
  end.

Definition catParameters (objectPath : string) (objectSize : Z)
    (options : list OpenOption) : gmap string (list string) :=
  foldl (catOption objectSize) {["arg" := [objectPath]]} options.

Section Reading.

Variable net : Network.
Variable path_Join : list string -> string.

(** The loop of [Fs.List] over the links: a folder becomes a directory
    entry, anything else is stat'd and becomes an object; a failed stat
    ends the listing with that error. *)
Fixpoint listEntries (fp : nat) (f : Fs) (rootHash dir : string) (links : list Link)
    (entries : list DirEntry) : M (result error (list DirEntry)) :=
  match links with
  | [] => ret (Ok entries)
  | link :: rest =>
      let remote := path_Join [dir; l_Name link] in
      if (l_Type link =? FileEntryTypeFolder)%Z then
        listEntries fp f rootHash dir rest (entries ++ [EntryDir remote])
      else
        let* stat := api_ObjectStat net (api f)
                       (path_Join [rootHash; relativePath path_Join f remote]) in
        match stat with
        | Err e => ret (Err (Remote e))
        | Ok stat =>
            listEntries fp f rootHash dir rest
              (entries ++ [EntryObject (newObject fp remote stat)])
        end
  end.

(** [Fs.List] *)
Definition Fs_List (fp : nat) (dir : string) : M (result error (list DirEntry)) :=
  let* f := getFs fp in
  let* r := getRoot (ipfsRoot f) in
  let rootHash := hash r in
  let absolutePath := path_Join [rootHash; relativePath path_Join f dir] in
  let* links := api_Ls net (api f) absolutePath in
  match links with
  | Err e => if isApiError e then ret (Err ErrorDirNotFound) else ret (Err (Remote e))
  | Ok links => listEntries fp f rootHash dir links []
  end.

(** [Fs.PublicLink]; [expire] and [unlink] are not looked at. *)
Definition PublicLink (fp : nat) (remote : string) : M (result error string) :=
  let* f := getFs fp in
  let* r := getRoot (ipfsRoot f) in
  let ipfsHash := hash r in
  let ipnsPath := ipnsPath r in
  let urlPath :=
    if ipnsPath =s "" then path_Join ["/ipfs"; ipfsHash; relativePath path_Join f remote]
    else path_Join [ipnsPath; relativePath path_Join f remote] in
  let* stat := api_ObjectStat net (api f)
                 (path_Join [ipfsHash; relativePath path_Join f remote]) in
  match stat with
  | Err e => ret (Err (Remote e))
  | Ok _ => ret (Ok (PublicGateway +:+ urlPath))
  end.

End Reading.

(** ** What the calls keep *)

(** What is fixed when a root is made: its client, its options and its
    mode. *)
Definition rootMode (r : Root) : Client * Options * string * string * bool * bool :=
  (r_api r, r_opt r, ipnsPath r, ipnsKey r, isMFS r, isReadOnly r).

(** A computation that does not change what [v] shows of the process. *)
Definition keepsView {A B} (v : World -> B) (m : M A) : Prop :=
  forall w, v (m w).2 = v w.

(** A view that does not depend on the log nor on the open filesystems. *)
Definition stateView {B} (v : World -> B) : Prop :=
  (forall l w, v (World_with_calls l w) = v w) /\
  (forall l w, v (World_with_fss l w) = v w).

(** A view that does not see a root change from [r] to [g r]. *)
Definition blindTo {B} (v : World -> B) (g : Root -> Root) : Prop :=
  forall a r w, roots w !! a = Some r ->
                v (World_with_roots (<[a := g r]> (roots w)) w) = v w.

(** A computation that leaves every read-only root as it is. *)
Definition keepsReadOnlyRoots {A} (m : M A) : Prop :=
  forall w a r, roots w !! a = Some r -> isReadOnly r = true ->
                roots (m w).2 !! a = Some r.

(** Every read-only root is persisted: its hash is its last persisted
    hash. *)
Definition readOnlyClean (w : World) : Prop :=
  forall a r, roots w !! a = Some r -> isReadOnly r = true ->
              hash r = lastPersistedHash r.

(** A root that can be written has something to write to, and an MFS
    root has no IPNS name. *)
Definition wellFormedRoot (r : Root) : Prop :=
  (isReadOnly r = false -> isMFS r = true \/ ipnsKey r <> "") /\
  (isMFS r = true -> ipnsPath r = "" /\ ipnsKey r = "").

(** What holds of the roots at every moment: read-only roots are
    persisted, every root is well formed, and the roots registered for a
    persist at exit are the writable roots, each once. *)
Definition rootsInv (w : World) : Prop :=
  readOnlyClean w /\
  (forall a r, roots w !! a = Some r -> wellFormedRoot r) /\
  (forall a, In a (atexit w) <->
             exists r, roots w !! a = Some r /\ isReadOnly r = false) /\
  NoDup (atexit w).

(** What a call of [NewFs] does to the roots: nothing, or one fresh root
    at the end of the heap. *)
Definition rootsGrow (w w' : World) : Prop :=
  (roots w' = roots w /\ timers w' = timers w /\ atexit w' = atexit w) \/
  (exists r,
     roots w' = roots w ++ [r] /\
     hash r = lastPersistedHash r /\ wellFormedRoot r /\
     timers w' = timers w ++ (if isReadOnly r then [] else [length (roots w)]) /\
     atexit w' = atexit w ++ (if isReadOnly r then [] else [length (roots w)])).

(** ** What the calls send *)

(** A computation that adds to the log only calls that [P] allows. *)
Definition sendsOnly {A} (P : Call -> bool) (m : M A) : Prop :=
  forall w, exists sent, calls (m w).2 = calls w ++ sent /\
                         Forall (fun rq => P (call rq) = true) sent.

(** Calls that change what the endpoint keeps: the MFS tree, the pins and
    the IPNS records. *)
Definition isStoreWrite (c : Call) : bool := isMfsWrite c || isPinCall c || isPublish c.

(** The two calls that look a path up. *)
Definition isLookup (c : Call) : bool :=
  match c with Ls _ | ObjectStat_ _ => true | _ => false end.

Definition linkIsFolder (link : Link) : bool := (l_Type link =? FileEntryTypeFolder)%Z.

(** The requests the last loop of [persistToMFS] sends for one change. *)
Definition changeCalls (change : ObjectChange) : list Call :=
  let filePath := "/" +:+ Path change in
  match Before change with Some _ => [FilesRm filePath] | None => [] end ++
  match After change with
  | Some after => [FilesCp ("/ipfs/" +:+ default "" (after !! "/")) filePath]
  | None => []
  end.

(** The options for which [Client.Cat] adds an offset, and those for
    which it adds a length. *)
Definition addsOffset (option : OpenOption) : bool :=
  match option with SeekOption _ | RangeOption _ _ => true | OtherOption => false end.

Definition addsLength (option : OpenOption) : bool :=
  match option with
  | RangeOption Start End_ => negb (Start <? 0)%Z && (End_ >? Start)%Z
  | _ => false
  end.

Definition valuesOf (key : string) (v : gmap string (list string)) : list string :=
  default [] (v !! key).

(** The root of the [Fs] that [NewFs] returns with [ErrorIsFile]: the
    directory of the path, or the empty path when that is a dot. *)
Definition parentRoot (path_Dir : string -> string) (root : string) : string :=
  if path_Dir root =s "." then "" else path_Dir root.

(** ** More example endpoints and processes *)

(** A writable endpoint with MFS at [H0] on which nothing exists yet and
    every patch gives [H1]. *)
Definition sessionNet : Network :=
  fun _ _ c =>
    match c return reply c with
    | IsReadOnlyProbe => {| StatusCode := Some 400%Z; probeErr := Some noLink |}
    | FilesStat _ => Ok {| Hash := "H0" |}
    | ObjectNewDir => Ok {| Hash := "QmEmpty" |}
    | ObjectStat_ _ => Err noLink
    | ObjectPatchAddLink _ _ _ => Ok {| Hash := "H1" |}
    | ObjectDiff_ _ _ => Ok {| Changes := [changed "docs" (Some "QmEmpty")] |}
    | FilesCp _ _ => None
    | PinAdd _ _ => None
    | PinRm _ => None
    | c => unreachable c
    end.

(** A session on it: open a filesystem, make a directory, persist. *)
Definition sessionOpen :=
  NewFs sessionNet simpleJoin id id "remote" "" (Ok localOptions) emptyWorld.

Definition sessionMkdir := runMutation sessionNet simpleJoin (MMkdir 0 "docs") sessionOpen.2.


(** The [Fs] that [NewFs] allocates for its options. *)
Definition newFs (name root : string) (opt0 : Options) : Fs :=
  {| name := name; root := root; opt := normalize opt0;
     api := NewApi (Endpoint (normalize opt0)); ipfsRoot := None;
     _emptyDirHash := "" |}.

Definition probeOf (net : Network) (f : Fs) (w : World) : Request :=
  {| to := srv (api f); call := IsReadOnlyProbe;
     failure := probeErr (net (calls w) (srv (api f)) IsReadOnlyProbe) |}.

Definition invalidPath (f : Fs) : error :=
  New ("Invalid IPFS path '" +:+ IpfsRoot (opt f) +:+ "'").

(** A public gateway: the probe is answered with 404. *)
Definition gatewayNet : Network :=
  fun _ _ c =>
    match c return reply c with
    | IsReadOnlyProbe => {| StatusCode := Some 404%Z; probeErr := Some noLink |}
    | NameResolve _ => Ok {| hp_Path := "/ipfs/QmSite" |}
    | c => unreachable c
    end.

Definition siteFs : Fs :=
  {| name := "site"; root := ""; 
     opt := {| Endpoint := "https://ipfs.io"; IpfsRoot := "/ipns/QmKey";
               UpdatePeriod := 15000000000 |};
     api := NewApi "https://ipfs.io"; ipfsRoot := None; _emptyDirHash := "" |}.

Definition badFs : Fs :=
  {| name := "bad"; root := ""; 
     opt := {| Endpoint := "http://localhost:5001"; IpfsRoot := "QmNoPrefix";
               UpdatePeriod := 15000000000 |};
     api := NewApi "http://localhost:5001"; ipfsRoot := None; _emptyDirHash := "" |}.

Definition rootOpen := NewRoot mfsNet (newFs "remote" "" localOptions) emptyWorld.

(** The session with a second, read-only root: a filesystem on a
    snapshot. *)
Definition sessionSnapshot :=
  NewFs sessionNet simpleJoin id id "snapshot" "" (Ok snapshotOptions) sessionOpen.2.

Definition listing : List_ :=
  {| Objects :=
       [ {| lo_Hash := "H1";
            Links := [ {| l_Hash := "QmDir"; l_Name := "docs"; l_Size := 0; l_Type := 1 |};
                       {| l_Hash := "QmFile"; l_Name := "a.txt"; l_Size := 4; l_Type := 2 |} ]
         |} ] |}.

(** A writable endpoint with MFS at [H1], a tree with the directory
    [docs] and the file [a.txt], and nothing at [new]. *)
Definition treeNet : Network :=
  fun _ _ c =>
    match c return reply c with
    | IsReadOnlyProbe => {| StatusCode := Some 400%Z; probeErr := Some noLink |}
    | FilesStat _ => Ok {| Hash := "H1" |}
    | Ls _ => Ok listing
    | ObjectStat_ p => if p =s "H1/new" then Err noLink else Ok (exampleStat "QmFile")
    | Add _ _ => Ok {| fa_Hash := "QmNew"; fa_Name := "new"; fa_Size := "5" |}
    | ObjectPatchAddLink _ _ _ => Ok {| Hash := "H2" |}
    | ObjectPatchRmLink _ _ => Ok {| Hash := "H3" |}
    | c => unreachable c
    end.

(** Stand-ins for [path.Base] and [path.Dir] on clean relative paths. *)
Definition simpleBase (p : string) : string := (path_Split p).2.

Fixpoint dropLast (s : string) : string :=
  match s with
  | EmptyString => EmptyString
  | String c EmptyString => EmptyString
  | String c s' => String c (dropLast s')
  end.

Definition simpleDir (p : string) : string :=
  match (path_Split p).1 with
  | EmptyString => "."
  | dir => dropLast dir
  end.

Definition treeWorld : World := exampleWorld (exampleRoot "H1" "H1" false).

(** A change that replaces what is at [path]. *)
Definition replaced (path before after : string) : ObjectChange :=
  {| oc_Type := 2; Path := path; Before := Some {["/" := before]};
     After := Some {["/" := after]} |}.

Definition mfsRefused : error :=
  New ("read only public IPFS gateway can't use MFS. " +:+
       "Please use a IPFS path or IPNS path as `--ipfs-root` parameter").

(** The root [NewRoot] makes for an [Fs], from what it found out. *)
Definition rootFor (f : Fs) (hash ipnsPath ipnsKey : string) (isMFS isReadOnly : bool) : Root :=
  {| r_api := api f; r_opt := opt f; lastPersistedHash := hash; hash := hash;
     ipnsPath := ipnsPath; ipnsKey := ipnsKey; isMFS := isMFS; isReadOnly := isReadOnly |}.

(** A writable endpoint that has the key of [/ipns/QmKey] under the name
    [self]. *)
Definition keyNet : Network :=
  fun _ _ c =>
    match c return reply c with
    | IsReadOnlyProbe => {| StatusCode := Some 400%Z; probeErr := Some noLink |}
    | KeyList_ => Ok {| Keys := [ {| k_Name := "other"; k_Id := "QmOther" |};
                                  {| k_Name := "self"; k_Id := "QmKey" |} ] |}
    | NameResolve _ => Ok {| hp_Path := "/ipfs/QmSite" |}
    | ObjectStat_ _ => Ok (exampleStat "QmFile")
    | c => unreachable c
    end.

Definition ipnsWorld : World :=
  {| calls := []; roots := [ipnsRoot "QmSite" "QmSite"]; fss := [exampleFs];
     cache := ∅; cacheLocked := false; timers := [0]; atexit := [0] |}.

Definition snapshotFs : Fs := newFs "snapshot" "" snapshotOptions.
(** ** Size conversion: arithmetic *)

Section Int64Facts.
Local Open Scope Z_scope.

Lemma wrap_inRange z : Int64.inRange z -> Int64.wrap z = z.
  Proof.
    unfold Int64.inRange, Int64.wrap, Int64.half, Int64.modulus. intros H.
    rewrite Z.mod_small; lia.
  Qed.

Lemma wrap_sub_l a b : Int64.wrap (Int64.wrap a - b) = Int64.wrap (a - b).
  Proof.
    unfold Int64.wrap. f_equal.
    replace ((a + Int64.half) mod Int64.modulus - Int64.half - b + Int64.half)
      with ((a + Int64.half) mod Int64.modulus - b) by lia.
    replace (a - b + Int64.half) with (a + Int64.half - b) by lia.
    apply Zminus_mod_idemp_l.
  Qed.

Lemma wrap_sub_r a b : Int64.wrap (a - Int64.wrap b) = Int64.wrap (a - b).
  Proof.
    unfold Int64.wrap. f_equal.
    replace (a - ((b + Int64.half) mod Int64.modulus - Int64.half) + Int64.half)
      with (a + 2 * Int64.half - (b + Int64.half) mod Int64.modulus) by lia.
    rewrite Zminus_mod_idemp_r.
    f_equal. lia.
  Qed.

Lemma quot_inRange i k : 0 < k -> Int64.inRange i -> Int64.inRange (i ÷ k).
  Proof.
    unfold Int64.inRange. intros Hk Hi.
    destruct (Z.le_gt_cases 0 i) as [Hpos|Hneg].
    - pose proof (Z.quot_pos i k Hpos Hk).
      assert (i ÷ k <= i) by (apply Z.quot_le_upper_bound; nia). lia.
    - assert (Hq : i ÷ k = - ((- i) ÷ k)).
      { rewrite Z.quot_opp_l by lia. lia. }
      assert (0 <= (- i) ÷ k) by (apply Z.quot_pos; lia).
      assert ((- i) ÷ k <= - i) by (apply Z.quot_le_upper_bound; nia). lia.
  Qed.

Lemma rem_bound i k : 0 < k -> - k < Z.rem i k < k.
  Proof.
    intros Hk. destruct (Z.le_gt_cases 0 i) as [Hpos|Hneg].
    - pose proof (Z.rem_bound_pos i k Hpos Hk). lia.
    - pose proof (Z.rem_bound_pos_neg i k). lia.
  Qed.

  (** What the code subtracts for the last chunk is the guarded table. *)
Lemma small_overhead r :
    - (MaxChunkSize + 14) < r < MaxChunkSize + 14 ->
    Int64.sub r (convertSmallFileSize r) = chunkOverhead r.
  Proof.
    unfold MaxChunkSize, convertSmallFileSize, chunkOverhead, stepOverhead, Int64.sub.
    intros Hr.
    destruct (r =? 0) eqn:E0; [apply Z.eqb_eq in E0; subst; reflexivity|].
    repeat match goal with
           | |- context [if ?b then _ else _] => destruct b
           end;
      rewrite wrap_sub_r;
      match goal with
      | |- Int64.wrap ?e = ?k => replace e with k by lia
      end; reflexivity.
  Qed.

Lemma small_size c :
    convertSmallFileSize c = Int64.wrap (c - chunkOverhead c).
  Proof.
    unfold convertSmallFileSize, chunkOverhead, stepOverhead, Int64.sub.
    destruct (c =? 0) eqn:E0; [apply Z.eqb_eq in E0; subst; reflexivity|].
    repeat match goal with
           | |- context [if ?b then _ else _] => destruct b
           end; reflexivity.
  Qed.
End Int64Facts.

(** C5, as stated, is false: a cumulative size of 0 is below 9, the table
    of the claim takes 6 off, and the code returns 0. *)
Lemma convertToFileSize_step_table_fails :
  ~ (forall stat, statInRange stat ->
       convertToFileSize stat = Int64.wrap (specFileSize stepOverhead stat)).
Proof.
  intros H. specialize (H (mkStat 0 0)).
  assert (Hr : statInRange (mkStat 0 0)).
  { unfold statInRange, Int64.inRange; simpl. vm_compute. intuition discriminate. }
  specialize (H Hr). vm_compute in H. discriminate.
Qed.

(** Below the threshold the code takes the guarded overhead off. *)
Lemma convertToFileSize_single (stat : ObjectStat) :
  (CumulativeSize stat < MaxChunkSize + 123)%Z ->
  convertToFileSize stat
  = Int64.wrap (CumulativeSize stat - chunkOverhead (CumulativeSize stat)).
Proof.
  intros Hlt. unfold convertToFileSize.
  change (Int64.add MaxChunkSize 123) with (MaxChunkSize + 123)%Z.
  apply Z.ltb_lt in Hlt. rewrite Hlt. apply small_size.
Qed.

(** From the threshold on it takes 14 off for each full chunk and the
    guarded overhead for the rest. *)
Lemma convertToFileSize_chunked (stat : ObjectStat) :
  statInRange stat ->
  (MaxChunkSize + 123 <= CumulativeSize stat)%Z ->
  let remaining := (CumulativeSize stat - BlockSize stat)%Z in
  convertToFileSize stat
  = Int64.wrap (remaining - 14 * Z.quot remaining (MaxChunkSize + 14)
                - chunkOverhead (Z.rem remaining (MaxChunkSize + 14))).
Proof.
  intros (Hc & Hb & Hi) Hge remaining. unfold convertToFileSize.
  change (Int64.add MaxChunkSize 123) with (MaxChunkSize + 123)%Z.
  change (Int64.add MaxChunkSize 14) with (MaxChunkSize + 14)%Z.
  apply Z.ltb_ge in Hge. rewrite Hge. cbv zeta.
  assert (HK : (0 < MaxChunkSize + 14)%Z) by (unfold MaxChunkSize; lia).
  assert (Es : Int64.sub (CumulativeSize stat) (BlockSize stat) = remaining)
    by (apply wrap_inRange; exact Hi).
  rewrite !Es. clear Es.
  unfold Int64.div, Int64.rem.
  rewrite (wrap_inRange _ (quot_inRange remaining _ HK Hi)).
  rewrite small_overhead by (apply rem_bound; exact HK).
  unfold Int64.sub, Int64.mul.
  rewrite wrap_sub_l.
  match goal with
  | |- Int64.wrap (?a - Int64.wrap ?b - ?c) = _ =>
      replace (a - Int64.wrap b - c)%Z with (a - c - Int64.wrap b)%Z by lia
  end.
  rewrite wrap_sub_r. f_equal. lia.
Qed.

(** C5, amended: the converted size is the formula of the claim, in int64
    arithmetic, with the overhead table guarded by "an empty chunk costs
    nothing": below the single-chunk threshold [MaxChunkSize + 123] it is
    the cumulative size minus the overhead of that size, and from the
    threshold on it is [remaining] minus 14 for each full chunk of
    [MaxChunkSize + 14] minus the overhead of the rest. *)
Theorem convertToFileSize_formula (stat : ObjectStat) :
  statInRange stat ->
  convertToFileSize stat = Int64.wrap (specFileSize chunkOverhead stat).
Proof.
  intros Hstat. unfold specFileSize.
  destruct (CumulativeSize stat <? MaxChunkSize + 123)%Z eqn:E.
  - apply convertToFileSize_single. apply Z.ltb_lt. exact E.
  - apply (convertToFileSize_chunked stat Hstat). apply Z.ltb_ge. exact E.
Qed.

Lemma convertToFileSize_formula_witness :
  statInRange (mkStat 262268 110) /\
  convertToFileSize (mkStat 262268 110) =
  Int64.wrap (specFileSize chunkOverhead (mkStat 262268 110)).
Proof.
  assert (H : statInRange (mkStat 262268 110)).
  { unfold statInRange, Int64.inRange; simpl. vm_compute. intuition discriminate. }
  split; [exact H | exact (convertToFileSize_formula _ H)].
Defined.

(** A file of two full chunks: the rest is empty and costs nothing, where
    the six-step table would take 6 off. *)
Example two_full_chunks :
  let stat := mkStat (2 * (MaxChunkSize + 14) + 104) 104 in
  convertToFileSize stat = (2 * MaxChunkSize)%Z /\
  specFileSize stepOverhead stat = (2 * MaxChunkSize - 6)%Z.
Proof. split; reflexivity. Qed.

(** For the sizes a stat call really reports there is no wrap-around. *)
Corollary convertToFileSize_exact (stat : ObjectStat) :
  (0 <= BlockSize stat <= CumulativeSize stat)%Z ->
  (CumulativeSize stat < Int64.half)%Z ->
  convertToFileSize stat = specFileSize chunkOverhead stat.
Proof.
  intros Hb Hc.
  assert (Hh : Int64.half = (2 ^ 63)%Z) by reflexivity.
  assert (Hstat : statInRange stat)
    by (unfold statInRange, Int64.inRange; rewrite Hh in *; lia).
  assert (HK : (0 < MaxChunkSize + 14)%Z) by (unfold MaxChunkSize; lia).
  assert (Ho : forall z, (0 <= chunkOverhead z <= 14)%Z).
  { intros z. unfold chunkOverhead, stepOverhead.
    repeat match goal with |- context [if ?b then _ else _] => destruct b end; lia. }
  unfold specFileSize.
  destruct (CumulativeSize stat <? MaxChunkSize + 123)%Z eqn:E.
  - apply Z.ltb_lt in E. rewrite (convertToFileSize_single stat E).
    apply wrap_inRange. unfold Int64.inRange. rewrite Hh.
    pose proof (Ho (CumulativeSize stat)). lia.
  - apply Z.ltb_ge in E. rewrite (convertToFileSize_chunked stat Hstat E).
    apply wrap_inRange. unfold Int64.inRange. rewrite Hh.
    set (i := (CumulativeSize stat - BlockSize stat)%Z).
    assert (Hi : (0 <= i)%Z) by (unfold i; lia).
    pose proof (Z.quot_rem' i (MaxChunkSize + 14)) as Hqr.
    pose proof (Z.rem_bound_pos i _ Hi HK) as Hr.
    pose proof (Z.quot_pos i _ Hi HK) as Hq.
    pose proof (Ho (Z.rem i (MaxChunkSize + 14))) as Hk.
    assert (Hi' : (i < 2 ^ 63)%Z) by (unfold i; lia).
    unfold MaxChunkSize in *. nia.
Qed.

(** ** Strings *)

Lemma HasPrefix_spec (s p : string) :
  HasPrefix s p = true <-> exists t, s = p +:+ t.
Proof.
  unfold HasPrefix. revert s.
  induction p as [|c p IH]; intros s.
  - split; [intros _; exists s; reflexivity|].
    intros _. destruct s; reflexivity.
  - destruct s as [|d s]; simpl.
    + split; [discriminate|intros [t Ht]; discriminate].
    + destruct (Ascii.ascii_dec c d) as [->|Hne].
      * rewrite IH. split; intros [t Ht]; exists t.
        -- subst s. reflexivity.
        -- change (String d s = String d (p +:+ t)) in Ht. congruence.
      * split; [discriminate|]. intros [t Ht].
        change (String d s = String c (p +:+ t)) in Ht. congruence.
Qed.

Lemma pathsConflict_true (externals locals : list string) :
  pathsConflict externals locals = true <->
  exists e l, In e externals /\ In l locals /\
              (HasPrefix e l = true \/ HasPrefix l e = true).
Proof.
  unfold pathsConflict. rewrite existsb_exists. split.
  - intros (e & He & H). apply existsb_exists in H as (l & Hl & H).
    apply orb_true_iff in H. eauto 6.
  - intros (e & l & He & Hl & H). exists e. split; [exact He|].
    apply existsb_exists. exists l. split; [exact Hl|].
    apply orb_true_iff. exact H.
Qed.

(** ** The log *)

Lemma addCalls_nil (w : World) : addCalls [] w = w.
Proof. destruct w. unfold addCalls, World_with_calls. simpl. rewrite app_nil_r. reflexivity. Qed.

Lemma addCalls_addCalls (s1 s2 : list Request) (w : World) :
  addCalls s2 (addCalls s1 w) = addCalls (s1 ++ s2) w.
Proof. unfold addCalls, World_with_calls. simpl. rewrite app_assoc. reflexivity. Qed.

Lemma sentBetween_addCalls (sent : list Request) (w : World) :
  sentBetween w (addCalls sent w) = sent.
Proof. unfold sentBetween, addCalls. simpl. apply drop_app_length. Qed.

Lemma sentBetween_roots (sent : list Request) (l : list Root) (w : World) :
  sentBetween w (World_with_roots l (addCalls sent w)) = sent.
Proof. unfold sentBetween, addCalls. simpl. apply drop_app_length. Qed.

Lemma onlySends_ret {A} (a : A) : onlySends (ret a).
Proof. intros w. exists (Done a), []. unfold ret. rewrite addCalls_nil. reflexivity. Qed.

Lemma onlySends_panic {A} (v : panicValue) : onlySends (@panic A v).
Proof. intros w. exists (Panicked v), []. unfold panic. rewrite addCalls_nil. reflexivity. Qed.

Lemma onlySends_bind {A B} (m : M A) (k : A -> M B) :
  onlySends m -> (forall a, onlySends (k a)) -> onlySends (bind m k).
Proof.
  intros Hm Hk w. destruct (Hm w) as (o & s1 & E). unfold bind. rewrite E.
  destruct o as [a|v|].
  - destruct (Hk a (addCalls s1 w)) as (o' & s2 & E'). rewrite E'.
    exists o', (s1 ++ s2). rewrite addCalls_addCalls. reflexivity.
  - exists (Panicked v), s1. reflexivity.
  - exists Blocked, s1. reflexivity.
Qed.

Lemma onlySends_send (net : Network) (a : Client) (c : Call) : onlySends (send net a c).
Proof. intros w. eexists _, _. reflexivity. Qed.

Lemma onlySends_getFs (fp : nat) : onlySends (getFs fp).
Proof.
  intros w. unfold getFs. destruct (fss w !! fp); eexists _, [];
    rewrite addCalls_nil; reflexivity.
Qed.

Lemma onlySends_getRoot (p : RootPtr) : onlySends (getRoot p).
Proof.
  intros w. unfold getRoot. destruct p as [a|]; [destruct (roots w !! a)|];
    eexists _, []; rewrite addCalls_nil; reflexivity.
Qed.

(** Decompose a computation into steps that only send. *)
Ltac only_sends :=
  repeat first
    [ apply onlySends_ret | apply onlySends_panic | assumption
    | apply onlySends_getFs | apply onlySends_getRoot
    | match goal with
      | |- onlySends (send ?n ?a ?c) => exact (onlySends_send n a c)
      end
    | apply onlySends_bind; [|intros ?]
    | match goal with
      | |- onlySends (match ?x with _ => _ end) => destruct x
      | |- onlySends (if ?b then _ else _) => destruct b
      end ].

Section BackendFacts.

Variable net : Network.

Lemma applyChanges_onlySends (a : Client) (changes : list ObjectChange) :
  onlySends (applyChanges net a changes).
Proof.
  induction changes as [|change rest IH]; simpl.
  - apply onlySends_ret.
  - unfold api_FilesRm, api_FilesCp. only_sends.
Qed.

Lemma persistToMFS_onlySends (a : Client) (last new : string) :
  onlySends (persistToMFS net a last new).
Proof.
  unfold persistToMFS, api_FilesStat, api_ObjectDiff. only_sends.
  apply applyChanges_onlySends.
Qed.

Lemma persistToIPNS_onlySends (a : Client) (last new path key : string) :
  onlySends (persistToIPNS net a last new path key).
Proof. unfold persistToIPNS, api_NameResolve, api_NamePublish. only_sends. Qed.

Lemma updatePin_onlySends (a : Client) (last new : string) :
  onlySends (updatePin net a last new).
Proof. unfold updatePin, api_PinAdd, api_PinRm. only_sends. Qed.

(** ** Write-back to MFS *)

(** C1: when the MFS root has moved away from the last persisted hash and
    a locally changed path and an externally changed path are prefixes of
    one another, [persistToMFS] returns the concurrent-modification error
    after exactly three read requests: no FilesCp and no FilesRm is sent
    and nothing else in the process changes. *)
Theorem persistToMFS_conflict (a : Client) (last new : string) (w : World)
    (stat : HasHash) (diff externalDiff : ObjectDiff) (l e : string) :
  let r1 := {| to := srv a; call := FilesStat "/"; failure := None |} in
  let r2 := {| to := srv a; call := ObjectDiff_ last new; failure := None |} in
  let r3 := {| to := srv a; call := ObjectDiff_ (Hash stat) last; failure := None |} in
  net (calls w) (srv a) (FilesStat "/") = Ok stat ->
  Hash stat <> last ->
  net (calls w ++ [r1]) (srv a) (ObjectDiff_ last new) = Ok diff ->
  net ((calls w ++ [r1]) ++ [r2]) (srv a) (ObjectDiff_ (Hash stat) last) = Ok externalDiff ->
  In l (listChangedPath (Changes diff)) ->
  In e (listChangedPath (Changes externalDiff)) ->
  (exists t, l = e +:+ t) \/ (exists t, e = l +:+ t) ->
  persistToMFS net a last new w = (Done (Some mfsConflict), addCalls [r1; r2; r3] w)
  /\ Forall (fun rq => isMfsWrite (call rq) = false) [r1; r2; r3].
Proof.
  intros r1 r2 r3 Hstat Hne Hdiff Hext Hl He Hpre.
  split; [|repeat constructor].
  unfold persistToMFS, api_FilesStat, api_ObjectDiff, bind, send, ret.
  rewrite Hstat. cbn [calls addCalls World_with_calls replyFailure]. fold r1.
  rewrite Hdiff.
  apply String.eqb_neq in Hne. rewrite Hne.
  cbn [negb calls addCalls World_with_calls replyFailure]. fold r2.
  rewrite Hext.
  assert (Hc : pathsConflict (listChangedPath (Changes externalDiff))
                 (listChangedPath (Changes diff)) = true).
  { apply pathsConflict_true. exists e, l. split; [exact He|]. split; [exact Hl|].
    destruct Hpre as [H|H]; [right|left]; apply HasPrefix_spec; exact H. }
  rewrite Hc. unfold addCalls, World_with_calls. cbn.
  rewrite <- !app_assoc. reflexivity.
Qed.

(** What the last loop of [persistToMFS] returns is nil or a wrapped
    error of the endpoint. *)
Lemma applyChanges_result (a : Client) (changes : list ObjectChange) (w : World)
    (e : error) (w' : World) :
  applyChanges net a changes w = (Done (Some e), w') ->
  exists cause msg, e = Wrap cause msg.
Proof.
  revert w. induction changes as [|change rest IH]; intros w; simpl.
  - discriminate.
  - unfold api_FilesRm, api_FilesCp, bind, send, ret.
    destruct (Before change); destruct (After change); simpl;
      repeat match goal with
             | |- context [match net ?p ?s ?c with _ => _ end] =>
                 destruct (net p s c)
             end;
      try (intros E; injection E as <- _; eauto; fail);
      apply IH.
Qed.

(** The conflict error of [persistToMFS] has one source: the overlap test.
    When it comes back, three reads were sent and no write. *)
Lemma persistToMFS_conflict_inv (a : Client) (last new : string) (w w' : World) :
  persistToMFS net a last new w = (Done (Some mfsConflict), w') ->
  exists sent, w' = addCalls sent w /\
               Forall (fun rq => isWrite (call rq) = false) sent.
Proof.
  unfold persistToMFS, api_FilesStat, api_ObjectDiff, bind, send, ret.
  destruct (net (calls w) (srv a) (FilesStat "/")) as [stat|e1]; [|discriminate].
  match goal with |- context [net ?past _ (ObjectDiff_ last new)] =>
    destruct (net past (srv a) (ObjectDiff_ last new)) as [diff|e2]; [|discriminate] end.
  destruct (negb (Hash stat =s last)).
  - match goal with |- context [net ?past _ (ObjectDiff_ (Hash stat) last)] =>
      destruct (net past (srv a) (ObjectDiff_ (Hash stat) last)) as [ext|e3];
        [|discriminate] end.
    destruct (pathsConflict _ _).
    + intros E. injection E as <-. eexists. rewrite !addCalls_addCalls.
      split; [reflexivity|]. repeat constructor.
    + intros E. apply applyChanges_result in E as (c & m & E). discriminate.
  - intros E. apply applyChanges_result in E as (c & m & E). discriminate.
Qed.

(** ** Write-back to IPNS *)

(** When the name resolves to a hash other than the last persisted one,
    the resolve request is the only one sent. *)
Lemma persistToIPNS_conflict_run (a : Client) (last new path key : string)
    (w : World) (result : HasPath) :
  net (calls w) (srv a) (NameResolve path) = Ok result ->
  (path_Split (hp_Path result)).2 <> last ->
  persistToIPNS net a last new path key w
  = (Done (Some ipnsConflict),
     addCalls [{| to := srv a; call := NameResolve path; failure := None |}] w).
Proof.
  intros Hres Hne.
  unfold persistToIPNS, api_NameResolve, bind, send, ret. rewrite Hres.
  assert (E : (last =s (path_Split (hp_Path result)).2) = false)
    by (apply String.eqb_neq; congruence).
  rewrite E. reflexivity.
Qed.

(** Publishing is reached on one path only: the name resolved, and to the
    last persisted hash. *)
Lemma persistToIPNS_publish_only_if (a : Client) (last new path key : string)
    (w : World) (rq : Request) :
  In rq (sentBetween w (persistToIPNS net a last new path key w).2) ->
  isPublish (call rq) = true ->
  exists result, net (calls w) (srv a) (NameResolve path) = Ok result /\
                 (path_Split (hp_Path result)).2 = last /\
                 call rq = NamePublish new key.
Proof.
  unfold persistToIPNS, api_NameResolve, api_NamePublish, bind, send, ret.
  destruct (net (calls w) (srv a) (NameResolve path)) as [result|e] eqn:Hres.
  - destruct (last =s (path_Split (hp_Path result)).2) eqn:E; cbn [negb].
    + apply String.eqb_eq in E.
      match goal with |- context [net ?past _ (NamePublish new key)] =>
        destruct (net past (srv a) (NamePublish new key)) eqn:Hpub end;
        cbn [snd]; rewrite addCalls_addCalls, sentBetween_addCalls;
        intros [<-|[<-|[]]]; cbn; try discriminate; eauto.
    + cbn [snd]. rewrite sentBetween_addCalls. intros [<-|[]]. discriminate.
  - cbn [snd]. rewrite sentBetween_addCalls. intros [<-|[]]. discriminate.
Qed.

(** C4: when the IPNS path resolves to a hash other than the last
    persisted one, [persistToIPNS] returns the concurrent-modification
    error and the resolve request is the only request sent, so NamePublish
    is not called; and whenever a publish request is sent, the path had
    resolved to the last persisted hash and the request publishes the new
    hash under the owned key. *)
Theorem persistToIPNS_conflict (a : Client) (last new path key : string) (w : World) :
  (forall result,
      net (calls w) (srv a) (NameResolve path) = Ok result ->
      (path_Split (hp_Path result)).2 <> last ->
      persistToIPNS net a last new path key w
      = (Done (Some ipnsConflict),
         addCalls [{| to := srv a; call := NameResolve path; failure := None |}] w))
  /\
  (forall rq,
      In rq (sentBetween w (persistToIPNS net a last new path key w).2) ->
      isPublish (call rq) = true ->
      exists result, net (calls w) (srv a) (NameResolve path) = Ok result /\
                     (path_Split (hp_Path result)).2 = last /\
                     call rq = NamePublish new key).
Proof.
  split.
  - intros result. apply persistToIPNS_conflict_run.
  - intros rq. apply persistToIPNS_publish_only_if.
Qed.

(** The conflict error of [persistToIPNS] comes back after the resolve
    request alone. *)
Lemma persistToIPNS_conflict_inv (a : Client) (last new path key : string)
    (w w' : World) :
  persistToIPNS net a last new path key w = (Done (Some ipnsConflict), w') ->
  exists sent, w' = addCalls sent w /\
               Forall (fun rq => isWrite (call rq) = false) sent.
Proof.
  unfold persistToIPNS, api_NameResolve, api_NamePublish, bind, send, ret.
  destruct (net (calls w) (srv a) (NameResolve path)) as [result|e]; [|discriminate].
  destruct (negb (last =s (path_Split (hp_Path result)).2)).
  - intros E. injection E as <-. eexists. split; [reflexivity|]. repeat constructor.
  - match goal with |- context [net ?past _ (NamePublish new key)] =>
      destruct (net past (srv a) (NamePublish new key)) end; discriminate.
Qed.

(** ** Pins *)

(** [updatePin], case by case. *)
Lemma updatePin_run (c : Client) (last new : string) (w : World) :
  let addReply := net (calls w) (srv c) (PinAdd new true) in
  let w1 := addCalls [{| to := srv c; call := PinAdd new true; failure := addReply |}] w in
  let rmReply := net (calls w1) (srv c) (PinRm last) in
  let w2 := addCalls [{| to := srv c; call := PinRm last; failure := rmReply |}] w1 in
  updatePin net c last new w =
  match addReply with
  | Some e => (Done (Some (pinError e)), w1)
  | None =>
      match rmReply with
      | Some e =>
          if Contains (neterror_Error e) "not pinned" then (Done None, w2)
          else (Done (Some (unpinError last e)), w2)
      | None => (Done None, w2)
      end
  end.
Proof.
  intros addReply w1 rmReply w2.
  unfold updatePin, api_PinAdd, api_PinRm, bind, send, ret.
  cbn [replyFailure]. fold addReply. destruct addReply as [e|] eqn:Ea.
  - reflexivity.
  - fold w1. fold rmReply. destruct rmReply as [e|] eqn:Er.
    + destruct (Contains (neterror_Error e) "not pinned"); reflexivity.
    + reflexivity.
Qed.

Lemma getRoot_some (a : nat) (root : Root) (w : World) :
  roots w !! a = Some root -> getRoot (Some a) w = (Done root, w).
Proof. intros H. unfold getRoot. rewrite H. reflexivity. Qed.

(** [persist] on a root whose hash has moved: the pin swap, then the
    write-back. *)
Lemma persist_unfold (a : nat) (root : Root) (w : World) :
  roots w !! a = Some root ->
  hash root <> lastPersistedHash root ->
  persist net (Some a) w =
  match updatePin net (r_api root) (lastPersistedHash root) (hash root) w with
  | (Done (Some e), w') => (Panicked (PanicError e), w')
  | (Done None, w') => updatePersistedHash net (Some a) root w'
  | (Panicked v, w') => (Panicked v, w')
  | (Blocked, w') => (Blocked, w')
  end.
Proof.
  intros Hroot Hne. unfold persist, bind at 1. rewrite (getRoot_some _ _ _ Hroot).
  apply String.eqb_neq in Hne. rewrite Hne. unfold bind at 1.
  destruct (updatePin net _ _ _ w) as [[[e|]|v|] w']; reflexivity.
Qed.

(** C3: persisting a hash transition sends PinAdd for the new hash,
    recursive, first.  If that fails, [persist] panics with the wrapped
    error after that single request.  Otherwise PinRm for the last
    persisted hash is sent next; a failure whose message contains
    "not pinned" is ignored and [persist] goes on to the write-back exactly
    as after a successful unpin; any other failure makes [persist] panic
    with the wrapped error.  In both fatal cases nothing but the log has
    changed, so [lastPersistedHash] is what it was, and no further request
    is sent. *)
Theorem persist_pin_reconciliation (a : nat) (root : Root) (w : World) :
  roots w !! a = Some root ->
  hash root <> lastPersistedHash root ->
  let c := r_api root in
  let H0 := lastPersistedHash root in
  let H1 := hash root in
  let addReply := net (calls w) (srv c) (PinAdd H1 true) in
  let w1 := addCalls [{| to := srv c; call := PinAdd H1 true; failure := addReply |}] w in
  let rmReply := net (calls w1) (srv c) (PinRm H0) in
  let w2 := addCalls [{| to := srv c; call := PinRm H0; failure := rmReply |}] w1 in
  match addReply with
  | Some e =>
      persist net (Some a) w = (Panicked (PanicError (pinError e)), w1)
      /\ roots w1 !! a = Some root
  | None =>
      match rmReply with
      | Some e =>
          if Contains (neterror_Error e) "not pinned"
          then persist net (Some a) w = updatePersistedHash net (Some a) root w2
          else persist net (Some a) w = (Panicked (PanicError (unpinError H0 e)), w2)
               /\ roots w2 !! a = Some root
      | None => persist net (Some a) w = updatePersistedHash net (Some a) root w2
      end
  end.
Proof.
  intros Hroot Hne c H0 H1 addReply w1 rmReply w2.
  rewrite (persist_unfold a root w Hroot Hne).
  pose proof (updatePin_run c H0 H1 w) as E. cbv zeta in E.
  fold c H0 H1. rewrite E. fold addReply w1 rmReply w2.
  destruct addReply as [e|].
  - split; [reflexivity|exact Hroot].
  - destruct rmReply as [e|].
    + destruct (Contains (neterror_Error e) "not pinned").
      * reflexivity.
      * split; [reflexivity|exact Hroot].
    + reflexivity.
Qed.

(** ** Persist *)

Lemma writeBack_onlySends (root : Root) :
  onlySends
    (if isMFS root then
       persistToMFS net (r_api root) (lastPersistedHash root) (hash root)
     else if negb (ipnsKey root =s "") then
       persistToIPNS net (r_api root) (lastPersistedHash root) (hash root)
         (ipnsPath root) (ipnsKey root)
     else ret None).
Proof.
  destruct (isMFS root); [apply persistToMFS_onlySends|].
  destruct (negb _); [apply persistToIPNS_onlySends|apply onlySends_ret].
Qed.

(** A write-back that returns ends with the root's [lastPersistedHash]
    advanced to its hash; the rest of the heap is untouched. *)
Lemma updatePersistedHash_done (a : nat) (root root0 : Root) (w w' : World) :
  roots w !! a = Some root0 ->
  updatePersistedHash net (Some a) root w = (Done tt, w') ->
  exists sent,
    w' = World_with_roots
           (<[a := Root_with_lastPersistedHash (hash root0) root0]> (roots w))
           (addCalls sent w).
Proof.
  intros Hroot. unfold updatePersistedHash, bind at 1.
  destruct (writeBack_onlySends root w) as (o & sent & E). rewrite E.
  destruct o as [[e|]|v|]; try discriminate.
  unfold modifyRoot, bind.
  rewrite (getRoot_some a root0 (addCalls sent w)) by exact Hroot.
  intros H. injection H as <-. exists sent. reflexivity.
Qed.

(** A write-back that does not return leaves the heap as it was. *)
Lemma updatePersistedHash_failed (p : RootPtr) (root : Root) (w w' : World)
    (o : outcome unit) :
  updatePersistedHash net p root w = (o, w') ->
  o <> Done tt ->
  roots w' = roots w /\ timers w' = timers w.
Proof.
  unfold updatePersistedHash, bind at 1.
  destruct (writeBack_onlySends root w) as (o1 & sent & E). rewrite E.
  destruct o1 as [[e|]|v|]; try (intros H; injection H as <- <-; split; reflexivity).
  unfold modifyRoot, bind, getRoot.
  destruct p as [a|]; [|intros H; injection H as <- <-; split; reflexivity].
  cbn [roots addCalls World_with_calls].
  destruct (roots w !! a); intros H; injection H as <- <-; intros Ho;
    [congruence|split; reflexivity].
Qed.

Lemma persist_noop (a : nat) (root : Root) (w : World) :
  roots w !! a = Some root ->
  hash root = lastPersistedHash root ->
  persist net (Some a) w = (Done tt, w).
Proof.
  intros Hroot Heq. unfold persist, bind. rewrite (getRoot_some _ _ _ Hroot).
  rewrite Heq, String.eqb_refl. reflexivity.
Qed.

(** After a persist that returned, the root's two hashes agree. *)
Lemma persist_done (p : RootPtr) (w w' : World) :
  persist net p w = (Done tt, w') ->
  exists a root, p = Some a /\ roots w' !! a = Some root /\
                 hash root = lastPersistedHash root.
Proof.
  destruct p as [a|]; [|discriminate].
  destruct (roots w !! a) as [root|] eqn:Hroot.
  - destruct (String.eqb_spec (hash root) (lastPersistedHash root)) as [Heq|Hne].
    + rewrite (persist_noop a root w Hroot Heq). intros H. injection H as <-. eauto.
    + rewrite (persist_unfold a root w Hroot Hne).
      destruct (updatePin_onlySends (r_api root) (lastPersistedHash root) (hash root) w)
        as (o & sent & E).
      rewrite E. destruct o as [[e|]|v|]; try discriminate.
      intros H. apply (updatePersistedHash_done a root root) in H as (sent' & ->);
        [|exact Hroot].
      exists a, (Root_with_lastPersistedHash (hash root) root).
      split; [reflexivity|]. split; [|reflexivity].
      cbn [roots World_with_roots addCalls World_with_calls].
      apply list_lookup_insert_eq. eapply lookup_lt_Some. exact Hroot.
  - unfold persist, bind, getRoot. rewrite Hroot. discriminate.
Qed.

(** C2: a persist on a root whose hash equals its last persisted hash
    returns at once: the process, log included, is exactly what it was.
    Hence a second persist right after a first one changes nothing and
    sends nothing: two calls in a row are one call. *)
Theorem persist_idempotent (p : RootPtr) (w : World) :
  (forall a root,
      p = Some a -> roots w !! a = Some root ->
      hash root = lastPersistedHash root ->
      persist net p w = (Done tt, w))
  /\ (forall w', persist net p w = (Done tt, w') ->
                 persist net p w' = (Done tt, w')
                 /\ sentBetween w' (persist net p w').2 = [])
  /\ (let* _ := persist net p in persist net p) w = persist net p w.
Proof.
  assert (Hsecond : forall w', persist net p w = (Done tt, w') ->
                               persist net p w' = (Done tt, w')).
  { intros w' H. apply persist_done in H as (a & root & -> & Hroot & Heq).
    apply (persist_noop a root w' Hroot Heq). }
  split; [|split].
  - intros a root -> Hroot Heq. apply (persist_noop a root w Hroot Heq).
  - intros w' H. split; [apply Hsecond; exact H|].
    rewrite (Hsecond w' H). unfold sentBetween. cbn [snd]. apply drop_all.
  - unfold bind. destruct (persist net p w) as [[[]|v|] w'] eqn:E; try reflexivity.
    apply Hsecond. reflexivity.
Qed.

(** ** Conflicts *)

(** C8, amended: when the write-back detects an external modification,
    [persist] panics with the concurrent-modification error; no root of
    the heap has changed, so hash and [lastPersistedHash] are what they
    were; between the pin swap and the panic only reads were sent.  The
    pin swap itself has been sent by then, and the panic ends the timer's
    function before it arms the next timer. *)
Theorem persist_conflict_aftermath (a : nat) (root : Root) (w w2 w3 : World) (e : error) :
  roots w !! a = Some root ->
  hash root <> lastPersistedHash root ->
  updatePin net (r_api root) (lastPersistedHash root) (hash root) w = (Done None, w2) ->
  conflictDetected net root w2 e w3 ->
  persist net (Some a) w = (Panicked (PanicError e), w3)
  /\ roots w3 = roots w
  /\ Forall (fun rq => isWrite (call rq) = false) (sentBetween w2 w3)
  /\ (exists rmFailure,
         sentBetween w w2 =
         [ {| to := srv (r_api root); call := PinAdd (hash root) true; failure := None |};
           {| to := srv (r_api root); call := PinRm (lastPersistedHash root);
              failure := rmFailure |} ])
  /\ timerCallback net a w = (Panicked (PanicError e), w3)
  /\ timers w3 = timers w.
Proof.
  intros Hroot Hne Hpin Hconf.
  assert (Hw2 : exists rmFailure,
             w2 = addCalls
                    [ {| to := srv (r_api root); call := PinAdd (hash root) true;
                         failure := None |};
                      {| to := srv (r_api root); call := PinRm (lastPersistedHash root);
                         failure := rmFailure |} ] w).
  { pose proof (updatePin_run (r_api root) (lastPersistedHash root) (hash root) w) as E.
    cbv zeta in E. rewrite E in Hpin. clear E.
    destruct (net (calls w) _ (PinAdd _ _)) as [e1|]; [discriminate|].
    match type of Hpin with context [net ?past ?s (PinRm ?h)] =>
      destruct (net past s (PinRm h)) as [e2|] end.
    - destruct (Contains _ _); [|discriminate].
      injection Hpin as <-. rewrite addCalls_addCalls. eauto.
    - injection Hpin as <-. rewrite addCalls_addCalls. eauto. }
  destruct Hw2 as (rmFailure & Hw2).
  assert (Hw3 : exists sent, w3 = addCalls sent w2 /\
                             Forall (fun rq => isWrite (call rq) = false) sent).
  { destruct Hconf as [(_ & -> & H)|(_ & _ & -> & H)].
    - apply persistToMFS_conflict_inv in H. exact H.
    - apply persistToIPNS_conflict_inv in H. exact H. }
  destruct Hw3 as (sent & Hw3 & Hreads).
  assert (Hpersist : persist net (Some a) w = (Panicked (PanicError e), w3)).
  { rewrite (persist_unfold a root w Hroot Hne), Hpin.
    unfold updatePersistedHash, bind.
    destruct Hconf as [(-> & _ & H)|(-> & Hkey & _ & H)].
    - rewrite H. reflexivity.
    - apply String.eqb_neq in Hkey. rewrite Hkey. cbn [negb]. rewrite H. reflexivity. }
  split; [exact Hpersist|].
  split; [subst w3 w2; reflexivity|].
  split; [subst w3; rewrite sentBetween_addCalls; exact Hreads|].
  split; [exists rmFailure; subst w2; apply sentBetween_addCalls|].
  split; [|subst w3 w2; reflexivity].
  unfold timerCallback, bind. rewrite Hpersist. reflexivity.
Qed.

End BackendFacts.

(** ** The filesystem operations *)

(** Run an operation symbolically: case on every lookup and every reply
    it branches on, innermost first. *)
Ltac split_matches :=
  repeat match goal with
  | |- context [match ?x with _ => _ end] =>
      lazymatch x with
      | context [match _ with _ => _ end] => fail
      | _ => destruct x eqn:?
      end
  end.

(** Read the fields of an updated world and cut the old log off the new
    one. *)
Ltac world_simpl :=
  unfold sentBetween in *;
  cbn [calls roots fss cache cacheLocked timers atexit addCalls
       World_with_calls World_with_roots World_with_fss World_with_cache
       World_with_cacheLocked World_with_timers World_with_atexit fst snd] in *;
  rewrite <- ?app_assoc in *;
  rewrite ?drop_app_length in *;
  cbn [app] in *.

(** Membership in a concrete log, request by request. *)
Ltac split_in H :=
  repeat match type of H with
         | _ \/ _ => destruct H as [H|H]
         | False => destruct H
         | In _ (_ ++ _) => apply in_app_or in H
         | In _ (_ :: _) => cbn [In] in H
         | In _ [] => destruct H
         end.

Ltac in_cases H :=
  repeat (destruct H as [H|H]; [subst|]); try contradiction.

Section OperationFacts.

Variable net : Network.
Variable path_Join : list string -> string.

Ltac unfold_ops :=
  unfold runMutation, PutStream, Object_Update, Move, Put, Object_Remove, Mkdir, Rmdir,
    Copy, DirMove, Purge, NewObject, emptyDirHash, checkReadOnly,
    modifyFs, modifyRoot, getFs, getRoot,
    api_Add, api_Ls, api_ObjectStat, api_ObjectPatchAddLink, api_ObjectPatchRmLink,
    api_ObjectNewDir, bind, send, ret, panic, errorOf.

(** C7: an entry point called on an [Fs] whose root is read-only returns
    the read-only error of that [Fs], and the process is exactly what it
    was: no request was sent, no hash changed. *)
Theorem readOnly_fails_fast (m : Mutation) (w : World) (f : Fs) (a : nat) (root : Root) :
  fss w !! receiver m = Some f ->
  ipfsRoot f = Some a ->
  roots w !! a = Some root ->
  isReadOnly root = true ->
  runMutation net path_Join m w = (Done (Some (readOnlyError f)), w).
Proof.
  intros Hf Ha Hroot Hro.
  destruct m; cbn [receiver] in Hf;
    unfold runMutation, PutStream, Object_Update, Put, Object_Remove, Mkdir, Rmdir,
      Copy, Move, DirMove, MergeDirs, Purge, checkReadOnly, getFs, getRoot, bind, ret;
    rewrite Hf, Ha, Hroot, Hro; reflexivity.
Qed.

(** When the stat request that [Mkdir] sends for the path comes back
    without error, [Mkdir] returns nil, no patch request is among those it
    sent, and every root of the heap is what it was. *)
Lemma Mkdir_stat_ok (fp : nat) (dir : string) (w w' : World)
    (o : outcome (option error)) (rq : Request) (p : string) :
  Mkdir net path_Join fp dir w = (o, w') ->
  In rq (sentBetween w w') ->
  call rq = ObjectStat_ p ->
  failure rq = None ->
  o = Done None /\ roots w' = roots w /\
  Forall (fun sent => isPatch (call sent) = false) (sentBetween w w').
Proof.
  unfold_ops.
  split_matches; intros [= <- <-] Hin Hcall Hfail; world_simpl.
  all: try (rewrite drop_all in Hin; contradiction).
  all: in_cases Hin; cbn in Hcall, Hfail; try discriminate.
  all: split; [reflexivity|split; [reflexivity|repeat constructor]].
Qed.


(** One entry point, every path through it: the failed patch call is found
    in the log of the path and the result is read off. *)
Ltac patch_failure_by_cases :=
  let Hin := fresh "Hin" in
  let Hpatch := fresh "Hpatch" in
  let Hfail := fresh "Hfail" in
  intros ? ? ? ? ?; unfold_ops;
  split_matches; intros [= <- <-] Hin Hpatch Hfail; world_simpl;
  try (rewrite drop_all in Hin; contradiction);
  in_cases Hin; cbn in Hpatch, Hfail; try discriminate;
  injection Hfail as <-;
  cbn [patchErrorReturned isAddLink call copiesThenRemoves];
  repeat match goal with
         | H : isApiError _ = _ |- _ => rewrite H
         | H : Contains _ _ = _ |- _ => rewrite H
         end;
  (split; [reflexivity|]);
  first [ intros _; reflexivity | intros [?|?]; discriminate ].

Lemma Put_patch_failure fp content remote : patchFailureAborts net path_Join (MPut fp content remote).
Proof. patch_failure_by_cases. Qed.

Lemma PutStream_patch_failure fp content remote :
  patchFailureAborts net path_Join (MPutStream fp content remote).
Proof. patch_failure_by_cases. Qed.

Lemma Update_patch_failure ob content remote :
  patchFailureAborts net path_Join (MUpdate ob content remote).
Proof. patch_failure_by_cases. Qed.

Lemma Remove_patch_failure ob : patchFailureAborts net path_Join (MRemove ob).
Proof. patch_failure_by_cases. Qed.

Lemma Mkdir_patch_failure fp dir : patchFailureAborts net path_Join (MMkdir fp dir).
Proof. patch_failure_by_cases. Qed.

Lemma Rmdir_patch_failure fp dir : patchFailureAborts net path_Join (MRmdir fp dir).
Proof. patch_failure_by_cases. Qed.

Lemma Copy_patch_failure fp src remote : patchFailureAborts net path_Join (MCopy fp src remote).
Proof. patch_failure_by_cases. Qed.

Lemma Move_patch_failure fp src remote : patchFailureAborts net path_Join (MMove fp src remote).
Proof. patch_failure_by_cases. Qed.

Lemma DirMove_patch_failure fp src srcRemote dstRemote :
  patchFailureAborts net path_Join (MDirMove fp src srcRemote dstRemote).
Proof. patch_failure_by_cases. Qed.

Lemma Purge_patch_failure fp dir : patchFailureAborts net path_Join (MPurge fp dir).
Proof. patch_failure_by_cases. Qed.

Lemma mergeLinks_run (a : Client) (srcPath : string) (links : list Link)
    (h : string) (w : World) :
  exists o sent, mergeLinks net path_Join a srcPath links h w = (o, addCalls sent w) /\
                 failedPatchIs sent o.
Proof.
  revert h w. induction links as [|link rest IH]; intros h w; cbn [mergeLinks].
  - exists (Done (Ok h)), []. rewrite addCalls_nil. split; [reflexivity|].
    intros rq e [].
  - unfold api_ObjectPatchAddLink, bind, send, ret.
    destruct (net (calls w) (srv a) _) as [result|e1] eqn:E.
    + match goal with |- context [addCalls [?r] w] => set (r1 := r) end.
      destruct (IH (Hash result) (addCalls [r1] w)) as (o & sent & Hrun & Hfail).
      exists o, (r1 :: sent). rewrite Hrun, addCalls_addCalls. split; [reflexivity|].
      intros rq e [<-|Hin] Hp Hf; [discriminate|]. eapply Hfail; eassumption.
    + eexists _, [_]. split; [reflexivity|].
      intros rq e [<-|[]] Hp Hf. cbn in Hf. congruence.
Qed.

Lemma mergeDirs_run (f : Fs) (srcPath : string) (dirs : list string)
    (h : string) (w : World) :
  exists o sent, mergeDirs net path_Join f srcPath dirs h w = (o, addCalls sent w) /\
                 failedPatchIs sent o.
Proof.
  revert h w. induction dirs as [|dir rest IH]; intros h w; cbn [mergeDirs].
  - exists (Done (Ok h)), []. rewrite addCalls_nil. split; [reflexivity|].
    intros rq e [].
  - unfold api_Ls, api_ObjectPatchRmLink, bind at 1 2, send at 1, ret, panic.
    destruct (net (calls w) (srv (api f)) _) as [[[|ob obs]]|e1];
      cbn [Objects replyFailure];
      match goal with |- context [addCalls [?r] w] => set (r1 := r) end;
      assert (Hr1 : isPatch (call r1) = false) by reflexivity.
    + eexists _, [r1]. split; [reflexivity|].
      intros rq e [Heq|[]] Hp Hf. rewrite <- Heq in Hp. congruence.
    + destruct (mergeLinks_run (api f) srcPath (Links ob) h (addCalls [r1] w))
        as (o1 & sent1 & Hrun1 & Hfail1).
      unfold bind at 1. rewrite Hrun1, addCalls_addCalls.
      destruct o1 as [[h1|e2]|v|].
      * unfold bind, send.
        destruct (net _ (srv (api f)) (ObjectPatchRmLink h1 _)) as [result|e3] eqn:E;
          cbn [replyFailure];
          match goal with |- context [addCalls [?r] (addCalls _ w)] => set (r2 := r) end.
        -- destruct (IH (Hash result) (addCalls [r2] (addCalls ([r1] ++ sent1) w)))
             as (o & sent & Hrun & Hfail).
           rewrite Hrun, !addCalls_addCalls. eexists _, _. split; [reflexivity|].
           intros rq e Hin Hp Hf.
           split_in Hin.
           ++ rewrite <- Hin in Hp. congruence.
           ++ specialize (Hfail1 rq e Hin Hp Hf). discriminate.
           ++ rewrite <- Hin in Hf. discriminate.
           ++ eapply Hfail; eassumption.
        -- rewrite addCalls_addCalls. eexists _, _. split; [reflexivity|].
           intros rq e Hin Hp Hf.
           split_in Hin.
           ++ rewrite <- Hin in Hp. congruence.
           ++ specialize (Hfail1 rq e Hin Hp Hf). discriminate.
           ++ rewrite <- Hin in Hf. cbn in Hf. congruence.
      * eexists _, _. split; [reflexivity|].
        intros rq e [Heq|Hin] Hp Hf; [rewrite <- Heq in Hp; congruence|].
        specialize (Hfail1 rq e Hin Hp Hf). congruence.
      * eexists _, _. split; [reflexivity|].
        intros rq e [Heq|Hin] Hp Hf; [rewrite <- Heq in Hp; congruence|].
        specialize (Hfail1 rq e Hin Hp Hf). discriminate.
      * eexists _, _. split; [reflexivity|].
        intros rq e [Heq|Hin] Hp Hf; [rewrite <- Heq in Hp; congruence|].
        specialize (Hfail1 rq e Hin Hp Hf). discriminate.
    + eexists _, [r1]. split; [reflexivity|].
      intros rq e [Heq|[]] Hp Hf. rewrite <- Heq in Hp. congruence.
Qed.

Lemma MergeDirs_patch_failure fp dirs : patchFailureAborts net path_Join (MMergeDirs fp dirs).
Proof.
  intros w w' o rq e. unfold runMutation, MergeDirs, checkReadOnly, getFs, getRoot,
    bind at 1 2 3 4, ret, panic.
  destruct (fss w !! fp) as [f|]; [|intros [= <- <-]; world_simpl;
    rewrite drop_all; intros []].
  destruct (ipfsRoot f) as [a|]; [|intros [= <- <-]; world_simpl;
    rewrite drop_all; intros []].
  destruct (roots w !! a) as [root|] eqn:Hroot; [|intros [= <- <-]; world_simpl;
    rewrite drop_all; intros []].
  destruct (isReadOnly root); [intros [= <- <-]; world_simpl;
    rewrite drop_all; intros []|].
  destruct dirs as [|firstDirectory rest]; [intros [= <- <-]; world_simpl;
    rewrite drop_all; intros []|].
  rewrite Hroot. unfold bind.
  destruct (mergeDirs_run f (relativePath path_Join f firstDirectory) rest (hash root) w)
    as (o1 & sent & Hrun & Hfail).
  rewrite Hrun. destruct o1 as [[h|e1]|v|].
  - unfold modifyRoot, bind, getRoot. cbn [roots addCalls World_with_calls].
    rewrite Hroot. intros [= <- <-]. rewrite sentBetween_roots.
    intros Hin Hp Hf. specialize (Hfail rq e Hin Hp Hf). discriminate.
  - intros [= <- <-]. rewrite sentBetween_addCalls.
    intros Hin Hp Hf. specialize (Hfail rq e Hin Hp Hf). injection Hfail as ->.
    split; [reflexivity|intros _; reflexivity].
  - intros [= <- <-]. rewrite sentBetween_addCalls.
    intros Hin Hp Hf. specialize (Hfail rq e Hin Hp Hf). discriminate.
  - intros [= <- <-]. rewrite sentBetween_addCalls.
    intros Hin Hp Hf. specialize (Hfail rq e Hin Hp Hf). discriminate.
Qed.


(** C6, amended: when a patch call of a mutating entry point fails, the
    entry point returns an error: the error of the call, except that
    [Object.Remove] (and the removal step of [Move]) turns a decoded API
    error into object-not-found and [Purge] turns a "not found" message
    into directory-not-found.  For put, put-stream, update, remove, mkdir,
    rmdir, copy, merge-dirs and purge, and for a move or directory move
    whose copy patch failed, no root hash has changed. *)
Theorem patch_failure_aborts (m : Mutation) (w w' : World)
    (o : outcome (option error)) (rq : Request) (e : neterror) :
  runMutation net path_Join m w = (o, w') ->
  In rq (sentBetween w w') ->
  isPatch (call rq) = true ->
  failure rq = Some e ->
  o = Done (Some (patchErrorReturned m (call rq) e)) /\
  (copiesThenRemoves m = false \/ isAddLink (call rq) = true -> roots w' = roots w).
Proof.
  revert w w' o rq e. change (patchFailureAborts net path_Join m). destruct m.
  - apply Put_patch_failure.
  - apply PutStream_patch_failure.
  - apply Update_patch_failure.
  - apply Remove_patch_failure.
  - apply Mkdir_patch_failure.
  - apply Rmdir_patch_failure.
  - apply Copy_patch_failure.
  - apply Move_patch_failure.
  - apply DirMove_patch_failure.
  - apply MergeDirs_patch_failure.
  - apply Purge_patch_failure.
Qed.

End OperationFacts.

(** ** The registry of shared roots *)

Lemma preserves_ret {A} (a : A) : preservesRegistry (ret a).
Proof. intros w. split; reflexivity. Qed.

Lemma preserves_panic {A} (v : panicValue) : preservesRegistry (@panic A v).
Proof. intros w. split; reflexivity. Qed.

Lemma preserves_bind {A B} (m : M A) (k : A -> M B) :
  preservesRegistry m -> (forall a, preservesRegistry (k a)) ->
  preservesRegistry (bind m k).
Proof.
  intros Hm Hk w. unfold bind. specialize (Hm w).
  destruct (m w) as [[a|v|] w1]; cbn [snd] in *; try exact Hm.
  destruct (Hk a w1) as [E1 E2]. destruct Hm as [E3 E4].
  split; congruence.
Qed.

Lemma preserves_onlySends {A} (m : M A) : onlySends m -> preservesRegistry m.
Proof.
  intros H w. destruct (H w) as (o & sent & E). rewrite E. split; reflexivity.
Qed.

Lemma preserves_getFs fp : preservesRegistry (getFs fp).
Proof. intros w. unfold getFs. destruct (fss w !! fp); split; reflexivity. Qed.

Lemma preserves_getRoot p : preservesRegistry (getRoot p).
Proof.
  intros w. unfold getRoot. destruct p as [a|]; [|split; reflexivity].
  destruct (roots w !! a); split; reflexivity.
Qed.

Lemma preserves_modifyFs fp g : preservesRegistry (modifyFs fp g).
Proof.
  intros w. unfold modifyFs, bind, getFs. destruct (fss w !! fp); split; reflexivity.
Qed.

Lemma preserves_modifyRoot p (g : Root -> Root) :
  (forall r, r_opt (g r) = r_opt r) -> preservesRegistry (modifyRoot p g).
Proof.
  intros Hg w. unfold modifyRoot, bind, getRoot.
  destruct p as [a|]; [|split; reflexivity].
  destruct (roots w !! a) as [r|] eqn:E; [|split; reflexivity].
  split; [reflexivity|]. unfold keysOfRoots. cbn [snd roots World_with_roots].
  rewrite list_fmap_insert, Hg. apply list_insert_id.
  rewrite list_lookup_fmap, E. reflexivity.
Qed.

Lemma preserves_periodicPersist r : preservesRegistry (periodicPersist r).
Proof. intros w. split; reflexivity. Qed.

(** Decompose a computation into steps that preserve the registry; [tac]
    closes the calls that have a lemma of their own. *)
Ltac preserves_with tac :=
  repeat first
    [ tac | apply preserves_ret | apply preserves_panic | assumption
    | apply preserves_getFs | apply preserves_getRoot | apply preserves_modifyFs
    | apply preserves_periodicPersist
    | apply preserves_modifyRoot; intros []; reflexivity
    | match goal with
      | |- preservesRegistry (send ?n ?a ?c) =>
          exact (preserves_onlySends _ (onlySends_send n a c))
      end
    | apply preserves_bind; [|intros ?]
    | match goal with
      | |- preservesRegistry (match ?x with _ => _ end) => destruct x
      | |- preservesRegistry (if ?b then _ else _) => destruct b
      | |- preservesRegistry (let '(_, _) := ?x in _) => destruct x
      end ].

Ltac preserves := preserves_with fail.

Section RegistryFacts.

Variable net : Network.
Variable path_Join : list string -> string.
Variable path_Base : string -> string.
Variable path_Dir : string -> string.

Ltac unfold_all :=
  unfold runMutation, PutStream, Object_Update, Move, Put, Object_Remove, Mkdir, Rmdir,
    Copy, DirMove, MergeDirs, Purge, NewObject, emptyDirHash, checkReadOnly,
    api_Add, api_Ls, api_ObjectStat, api_ObjectPatchAddLink, api_ObjectPatchRmLink,
    api_ObjectNewDir, errorOf.

Lemma mergeLinks_preserves a srcPath links h :
  preservesRegistry (mergeLinks net path_Join a srcPath links h).
Proof.
  revert h. induction links as [|link rest IH]; intros h; cbn [mergeLinks];
    unfold api_ObjectPatchAddLink; preserves_with ltac:(apply IH).
Qed.

Lemma mergeDirs_preserves f srcPath dirs h :
  preservesRegistry (mergeDirs net path_Join f srcPath dirs h).
Proof.
  revert h. induction dirs as [|dir rest IH]; intros h; cbn [mergeDirs];
    unfold api_Ls, api_ObjectPatchRmLink;
    preserves_with ltac:(first [apply mergeLinks_preserves | apply IH]).
Qed.

Lemma runMutation_preserves m : preservesRegistry (runMutation net path_Join m).
Proof.
  destruct m; unfold_all; preserves_with ltac:(apply mergeDirs_preserves).
Qed.

Lemma persist_preserves p : preservesRegistry (persist net p).
Proof.
  unfold persist, updatePersistedHash.
  preserves_with ltac:(apply preserves_onlySends;
    first [ apply updatePin_onlySends | apply persistToMFS_onlySends
          | apply persistToIPNS_onlySends ]).
Qed.

Lemma timerCallback_preserves r : preservesRegistry (timerCallback net r).
Proof. unfold timerCallback. preserves_with ltac:(apply persist_preserves). Qed.


Lemma NewRoot_spec (f : Fs) (w w' : World) (o : outcome (result error nat)) :
  NewRoot net f w = (o, w') ->
  fss w' = fss w /\ cache w' = cache w /\ cacheLocked w' = cacheLocked w /\
  match o with
  | Done (Ok p) =>
      p = length (roots w) /\ exists r, roots w' = roots w ++ [r] /\ r_opt r = opt f
  | _ => roots w' = roots w /\ timers w' = timers w /\ atexit w' = atexit w
  end.
Proof.
  unfold NewRoot, api_IsReadOnly, api_KeyList, api_NameResolve, api_FilesStat,
    allocRoot, periodicPersist, atexit_Register, bind, send, ret.
  split_matches; intros [= <- <-]; cbn.
  all: repeat split; eauto.
Qed.


Lemma stable_ret {A} I (a : A) : stable I (ret a).
Proof. intros w H. exact H. Qed.

Lemma stable_bind {A B} I (m : M A) (k : A -> M B) :
  stable I m -> (forall a, stable I (k a)) -> stable I (bind m k).
Proof.
  intros Hm Hk w H. unfold bind. specialize (Hm w H).
  destruct (m w) as [[a|v|] w1]; cbn [snd] in *; try exact Hm.
  apply Hk. exact Hm.
Qed.

Lemma opened_modifyFs w0 fp o p g :
  (forall f, opt (g f) = opt f /\ ipfsRoot (g f) = ipfsRoot f) ->
  stable (opened w0 fp o p) (modifyFs fp g).
Proof.
  intros Hg w (Hc & Hr & Ht & Ha & f & Hf & Ho & Hp).
  unfold modifyFs, bind, getFs. rewrite Hf. cbn [snd].
  repeat (split; [assumption|]). exists (g f).
  split; [apply list_lookup_insert_eq; eapply lookup_lt_Some; exact Hf|].
  destruct (Hg f) as [-> ->]. split; assumption.
Qed.

Lemma opened_onlySends {A} w0 fp o p (m : M A) :
  onlySends m -> stable (opened w0 fp o p) m.
Proof. intros H w Hw. destruct (H w) as (r & sent & E). rewrite E. exact Hw. Qed.

Lemma NewObject_onlySends fp remote : onlySends (NewObject net path_Join fp remote).
Proof. unfold NewObject, api_ObjectStat, api_Ls. only_sends. Qed.

Lemma checkRootIsFile_opened w0 fp o p root :
  stable (opened w0 fp o p) (checkRootIsFile net path_Join path_Base path_Dir fp root).
Proof.
  unfold checkRootIsFile.
  repeat first
    [ apply stable_ret
    | apply opened_modifyFs; intros []; split; reflexivity
    | apply opened_onlySends, NewObject_onlySends
    | apply stable_bind; [|intros ?]
    | match goal with
      | |- stable _ (match ?x with _ => _ end) => destruct x
      | |- stable _ (if ?b then _ else _) => destruct b
      end ].
Qed.

Lemma checkRootIsFile_returns fp root w fp' err w' :
  checkRootIsFile net path_Join path_Base path_Dir fp root w = (Done (Some fp', err), w') ->
  fp' = fp.
Proof.
  unfold checkRootIsFile, modifyFs, getFs, bind, ret.
  split_matches; intros [= <- <-]; try reflexivity; discriminate.
Qed.

Lemma cacheInv_alloc (w : World) (r : Root) (k : Options) :
  cacheInv w -> r_opt r = k ->
  forall w', cache w' = <[k := length (roots w)]> (cache w) ->
             roots w' = roots w ++ [r] -> cacheInv w'.
Proof.
  intros Hinv Hk w' Hc Hr k' a. unfold keysOfRoots. rewrite Hc, Hr, fmap_app.
  destruct (decide (k = k')) as [<-|Hne].
  - rewrite lookup_insert_eq. intros [= <-].
    rewrite <- (length_fmap r_opt (roots w)).
    change (r_opt <$> [r]) with [r_opt r].
    rewrite list_lookup_middle by reflexivity. congruence.
  - rewrite lookup_insert_ne by exact Hne. intros H.
    apply Hinv in H. unfold keysOfRoots in H.
    rewrite lookup_app_l by (eapply lookup_lt_Some; exact H). exact H.
Qed.

Lemma lookupSharedRoot_spec (f : Fs) (w w' : World) (o : outcome (result error nat)) :
  cacheInv w ->
  lookupSharedRoot net f w = (o, w') ->
  fss w' = fss w /\ cacheInv w' /\
  (forall k a, cache w !! k = Some a -> cache w' !! k = Some a) /\
  (forall p, o = Done (Ok p) -> cache w' !! opt f = Some p) /\
  (forall a, cache w !! opt f = Some a ->
     roots w' = roots w /\ timers w' = timers w /\ atexit w' = atexit w).
Proof.
  intros Hinv. unfold lookupSharedRoot, sharedRoot_Lock, cacheLookup, cacheStore,
    bind at 1 2, ret.
  destruct (cacheLocked w).
  { intros [= <- <-]. repeat split; eauto; intros; discriminate. }
  cbn [cache World_with_cacheLocked].
  destruct (cache w !! opt f) as [p|] eqn:Hc.
  { intros [= <- <-]. repeat split; eauto. intros p' [= <-]. exact Hc. }
  unfold bind.
  destruct (NewRoot net f (World_with_cacheLocked true w)) as [o1 w1] eqn:E.
  apply NewRoot_spec in E as (Hf & Hcache & _ & Ho).
  cbn [fss cache roots timers atexit World_with_cacheLocked] in *.
  destruct o1 as [[p|e]|v|]; intros [= <- <-].
  - destruct Ho as (-> & r & Hr & Hk).
    cbn [fss cache roots World_with_cache].
    split; [exact Hf|]. split.
    + apply (cacheInv_alloc w r (opt f) Hinv Hk); [|exact Hr].
      cbn [cache World_with_cache]. rewrite Hcache. reflexivity.
    + split; [|split].
      * intros k a H. rewrite Hcache.
        rewrite lookup_insert_ne; [exact H|]. intros <-. congruence.
      * intros p [= <-]. rewrite lookup_insert_eq. reflexivity.
      * intros a H. discriminate.
  - destruct Ho as (Hr & Ht & Ha).
    split; [exact Hf|]. split.
    + intros k a. unfold keysOfRoots. rewrite Hcache, Hr. apply Hinv.
    + split; [intros k a; rewrite Hcache; auto|]. split; [discriminate|discriminate].
  - destruct Ho as (Hr & Ht & Ha).
    split; [exact Hf|]. split.
    + intros k a. unfold keysOfRoots. rewrite Hcache, Hr. apply Hinv.
    + split; [intros k a; rewrite Hcache; auto|]. split; [discriminate|discriminate].
  - destruct Ho as (Hr & Ht & Ha).
    split; [exact Hf|]. split.
    + intros k a. unfold keysOfRoots. rewrite Hcache, Hr. apply Hinv.
    + split; [intros k a; rewrite Hcache; auto|]. split; [discriminate|discriminate].
Qed.

Lemma NewFs_spec (name root : string) (parsed : result error Options) (w w' : World)
    (o : outcome (option nat * option error)) :
  cacheInv w ->
  NewFs net path_Join path_Base path_Dir name root parsed w = (o, w') ->
  cacheInv w' /\
  (forall k a, cache w !! k = Some a -> cache w' !! k = Some a) /\
  (forall fp err, o = Done (Some fp, err) ->
     exists f a, fss w' !! fp = Some f /\ ipfsRoot f = Some a /\
                 cache w' !! opt f = Some a /\
                 forall opt0, parsed = Ok opt0 -> opt f = normalize opt0) /\
  (forall opt0 a, parsed = Ok opt0 -> cache w !! normalize opt0 = Some a ->
     roots w' = roots w /\ timers w' = timers w /\ atexit w' = atexit w).
Proof.
  intros Hinv.
  unfold NewFs, allocFs, getFs, bind at 1 2 3, ret.
  destruct parsed as [opt0|e]; cbv beta.
  2:{ intros [= <- <-]. repeat split; eauto; intros; discriminate. }
  cbn [fss World_with_fss]. rewrite list_lookup_middle by reflexivity.
  set (f := {| name := name; root := root; opt := normalize opt0;
               api := NewApi (Endpoint (normalize opt0)); ipfsRoot := None;
               _emptyDirHash := "" |}).
  set (w1 := World_with_fss (fss w ++ [f]) w).
  destruct (lookupSharedRoot net f w1) as [o1 w2] eqn:E.
  apply lookupSharedRoot_spec in E as (Hfss & Hinv2 & Hsub & Hhit & Hsame);
    [|exact Hinv].
  cbn [cache roots timers atexit fss w1 World_with_fss opt f] in *.
  assert (Hfail : forall x : outcome (option nat * option error),
             (forall fp err, x <> Done (Some fp, err)) ->
             (x, w2) = (o, w') ->
             cacheInv w' /\
             (forall k a, cache w !! k = Some a -> cache w' !! k = Some a) /\
             (forall fp err, o = Done (Some fp, err) ->
                exists f a, fss w' !! fp = Some f /\ ipfsRoot f = Some a /\
                            cache w' !! opt f = Some a /\
                            forall opt1, @Ok error Options opt0 = Ok opt1 -> opt f = normalize opt1) /\
             (forall opt1 a, @Ok error Options opt0 = Ok opt1 -> cache w !! normalize opt1 = Some a ->
                roots w' = roots w /\ timers w' = timers w /\ atexit w' = atexit w)).
  { intros x Hx [= <- <-]. split; [exact Hinv2|]. split; [exact Hsub|].
    split; [intros fp err H; destruct (Hx fp err H)|].
    intros opt1 a [= <-]. apply Hsame. }
  destruct o1 as [[p|e]|v|]; try (apply Hfail; intros; discriminate).
  clear Hfail. specialize (Hhit p eq_refl).
  match goal with
  | |- (let* _ := ?m1 in let* _ := ?m2 in ?m3) w2 = _ -> _ =>
      set (tail := let* _ := m1 in let* _ := m2 in m3)
  end.
  assert (Hopen : opened w2 (length (fss w)) (normalize opt0) p (tail w2).2).
  { assert (H0 : opened w2 (length (fss w)) (normalize opt0) p
                   (modifyFs (length (fss w)) (Fs_with_ipfsRoot (Some p)) w2).2).
    { unfold modifyFs, bind, getFs. rewrite Hfss, list_lookup_middle by reflexivity.
      cbn [snd]. repeat (split; [reflexivity|]). eexists. split.
      - cbn [fss World_with_fss]. rewrite Hfss. apply list_lookup_insert_eq.
        rewrite length_app. cbn. lia.
      - split; reflexivity. }
    unfold tail, bind at 1.
    destruct (modifyFs _ _ w2) as [[[]|v|] w3]; cbn [snd] in *; try exact H0.
    unfold bind, sharedRoot_Unlock.
    apply (checkRootIsFile_opened w2 (length (fss w)) (normalize opt0) p root
             (World_with_cacheLocked false w3)).
    exact H0. }
  intros E. rewrite E in Hopen. cbn [snd] in Hopen.
  destruct Hopen as (Hc & Hr & Ht & Ha & f' & Hf' & Ho' & Hp').
  split; [intros k a; unfold keysOfRoots; rewrite Hc, Hr; apply Hinv2|].
  split; [intros k a H; rewrite Hc; auto|].
  split.
  - intros fp err ->.
    assert (fp = length (fss w)) as ->.
    { unfold tail, bind at 1 in E.
      destruct (modifyFs _ _ w2) as [[[]|v|] w3]; try discriminate.
      unfold bind, sharedRoot_Unlock in E.
      apply checkRootIsFile_returns in E. exact E. }
    exists f', p. rewrite Hc, Ho'. repeat split; try assumption.
    intros opt1 [= <-]. reflexivity.
  - intros opt1 a [= <-] H. rewrite Hr, Ht, Ha. apply (Hsame a). exact H.
Qed.

Lemma cacheInv_empty : cacheInv emptyWorld.
Proof. intros k a H. cbn in H. rewrite lookup_empty in H. discriminate. Qed.

Lemma preserved_cacheInv {A} (m : M A) (w : World) :
  preservesRegistry m -> cacheInv w ->
  cacheInv (m w).2 /\ (forall k a, cache w !! k = Some a -> cache (m w).2 !! k = Some a).
Proof.
  intros Hm Hinv. destruct (Hm w) as [Hc Hk]. split.
  - intros k a. rewrite Hc, Hk. apply Hinv.
  - intros k a. rewrite Hc. auto.
Qed.

Lemma step_cacheInv (w w' : World) :
  step net path_Join path_Base path_Dir w w' -> cacheInv w ->
  cacheInv w' /\ (forall k a, cache w !! k = Some a -> cache w' !! k = Some a).
Proof.
  intros Hstep Hinv. destruct Hstep as [nm rt parsed w|m w|p w|r w].
  - destruct (NewFs _ _ _ _ nm rt parsed w) as [o w'] eqn:E.
    apply NewFs_spec in E as (H1 & H2 & _); [|exact Hinv]. split; assumption.
  - apply preserved_cacheInv; [apply runMutation_preserves|exact Hinv].
  - apply preserved_cacheInv; [apply persist_preserves|exact Hinv].
  - apply preserved_cacheInv; [apply timerCallback_preserves|exact Hinv].
Qed.

Lemma steps_cacheInv (w w' : World) :
  rtc (step net path_Join path_Base path_Dir) w w' -> cacheInv w ->
  cacheInv w' /\ (forall k a, cache w !! k = Some a -> cache w' !! k = Some a).
Proof.
  induction 1 as [w|w w1 w2 Hstep _ IH]; intros Hinv.
  - split; auto.
  - destruct (step_cacheInv w w1 Hstep Hinv) as [Hinv1 Hsub1].
    destruct (IH Hinv1) as [Hinv2 Hsub2]. split; auto.
Qed.

Lemma normalize_eq (o1 o2 : Options) :
  normalize o1 = normalize o2 <->
  removeTrailingSlash (Endpoint o1) = removeTrailingSlash (Endpoint o2) /\
  IpfsRoot o1 = IpfsRoot o2 /\ UpdatePeriod o1 = UpdatePeriod o2.
Proof.
  unfold normalize. split.
  - intros [= H1 H2 H3]. auto.
  - intros (-> & -> & ->). reflexivity.
Qed.

Lemma normalize_plain (o : Options) : HasPrefix (Endpoint o) "/" = false -> normalize o = o.
Proof.
  intros H. unfold normalize, removeTrailingSlash. rewrite H. destruct o; reflexivity.
Qed.

(** C9, amended: of two filesystems opened one after the other with the
    options [o1] and [o2], with any calls of the process before and in
    between, both point at the same root exactly when the options agree
    once [NewFs] has taken a slash off the front of the endpoint: the
    endpoints agree after that, and the root paths and the update periods
    are equal.  So equal options give the same root, and when no endpoint
    starts with a slash, different options give different roots.  The
    cache maps the options of each, so normalized, to its root, and
    opening a filesystem for options that agree with known ones makes no
    root, arms no timer and registers no exit hook. *)
Theorem shared_root_per_configuration
    (w0 w1 w2 w3 : World)
    (name1 root1 : string) (o1 : Options)
    (name2 root2 : string) (o2 : Options)
    (fp1 fp2 : nat) (err1 err2 : option error) (f1 f2 : Fs) :
  let agree :=
    removeTrailingSlash (Endpoint o1) = removeTrailingSlash (Endpoint o2) /\
    IpfsRoot o1 = IpfsRoot o2 /\ UpdatePeriod o1 = UpdatePeriod o2 in
  rtc (step net path_Join path_Base path_Dir) emptyWorld w0 ->
  NewFs net path_Join path_Base path_Dir name1 root1 (Ok o1) w0
    = (Done (Some fp1, err1), w1) ->
  fss w1 !! fp1 = Some f1 ->
  rtc (step net path_Join path_Base path_Dir) w1 w2 ->
  NewFs net path_Join path_Base path_Dir name2 root2 (Ok o2) w2
    = (Done (Some fp2, err2), w3) ->
  fss w3 !! fp2 = Some f2 ->
  (exists a1 a2, ipfsRoot f1 = Some a1 /\ ipfsRoot f2 = Some a2 /\
                 (a1 = a2 <-> agree) /\
                 cache w3 !! normalize o1 = Some a1 /\
                 cache w3 !! normalize o2 = Some a2) /\
  (o1 = o2 -> ipfsRoot f1 = ipfsRoot f2) /\
  (HasPrefix (Endpoint o1) "/" = false -> HasPrefix (Endpoint o2) "/" = false ->
   o1 <> o2 -> ipfsRoot f1 <> ipfsRoot f2) /\
  (agree -> roots w3 = roots w2 /\ timers w3 = timers w2 /\ atexit w3 = atexit w2).
Proof.
  intros agree Hreach0 Hnew1 Hf1 Hreach Hnew2 Hf2.
  destruct (steps_cacheInv _ _ Hreach0 cacheInv_empty) as [Hinv0 _].
  destruct (NewFs_spec _ _ _ _ _ _ Hinv0 Hnew1) as (Hinv1 & _ & Hgot1 & _).
  destruct (Hgot1 fp1 err1 eq_refl) as (f1' & a1 & Hf1' & Hp1 & Hc1 & Hopt1).
  rewrite Hf1 in Hf1'. injection Hf1' as <-.
  destruct (steps_cacheInv _ _ Hreach Hinv1) as [Hinv2 Hsub12].
  destruct (NewFs_spec _ _ _ _ _ _ Hinv2 Hnew2) as (Hinv3 & Hsub23 & Hgot2 & Hhit).
  destruct (Hgot2 fp2 err2 eq_refl) as (f2' & a2 & Hf2' & Hp2 & Hc2 & Hopt2).
  rewrite Hf2 in Hf2'. injection Hf2' as <-.
  specialize (Hopt1 o1 eq_refl). specialize (Hopt2 o2 eq_refl).
  rewrite Hopt1 in Hc1. rewrite Hopt2 in Hc2.
  assert (Hc1' : cache w3 !! normalize o1 = Some a1) by auto.
  assert (Hiff : a1 = a2 <-> agree).
  { unfold agree. rewrite <- normalize_eq. split.
    - intros <-. apply Hinv3 in Hc1'. apply Hinv3 in Hc2. congruence.
    - intros E. rewrite E in Hc1'. congruence. }
  split; [|split; [|split]].
  - exists a1, a2. split; [exact Hp1|]. split; [exact Hp2|]. split; [exact Hiff|].
    split; assumption.
  - intros ->. rewrite Hp1, Hp2. f_equal. apply Hiff. repeat split.
  - intros Hs1 Hs2 Hne E. apply Hne.
    rewrite <- (normalize_plain o1 Hs1), <- (normalize_plain o2 Hs2).
    apply normalize_eq. apply Hiff. congruence.
  - intros E. apply (Hhit o2 a1 eq_refl).
    apply normalize_eq in E. rewrite <- E. apply Hsub12. exact Hc1.
Qed.
End RegistryFacts.

(** ** The theorems at work *)

(** C1 on [conflictNet]: the process changed [a/b], someone else changed
    [a/b/c]. *)
Lemma persistToMFS_conflict_witness :
  conflictNet [] ep (FilesStat "/") = Ok {| Hash := "Hext" |} /\
  "Hext" <> "H0" /\
  In "a/b" (listChangedPath [changed "a/b" (Some "Qmb")]) /\
  In "a/b/c" (listChangedPath [changed "a/b/c" None]) /\
  persistToMFS conflictNet (NewApi ep) "H0" "H1" emptyWorld
  = (Done (Some mfsConflict),
     addCalls
       [ {| to := ep; call := FilesStat "/"; failure := None |};
         {| to := ep; call := ObjectDiff_ "H0" "H1"; failure := None |};
         {| to := ep; call := ObjectDiff_ "Hext" "H0"; failure := None |} ]
       emptyWorld).
Proof.
  assert (H1 : conflictNet (calls emptyWorld) (srv (NewApi ep)) (FilesStat "/")
               = Ok {| Hash := "Hext" |}) by reflexivity.
  assert (H2 : Hash {| Hash := "Hext" |} <> "H0") by discriminate.
  assert (H3 : In "a/b" (listChangedPath (Changes {| Changes := [changed "a/b" (Some "Qmb")] |})))
    by (simpl; left; reflexivity).
  assert (H4 : In "a/b/c" (listChangedPath (Changes {| Changes := [changed "a/b/c" None] |})))
    by (simpl; left; reflexivity).
  split; [exact H1|]. split; [exact H2|]. split; [exact H3|]. split; [exact H4|].
  refine (proj1 (persistToMFS_conflict conflictNet (NewApi ep) "H0" "H1" emptyWorld
                   {| Hash := "Hext" |}
                   {| Changes := [changed "a/b" (Some "Qmb")] |}
                   {| Changes := [changed "a/b/c" None] |}
                   "a/b" "a/b/c" H1 H2 _ _ H3 H4 _)).
  - reflexivity.
  - reflexivity.
  - right. exists "/c". reflexivity.
Defined.

(** C4 on [republishedNet]. *)
Lemma persistToIPNS_conflict_witness :
  republishedNet [] ep (NameResolve "/ipns/QmKey") = Ok {| hp_Path := "/ipfs/Hother" |} /\
  (path_Split "/ipfs/Hother").2 <> "H0" /\
  persistToIPNS republishedNet (NewApi ep) "H0" "H1" "/ipns/QmKey" "self" emptyWorld
  = (Done (Some ipnsConflict),
     addCalls [ {| to := ep; call := NameResolve "/ipns/QmKey"; failure := None |} ]
       emptyWorld).
Proof.
  assert (H1 : republishedNet (calls emptyWorld) (srv (NewApi ep)) (NameResolve "/ipns/QmKey")
               = Ok {| hp_Path := "/ipfs/Hother" |}) by reflexivity.
  assert (H2 : (path_Split (hp_Path {| hp_Path := "/ipfs/Hother" |})).2 <> "H0")
    by discriminate.
  split; [exact H1|]. split; [exact H2|].
  exact (proj1 (persistToIPNS_conflict republishedNet (NewApi ep)
                  "H0" "H1" "/ipns/QmKey" "self" emptyWorld)
           {| hp_Path := "/ipfs/Hother" |} H1 H2).
Defined.

(** With the name still at the last persisted hash, the new hash is
    published. *)
Example persistToIPNS_publishes :
  persistToIPNS republishedNet (NewApi ep) "Hother" "H1" "/ipns/QmKey" "self" emptyWorld
  = (Done None,
     addCalls [ {| to := ep; call := NameResolve "/ipns/QmKey"; failure := None |};
                {| to := ep; call := NamePublish "H1" "self"; failure := None |} ]
       emptyWorld).
Proof. reflexivity. Qed.

(** C3 on [conflictNet], where the old hash is not pinned: the persist
    goes on to the write-back. *)
Lemma persist_pin_reconciliation_witness :
  let root := exampleRoot "H0" "H1" false in
  let w := exampleWorld root in
  roots w !! 0 = Some root /\
  hash root <> lastPersistedHash root /\
  persist conflictNet (Some 0) w
  = updatePersistedHash conflictNet (Some 0) root (afterPinSwap w).
Proof.
  cbv zeta.
  assert (H1 : roots (exampleWorld (exampleRoot "H0" "H1" false)) !! 0
               = Some (exampleRoot "H0" "H1" false)) by reflexivity.
  assert (H2 : hash (exampleRoot "H0" "H1" false)
               <> lastPersistedHash (exampleRoot "H0" "H1" false)) by discriminate.
  split; [exact H1|]. split; [exact H2|].
  exact (persist_pin_reconciliation conflictNet 0 (exampleRoot "H0" "H1" false)
           (exampleWorld (exampleRoot "H0" "H1" false)) H1 H2).
Defined.

(** A pin failure of another kind is fatal, and nothing is retried. *)
Example persist_pin_failure :
  let w := exampleWorld (exampleRoot "H0" "H1" false) in
  persist unreachableNet (Some 0) w
  = (Panicked (PanicError (pinError timeout)),
     addCalls [ {| to := ep; call := PinAdd "H1" true; failure := Some timeout |} ] w).
Proof. reflexivity. Qed.

(** C2 on a root that has nothing to persist. *)
Lemma persist_idempotent_witness :
  let root := exampleRoot "H1" "H1" false in
  let w := exampleWorld root in
  roots w !! 0 = Some root /\
  hash root = lastPersistedHash root /\
  persist conflictNet (Some 0) w = (Done tt, w).
Proof.
  cbv zeta.
  assert (H1 : roots (exampleWorld (exampleRoot "H1" "H1" false)) !! 0
               = Some (exampleRoot "H1" "H1" false)) by reflexivity.
  assert (H2 : hash (exampleRoot "H1" "H1" false)
               = lastPersistedHash (exampleRoot "H1" "H1" false)) by reflexivity.
  split; [exact H1|]. split; [exact H2|].
  exact (proj1 (persist_idempotent conflictNet (Some 0)
                  (exampleWorld (exampleRoot "H1" "H1" false)))
           0 (exampleRoot "H1" "H1" false) eq_refl H1 H2).
Defined.

(** A persist that writes back, then a second one: the second sends
    nothing. *)
Example persist_twice :
  let w := exampleWorld (ipnsRoot "Hother" "H1") in
  let once := persist republishedNet (Some 0) w in
  once.1 = Done tt /\ length (sentBetween w once.2) = 4 /\
  persist republishedNet (Some 0) once.2 = (Done tt, once.2).
Proof. cbv zeta. split; [reflexivity|]. split; reflexivity. Qed.

(** The conflict of [conflictNet], seen from [persist]. *)
Lemma conflict_example_detected :
  let root := exampleRoot "H0" "H1" false in
  let w := exampleWorld root in
  roots w !! 0 = Some root /\
  hash root <> lastPersistedHash root /\
  updatePin conflictNet (r_api root) (lastPersistedHash root) (hash root) w
  = (Done None, afterPinSwap w) /\
  conflictDetected conflictNet root (afterPinSwap w) mfsConflict (afterConflict w).
Proof.
  cbv zeta. split; [reflexivity|]. split; [discriminate|]. split; [reflexivity|].
  left. split; [reflexivity|]. split; reflexivity.
Qed.

Lemma persist_conflict_aftermath_witness :
  let root := exampleRoot "H0" "H1" false in
  let w := exampleWorld root in
  (roots w !! 0 = Some root /\
   hash root <> lastPersistedHash root /\
   updatePin conflictNet (r_api root) (lastPersistedHash root) (hash root) w
   = (Done None, afterPinSwap w) /\
   conflictDetected conflictNet root (afterPinSwap w) mfsConflict (afterConflict w)) /\
  persist conflictNet (Some 0) w = (Panicked (PanicError mfsConflict), afterConflict w) /\
  roots (afterConflict w) = roots w /\
  timerCallback conflictNet 0 w = (Panicked (PanicError mfsConflict), afterConflict w) /\
  timers (afterConflict w) = timers w.
Proof.
  cbv zeta. split; [exact conflict_example_detected|].
  destruct conflict_example_detected as (H1 & H2 & H3 & H4).
  destruct (persist_conflict_aftermath conflictNet 0 _ _ _ _ _ H1 H2 H3 H4)
    as (Hp & Hr & _ & _ & Ht & Htimers).
  split; [exact Hp|]. split; [exact Hr|]. split; [exact Ht|exact Htimers].
Defined.

(** C8, as stated, is false on [conflictNet]: when the conflict is found
    the new hash has been pinned and the old one unpinned, so the attempt
    is applied in part; and the timer's function, ended by the panic, has
    armed no timer for a next cycle. *)
Lemma persist_conflict_partially_applied :
  ~ (forall (net : Network) (a : nat) (root : Root) (w w2 w3 : World) (e : error),
       roots w !! a = Some root ->
       hash root <> lastPersistedHash root ->
       updatePin net (r_api root) (lastPersistedHash root) (hash root) w = (Done None, w2) ->
       conflictDetected net root w2 e w3 ->
       Forall (fun rq => isWrite (call rq) = false) (sentBetween w w3))
  /\
  ~ (forall (net : Network) (a : nat) (root : Root) (w w2 w3 : World) (e : error),
       roots w !! a = Some root ->
       hash root <> lastPersistedHash root ->
       updatePin net (r_api root) (lastPersistedHash root) (hash root) w = (Done None, w2) ->
       conflictDetected net root w2 e w3 ->
       timers (timerCallback net a w).2 = timers w ++ [a]).
Proof.
  destruct conflict_example_detected as (H1 & H2 & H3 & H4).
  split; intros H; specialize (H conflictNet 0 _ _ _ _ _ H1 H2 H3 H4).
  - apply Forall_inv in H. discriminate H.
  - discriminate H.
Qed.

(** C7 on a read-only root. *)
Lemma readOnly_fails_fast_witness :
  let w := exampleWorld (exampleRoot "H1" "H1" true) in
  fss w !! receiver (MPut 0 "hello" "a.txt") = Some exampleFs /\
  ipfsRoot exampleFs = Some 0 /\
  roots w !! 0 = Some (exampleRoot "H1" "H1" true) /\
  isReadOnly (exampleRoot "H1" "H1" true) = true /\
  runMutation flakyNet simpleJoin (MPut 0 "hello" "a.txt") w
  = (Done (Some (readOnlyError exampleFs)), w).
Proof.
  cbv zeta.
  assert (H1 : fss (exampleWorld (exampleRoot "H1" "H1" true))
               !! receiver (MPut 0 "hello" "a.txt") = Some exampleFs) by reflexivity.
  assert (H2 : ipfsRoot exampleFs = Some 0) by reflexivity.
  assert (H3 : roots (exampleWorld (exampleRoot "H1" "H1" true)) !! 0
               = Some (exampleRoot "H1" "H1" true)) by reflexivity.
  assert (H4 : isReadOnly (exampleRoot "H1" "H1" true) = true) by reflexivity.
  repeat (split; [assumption|]).
  exact (readOnly_fails_fast flakyNet simpleJoin _ _ _ _ _ H1 H2 H3 H4).
Defined.


Example Mkdir_existing_errors :
  (Mkdir treeNet simpleJoin 0 "docs" (exampleWorld (exampleRoot "H1" "H1" true))).1
  = Done (Some (readOnlyError exampleFs)) /\
  (Mkdir treeNet simpleJoin 0 "docs" treeWorld).1 = Done (Some (Remote timeout)).
Proof. split; vm_compute; reflexivity. Qed.


(** C6, amended, on [flakyNet]: the patch of a Mkdir times out. *)
Lemma patch_failure_aborts_witness :
  let w := exampleWorld (exampleRoot "H1" "H1" false) in
  let run := runMutation flakyNet simpleJoin (MMkdir 0 "new") w in
  In failedAddLink (sentBetween w run.2) /\
  run.1 = Done (Some (Remote timeout)) /\ roots run.2 = roots w.
Proof.
  cbv zeta.
  set (w := exampleWorld (exampleRoot "H1" "H1" false)).
  assert (Hin : In failedAddLink
                  (sentBetween w (runMutation flakyNet simpleJoin (MMkdir 0 "new") w).2)).
  { vm_compute. do 2 right. left. reflexivity. }
  split; [exact Hin|].
  destruct (patch_failure_aborts flakyNet simpleJoin (MMkdir 0 "new") w _ _ failedAddLink
              timeout (surjective_pairing _) Hin eq_refl eq_refl) as [Ho Hr].
  split; [exact Ho|]. apply Hr. left. reflexivity.
Defined.

(** C6, as stated, is false: on [flakyNet] a directory move copies, stores
    the hash of the copy, and then fails to remove the source. *)
Lemma DirMove_stores_partial_hash :
  ~ (forall (net : Network) (path_Join : list string -> string) (m : Mutation)
            (w w' : World) (o : outcome (option error)) (rq : Request) (e : neterror),
       runMutation net path_Join m w = (o, w') ->
       In rq (sentBetween w w') ->
       isPatch (call rq) = true ->
       failure rq = Some e ->
       o = Done (Some (Remote e)) /\ roots w' = roots w).
Proof.
  intros H.
  set (w := exampleWorld (exampleRoot "H1" "H1" false)).
  assert (Hin : In failedRmLink
                  (sentBetween w
                     (runMutation flakyNet simpleJoin (MDirMove 0 0 "src" "dst") w).2)).
  { vm_compute. do 3 right. left. reflexivity. }
  destruct (H flakyNet simpleJoin (MDirMove 0 0 "src" "dst") w _ _ failedRmLink timeout
              (surjective_pairing _) Hin eq_refl eq_refl) as [_ Hr].
  vm_compute in Hr. discriminate Hr.
Qed.

Example DirMove_partial_hash :
  let w := exampleWorld (exampleRoot "H1" "H1" false) in
  let run := runMutation flakyNet simpleJoin (MDirMove 0 0 "src" "dst") w in
  run.1 = Done (Some (Remote timeout)) /\
  hash <$> roots w = ["H1"] /\ hash <$> roots run.2 = ["H2"].
Proof. vm_compute. repeat split. Qed.

Lemma fourthOpen_after_first : rtc (step mfsNet simpleJoin id id) firstOpen.2 thirdOpen.2.
Proof.
  eapply rtc_l; [exact (step_NewFs _ _ _ _ "other" "" (Ok localOptions) firstOpen.2)|].
  eapply rtc_l; [exact (step_NewFs _ _ _ _ "snapshot" "" (Ok snapshotOptions) secondOpen.2)|].
  apply rtc_refl.
Qed.

(** C9, as stated, is false: the options with and without a slash in
    front of the endpoint differ, and the filesystems opened with them
    share a root. *)
Lemma slash_endpoint_shares_root :
  ~ (forall (net : Network) (path_Join : list string -> string)
            (path_Base path_Dir : string -> string) (w0 w1 w2 w3 : World)
            (name1 root1 : string) (o1 : Options) (name2 root2 : string) (o2 : Options)
            (fp1 fp2 : nat) (err1 err2 : option error) (f1 f2 : Fs),
       rtc (step net path_Join path_Base path_Dir) emptyWorld w0 ->
       NewFs net path_Join path_Base path_Dir name1 root1 (Ok o1) w0
         = (Done (Some fp1, err1), w1) ->
       fss w1 !! fp1 = Some f1 ->
       rtc (step net path_Join path_Base path_Dir) w1 w2 ->
       NewFs net path_Join path_Base path_Dir name2 root2 (Ok o2) w2
         = (Done (Some fp2, err2), w3) ->
       fss w3 !! fp2 = Some f2 ->
       o1 <> o2 -> ipfsRoot f1 <> ipfsRoot f2).
Proof.
  intros H.
  assert (H1 : firstOpen = (Done (Some 0, None), firstOpen.2)) by (vm_compute; reflexivity).
  assert (H4 : fourthOpen = (Done (Some 3, None), fourthOpen.2)) by (vm_compute; reflexivity).
  destruct (fss firstOpen.2 !! 0) as [f1|] eqn:Hf1; [|vm_compute in Hf1; discriminate].
  destruct (fss fourthOpen.2 !! 3) as [f2|] eqn:Hf2; [|vm_compute in Hf2; discriminate].
  apply (H mfsNet simpleJoin id id emptyWorld firstOpen.2 thirdOpen.2 fourthOpen.2
           "remote" "" localOptions "slash" "" slashOptions 0 3 None None f1 f2
           (rtc_refl _ _) H1 Hf1 fourthOpen_after_first H4 Hf2).
  - discriminate.
  - vm_compute in Hf1, Hf2. injection Hf1 as <-. injection Hf2 as <-. reflexivity.
Qed.

(** C9, amended, on [mfsNet]: two filesystems with the same options share
    root 0. *)
Lemma shared_root_witness :
  firstOpen.1 = Done (Some 0, None) /\
  secondOpen.1 = Done (Some 1, None) /\
  (exists f1 f2, fss firstOpen.2 !! 0 = Some f1 /\ fss secondOpen.2 !! 1 = Some f2 /\
     ipfsRoot f1 = Some 0 /\ ipfsRoot f2 = Some 0) /\
  roots secondOpen.2 = roots firstOpen.2 /\ timers secondOpen.2 = [0].
Proof.
  assert (H1 : firstOpen = (Done (Some 0, None), firstOpen.2)) by (vm_compute; reflexivity).
  assert (H2 : secondOpen = (Done (Some 1, None), secondOpen.2)) by (vm_compute; reflexivity).
  destruct (fss firstOpen.2 !! 0) as [f1|] eqn:Hf1; [|vm_compute in Hf1; discriminate].
  destruct (fss secondOpen.2 !! 1) as [f2|] eqn:Hf2; [|vm_compute in Hf2; discriminate].
  destruct (shared_root_per_configuration mfsNet simpleJoin id id
              emptyWorld firstOpen.2 firstOpen.2 secondOpen.2
              "remote" "" localOptions "other" "" localOptions
              0 1 None None f1 f2 (rtc_refl _ _) H1 Hf1 (rtc_refl _ _) H2 Hf2)
    as (_ & Hshare & _ & Hsame).
  split; [rewrite H1; reflexivity|]. split; [rewrite H2; reflexivity|].
  destruct (Hsame (conj eq_refl (conj eq_refl eq_refl))) as (Hr & Ht & _).
  split.
  - exists f1, f2. split; [reflexivity|]. split; [reflexivity|].
    rewrite <- (Hshare eq_refl).
    vm_compute in Hf1. injection Hf1 as <-. split; reflexivity.
  - split; [exact Hr|]. rewrite Ht. vm_compute. reflexivity.
Defined.

(** Options that differ get another root, and a slash in front of the
    endpoint is not a difference: [NewFs] strips it before it looks the
    options up. *)
Example other_options_other_root :
  thirdOpen.1 = Done (Some 2, None) /\
  fourthOpen.1 = Done (Some 3, None) /\
  ipfsRoot <$> fss fourthOpen.2 = [Some 0; Some 0; Some 1; Some 0] /\
  isReadOnly <$> roots fourthOpen.2 = [false; true] /\
  timers fourthOpen.2 = [0].
Proof. vm_compute. repeat split. Qed.

(** [NewFs] returns from a failed [NewRoot] with the lock of the cache
    held: the next [NewFs] waits for it. *)
Example NewFs_after_failure_blocks :
  failedOpen.1 = Done (None, Some (Remote timeout)) /\
  cacheLocked failedOpen.2 = true /\
  openAfterFailure.1 = Blocked.
Proof. vm_compute. repeat split. Qed.

(** * More of the backend *)

(** ** Views that calls keep *)

Lemma view_ret {A B} (v : World -> B) (a : A) : keepsView v (ret a).
Proof. intros w. reflexivity. Qed.

Lemma view_panic {A B} (v : World -> B) (x : panicValue) : keepsView v (@panic A x).
Proof. intros w. reflexivity. Qed.

Lemma view_bind {A B C} (v : World -> C) (m : M A) (k : A -> M B) :
  keepsView v m -> (forall a, keepsView v (k a)) -> keepsView v (bind m k).
Proof.
  intros Hm Hk w. unfold bind. specialize (Hm w).
  destruct (m w) as [[a|x|] w1]; cbn [snd] in *; try exact Hm.
  rewrite (Hk a w1). exact Hm.
Qed.

Lemma view_onlySends {A B} (v : World -> B) (m : M A) :
  stateView v -> onlySends m -> keepsView v m.
Proof.
  intros [Hv _] H w. destruct (H w) as (o & sent & E). rewrite E. apply Hv.
Qed.

Lemma view_modifyFs {B} (v : World -> B) fp g : stateView v -> keepsView v (modifyFs fp g).
Proof.
  intros [_ Hv] w. unfold modifyFs, bind, getFs.
  destruct (fss w !! fp); [apply Hv|reflexivity].
Qed.

Lemma view_modifyRoot {B} (v : World -> B) p (g : Root -> Root) :
  blindTo v g -> keepsView v (modifyRoot p g).
Proof.
  intros Hg w. unfold modifyRoot, bind, getRoot.
  destruct p as [a|]; [|reflexivity].
  destruct (roots w !! a) as [r|] eqn:E; [|reflexivity].
  apply Hg. exact E.
Qed.

(** A view of the fields of the roots that [g] does not change. *)
Lemma blindTo_fields {B} (f : Root -> B) (g : Root -> Root) :
  (forall r, f (g r) = f r) -> blindTo (fun w => f <$> roots w) g.
Proof.
  intros Hg a r w E. cbn [roots World_with_roots].
  rewrite list_fmap_insert, Hg. apply list_insert_id.
  rewrite list_lookup_fmap, E. reflexivity.
Qed.

Lemma stateView_fields {B} (f : Root -> B) : stateView (fun w => f <$> roots w).
Proof. split; reflexivity. Qed.

Lemma stateView_hooks : stateView (fun w => (timers w, atexit w)).
Proof. split; reflexivity. Qed.

Lemma blindTo_hooks (g : Root -> Root) : blindTo (fun w => (timers w, atexit w)) g.
Proof. intros a r w _. reflexivity. Qed.

Ltac keeps_with Hstate Hhash Hlast tac :=
  repeat first
    [ tac | apply view_ret | apply view_panic | assumption
    | apply (view_onlySends _ _ Hstate), onlySends_getFs
    | apply (view_onlySends _ _ Hstate), onlySends_getRoot
    | apply (view_modifyFs _ _ _ Hstate)
    | apply view_modifyRoot; first [apply Hhash | apply Hlast]
    | match goal with
      | |- keepsView _ (send ?n ?a ?c) =>
          exact (view_onlySends _ _ Hstate (onlySends_send n a c))
      end
    | apply view_bind; [|intros ?]
    | match goal with
      | |- keepsView _ (match ?x with _ => _ end) => destruct x
      | |- keepsView _ (if ?b then _ else _) => destruct b
      end ].

(** A root that is not read-only is not the root at another address that
    is. *)
Lemma insert_keeps_readOnly (l : list Root) (n a : nat) (r new ra : Root) :
  l !! n = Some r -> isReadOnly r = false ->
  l !! a = Some ra -> isReadOnly ra = true ->
  <[n := new]> l !! a = Some ra.
Proof.
  intros Hn Hr Ha Hra. rewrite list_lookup_insert_ne; [exact Ha|].
  intros ->. congruence.
Qed.

Section MoreFacts.

Variable net : Network.
Variable path_Join : list string -> string.
Variable path_Base : string -> string.
Variable path_Dir : string -> string.

Section Views.
Context {B : Type} (v : World -> B).
Hypothesis Hstate : stateView v.
Hypothesis Hhash : forall h, blindTo v (Root_with_hash h).

Lemma mergeLinks_view a srcPath links h :
  keepsView v (mergeLinks net path_Join a srcPath links h).
Proof using Hstate.
  revert h. induction links as [|link rest IH]; intros h; cbn [mergeLinks];
    unfold api_ObjectPatchAddLink; keeps_with Hstate Hhash Hhash ltac:(apply IH).
Qed.

Lemma mergeDirs_view f srcPath dirs h :
  keepsView v (mergeDirs net path_Join f srcPath dirs h).
Proof using Hstate.
  revert h. induction dirs as [|dir rest IH]; intros h; cbn [mergeDirs];
    unfold api_Ls, api_ObjectPatchRmLink;
    keeps_with Hstate Hhash Hhash ltac:(first [apply mergeLinks_view | apply IH]).
Qed.

(** A mutating entry point changes nothing but the log, the empty
    directory hash an [Fs] remembers, and the hash of roots. *)
Lemma runMutation_view m : keepsView v (runMutation net path_Join m).
Proof using Hstate Hhash.
  destruct m;
    unfold runMutation, PutStream, Object_Update, Move, Put, Object_Remove, Mkdir, Rmdir,
      Copy, DirMove, MergeDirs, Purge, NewObject, emptyDirHash, checkReadOnly,
      api_Add, api_Ls, api_ObjectStat, api_ObjectPatchAddLink, api_ObjectPatchRmLink,
      api_ObjectNewDir, errorOf;
    keeps_with Hstate Hhash Hhash ltac:(apply mergeDirs_view).
Qed.
End Views.

Section PersistViews.
Context {B : Type} (v : World -> B).
Hypothesis Hstate : stateView v.
Hypothesis Hlast : blindTo v (fun root => Root_with_lastPersistedHash (hash root) root).

Lemma persist_view p : keepsView v (persist net p).
Proof using Hstate Hlast.
  unfold persist, updatePersistedHash.
  keeps_with Hstate Hlast Hlast ltac:(apply (view_onlySends _ _ Hstate);
    first [ apply updatePin_onlySends | apply persistToMFS_onlySends
          | apply persistToIPNS_onlySends ]).
Qed.
End PersistViews.

(** X1: a mutating entry point changes no root's last persisted hash and no
    root's mode (client, options, IPNS name and key, MFS flag, read-only
    flag), arms no timer and registers no exit hook, whatever it is called
    with and however it ends. *)
Theorem mutation_keeps_persisted (m : Mutation) (w : World) :
  let w' := (runMutation net path_Join m w).2 in
  (fun r => (lastPersistedHash r, rootMode r)) <$> roots w'
  = (fun r => (lastPersistedHash r, rootMode r)) <$> roots w
  /\ timers w' = timers w /\ atexit w' = atexit w.
Proof.
  cbv zeta. split.
  - apply (runMutation_view (fun w => (fun r => (lastPersistedHash r, rootMode r)) <$> roots w)).
    + apply stateView_fields.
    + intros h. apply blindTo_fields. intros []; reflexivity.
  - pose proof (runMutation_view (fun w => (timers w, atexit w)) stateView_hooks
                  (fun h => blindTo_hooks _) m w) as H.
    cbv beta in H. split; congruence.
Qed.

(** X2: a persist changes no root's hash and no root's mode, and leaves the
    timers, the exit hooks and the cache of shared roots alone: all it can
    change in the process is the log and one last persisted hash. *)
Theorem persist_keeps_hash (p : RootPtr) (w : World) :
  let w' := (persist net p w).2 in
  (fun r => (hash r, rootMode r)) <$> roots w' = (fun r => (hash r, rootMode r)) <$> roots w
  /\ timers w' = timers w /\ atexit w' = atexit w /\ cache w' = cache w.
Proof.
  cbv zeta. split.
  - apply (persist_view (fun w => (fun r => (hash r, rootMode r)) <$> roots w)).
    + apply stateView_fields.
    + apply (blindTo_fields (fun r => (hash r, rootMode r))
               (fun root => Root_with_lastPersistedHash (hash root) root)).
      intros []; reflexivity.
  - assert (H : (fun w => (timers w, atexit w, cache w)) (persist net p w).2
                = (timers w, atexit w, cache w)).
    { apply (persist_view (fun w => (timers w, atexit w, cache w))).
      - split; reflexivity.
      - intros a r w0 _. reflexivity. }
    cbv beta in H. repeat split; congruence.
Qed.

(** The roots after a persist: as before, or with the last persisted hash
    of the persisted root advanced to its hash. *)
Lemma persist_roots (p : RootPtr) (w : World) :
  roots (persist net p w).2 = roots w \/
  exists a r, p = Some a /\ roots w !! a = Some r /\
              (persist net p w).1 = Done tt /\
              roots (persist net p w).2
              = <[a := Root_with_lastPersistedHash (hash r) r]> (roots w).
Proof.
  destruct p as [a|]; [|left; reflexivity].
  destruct (roots w !! a) as [root|] eqn:Hroot.
  2:{ left. unfold persist, bind, getRoot. rewrite Hroot. reflexivity. }
  destruct (String.eqb_spec (hash root) (lastPersistedHash root)) as [Heq|Hne].
  { left. rewrite (persist_noop net a root w Hroot Heq). reflexivity. }
  rewrite (persist_unfold net a root w Hroot Hne).
  destruct (updatePin_onlySends net (r_api root) (lastPersistedHash root) (hash root) w)
    as (o & sent & E).
  rewrite E. destruct o as [[e|]|v|]; try (left; reflexivity).
  destruct (updatePersistedHash net (Some a) root (addCalls sent w)) as [o w'] eqn:E'.
  destruct o as [[]|v|].
  - right. exists a, root.
    apply (updatePersistedHash_done net a root root) in E' as (sent' & ->);
      [|exact Hroot].
    repeat split; try reflexivity. exact Hroot.
  - left. apply updatePersistedHash_failed in E' as [Hr _]; [|discriminate]. exact Hr.
  - left. apply updatePersistedHash_failed in E' as [Hr _]; [|discriminate]. exact Hr.
Qed.

Ltac unfold_entry_points :=
  unfold runMutation, PutStream, Object_Update, Move, Put, Object_Remove, Mkdir, Rmdir,
    Copy, DirMove, Purge, NewObject, emptyDirHash, checkReadOnly,
    modifyFs, modifyRoot, getFs, getRoot,
    api_Add, api_Ls, api_ObjectStat, api_ObjectPatchAddLink, api_ObjectPatchRmLink,
    api_ObjectNewDir, bind, send, ret, panic, errorOf.

Ltac readOnly_by_cases :=
  intros w a ra Ha Hra; unfold_entry_points;
  split_matches;
  cbn [snd roots fss addCalls World_with_calls World_with_roots World_with_fss] in *;
  repeat match goal with
         | H1 : ?x = Some ?u, H2 : ?x = Some ?v |- _ => rewrite H1 in H2
         | H : Some _ = Some _ |- _ => injection H as H; subst
         | H : <[?n := _]> ?l !! ?n = Some _, H0 : ?l !! ?n = Some _ |- _ =>
             rewrite list_lookup_insert_eq in H by (eapply lookup_lt_Some; exact H0)
         end;
  repeat first
    [ assumption
    | eapply insert_keeps_readOnly;
        [ first [ eassumption
                | apply list_lookup_insert_eq; eapply lookup_lt_Some; eassumption ]
        | cbn; eassumption | | exact Hra ] ].

Lemma Put_keeps fp content remote :
  keepsReadOnlyRoots (runMutation net path_Join (MPut fp content remote)).
Proof. readOnly_by_cases. Qed.

Lemma PutStream_keeps fp content remote :
  keepsReadOnlyRoots (runMutation net path_Join (MPutStream fp content remote)).
Proof. readOnly_by_cases. Qed.

Lemma Update_keeps o content remote :
  keepsReadOnlyRoots (runMutation net path_Join (MUpdate o content remote)).
Proof. readOnly_by_cases. Qed.

Lemma Remove_keeps o : keepsReadOnlyRoots (runMutation net path_Join (MRemove o)).
Proof. readOnly_by_cases. Qed.

Lemma Mkdir_keeps fp dir : keepsReadOnlyRoots (runMutation net path_Join (MMkdir fp dir)).
Proof. readOnly_by_cases. Qed.

Lemma Rmdir_keeps fp dir : keepsReadOnlyRoots (runMutation net path_Join (MRmdir fp dir)).
Proof. readOnly_by_cases. Qed.

Lemma Copy_keeps fp src remote :
  keepsReadOnlyRoots (runMutation net path_Join (MCopy fp src remote)).
Proof. readOnly_by_cases. Qed.

Lemma Move_keeps fp src remote :
  keepsReadOnlyRoots (runMutation net path_Join (MMove fp src remote)).
Proof. readOnly_by_cases. Qed.

Lemma DirMove_keeps fp src srcRemote dstRemote :
  keepsReadOnlyRoots (runMutation net path_Join (MDirMove fp src srcRemote dstRemote)).
Proof. readOnly_by_cases. Qed.

Lemma Purge_keeps fp dir : keepsReadOnlyRoots (runMutation net path_Join (MPurge fp dir)).
Proof. readOnly_by_cases. Qed.

Lemma MergeDirs_keeps fp dirs :
  keepsReadOnlyRoots (runMutation net path_Join (MMergeDirs fp dirs)).
Proof.
  intros w a ra Ha Hra.
  unfold runMutation, MergeDirs, checkReadOnly, getFs, getRoot, bind at 1 2 3 4, ret, panic.
  destruct (fss w !! fp) as [f|]; [|exact Ha].
  destruct (ipfsRoot f) as [n|]; [|exact Ha].
  destruct (roots w !! n) as [root|] eqn:Hroot; [|exact Ha].
  destruct (isReadOnly root) eqn:Hro; [exact Ha|].
  destruct dirs as [|firstDirectory rest]; [exact Ha|].
  rewrite Hroot. unfold bind.
  destruct (mergeDirs_run net path_Join f (relativePath path_Join f firstDirectory) rest
              (hash root) w) as (o1 & sent & Hrun & _).
  rewrite Hrun. destruct o1 as [[h|e1]|v|]; try exact Ha.
  unfold modifyRoot, bind, getRoot. cbn [roots addCalls World_with_calls].
  rewrite Hroot. cbn [snd roots World_with_roots addCalls World_with_calls].
  eapply insert_keeps_readOnly; eassumption.
Qed.

Lemma runMutation_keeps (m : Mutation) : keepsReadOnlyRoots (runMutation net path_Join m).
Proof.
  destruct m.
  - apply Put_keeps.
  - apply PutStream_keeps.
  - apply Update_keeps.
  - apply Remove_keeps.
  - apply Mkdir_keeps.
  - apply Rmdir_keeps.
  - apply Copy_keeps.
  - apply Move_keeps.
  - apply DirMove_keeps.
  - apply MergeDirs_keeps.
  - apply Purge_keeps.
Qed.

(** X3: a read-only root is not touched by any mutating entry point, also
    not by one called on a filesystem of another root. *)
Theorem mutation_keeps_readOnly_roots (m : Mutation) (w : World) (a : nat) (r : Root) :
  roots w !! a = Some r ->
  isReadOnly r = true ->
  roots (runMutation net path_Join m w).2 !! a = Some r.
Proof. apply runMutation_keeps. Qed.

Lemma api_IsReadOnly_run (a : Client) (w : World) :
  exists readOnly err,
    api_IsReadOnly net a w
    = (Done (readOnly, err),
       addCalls [{| to := srv a; call := IsReadOnlyProbe;
                    failure := probeErr (net (calls w) (srv a) IsReadOnlyProbe) |}] w).
Proof.
  unfold api_IsReadOnly, bind, send, ret. cbn [replyFailure].
  destruct (StatusCode _) as [z|]; [|eauto].
  destruct (z =? 404)%Z eqn:E; [apply Z.eqb_eq in E; subst; eauto|].
  destruct (z =? 400)%Z eqn:E'; [apply Z.eqb_eq in E'; subst; eauto|].
  destruct z as [|q|q]; eauto.
  do 9 (destruct q as [q|q|]; eauto).
Qed.

Lemma NewRoot_alloc (f : Fs) (w w' : World) (p : nat) :
  NewRoot net f w = (Done (Ok p), w') ->
  p = length (roots w) /\
  exists r,
    roots w' = roots w ++ [r] /\
    hash r = lastPersistedHash r /\
    r_api r = api f /\ r_opt r = opt f /\
    (isReadOnly r = false -> isMFS r = true \/ ipnsKey r <> "") /\
    (isMFS r = true -> ipnsPath r = "" /\ ipnsKey r = "") /\
    timers w' = timers w ++ (if isReadOnly r then [] else [p]) /\
    atexit w' = atexit w ++ (if isReadOnly r then [] else [p]).
Proof.
  unfold NewRoot, bind at 1.
  destruct (api_IsReadOnly_run (api f) w) as (readOnly & err & ->).
  destruct err as [e|]; [discriminate|].
  unfold api_KeyList, api_NameResolve, api_FilesStat,
    allocRoot, periodicPersist, atexit_Register, bind, send, ret.
  split_matches; intros [= <- <-]; cbn in *; try discriminate.
  all: destruct readOnly; cbn [orb negb] in *; try discriminate.
  all: rewrite ?negb_involutive in *.
  all: repeat match goal with
              | H : negb _ = true |- _ => apply negb_true_iff in H
              | H : negb _ = false |- _ => apply negb_false_iff in H
              end.
  all: split; [reflexivity|]; eexists; split; [reflexivity|]; cbn.
  all: rewrite ?negb_involutive.
  all: repeat match goal with
              | H : (_ =s "") = _ |- _ => rewrite H
              end; cbn.
  all: repeat split; try reflexivity; try (rewrite app_nil_r; reflexivity);
    try solve [intros; discriminate | intros; auto].
  all: try (intros _; right; apply String.eqb_neq; assumption).
Qed.

Lemma lookupSharedRoot_grows (f : Fs) (w : World) :
  rootsGrow w (lookupSharedRoot net f w).2.
Proof.
  unfold lookupSharedRoot, sharedRoot_Lock, cacheLookup, cacheStore, bind at 1 2, ret.
  destruct (cacheLocked w); [left; repeat split|].
  cbn [cache World_with_cacheLocked].
  destruct (cache w !! opt f) as [p|]; [left; repeat split|].
  unfold bind.
  destruct (NewRoot net f (World_with_cacheLocked true w)) as [o1 w1] eqn:E.
  destruct o1 as [[p|e]|v|].
  - apply NewRoot_alloc in E as (-> & r & Hr & Hclean & _ & _ & Hw & Hm & Ht & Ha).
    right. exists r. cbn [snd roots timers atexit World_with_cache World_with_cacheLocked] in *.
    split; [exact Hr|]. split; [exact Hclean|]. split; [split; assumption|].
    split; assumption.
  - apply NewRoot_spec in E as (_ & _ & _ & Hr & Ht & Ha). left. repeat split; assumption.
  - apply NewRoot_spec in E as (_ & _ & _ & Hr & Ht & Ha). left. repeat split; assumption.
  - apply NewRoot_spec in E as (_ & _ & _ & Hr & Ht & Ha). left. repeat split; assumption.
Qed.

Lemma checkRootIsFile_view {B} (v : World -> B) fp root :
  stateView v -> keepsView v (checkRootIsFile net path_Join path_Base path_Dir fp root).
Proof.
  intros Hstate. unfold checkRootIsFile.
  repeat first
    [ apply view_ret
    | apply (view_modifyFs _ _ _ Hstate)
    | apply (view_onlySends _ _ Hstate), NewObject_onlySends
    | apply view_bind; [|intros ?]
    | match goal with
      | |- keepsView _ (match ?x with _ => _ end) => destruct x
      | |- keepsView _ (if ?b then _ else _) => destruct b
      end ].
Qed.

Lemma NewFs_grows (name root : string) (parsed : result error Options) (w : World) :
  rootsGrow w (NewFs net path_Join path_Base path_Dir name root parsed w).2.
Proof.
  unfold NewFs, allocFs, getFs, bind at 1 2 3, ret.
  destruct parsed as [opt0|e]; cbv beta; [|left; repeat split].
  cbn [fss World_with_fss]. rewrite list_lookup_middle by reflexivity.
  match goal with |- context [lookupSharedRoot net ?f ?w1] =>
    pose proof (lookupSharedRoot_grows f w1) as Hgrow;
    destruct (lookupSharedRoot net f w1) as [o1 w2] end.
  cbn [snd] in Hgrow.
  assert (Hsame : forall w3, (roots w3, timers w3, atexit w3) = (roots w2, timers w2, atexit w2) ->
                             rootsGrow w w3).
  { intros w3 [= Hr Ht Ha]. unfold rootsGrow in *.
    cbn [roots timers atexit World_with_fss] in Hgrow. rewrite Hr, Ht, Ha. exact Hgrow. }
  destruct o1 as [[p|e]|v|]; try (apply Hsame; reflexivity).
  assert (Hstate : stateView (fun w => (roots w, timers w, atexit w))) by (split; reflexivity).
  apply Hsame. unfold bind, sharedRoot_Unlock.
  pose proof (view_modifyFs _ (length (fss w)) (Fs_with_ipfsRoot (Some p)) Hstate w2) as H1.
  destruct (modifyFs _ _ w2) as [[[]|v|] w3]; cbn [snd] in *; try exact H1.
  pose proof (checkRootIsFile_view _ (length (fss w)) root Hstate
                (World_with_cacheLocked false w3)) as H2.
  cbv beta in H1, H2. cbn [roots timers atexit World_with_cacheLocked] in H2.
  rewrite <- H1. exact H2.
Qed.

Lemma fmap_eq_lookup {A B} (f : A -> B) (l l' : list A) (a : nat) (x' : A) :
  f <$> l' = f <$> l -> l' !! a = Some x' ->
  exists x, l !! a = Some x /\ f x = f x'.
Proof.
  intros H Hx. apply (f_equal (fun l => l !! a)) in H.
  rewrite !list_lookup_fmap, Hx in H. destruct (l !! a) as [x|]; [|discriminate].
  exists x. split; [reflexivity|]. cbn in H. congruence.
Qed.

Lemma wellFormedRoot_mode (r r' : Root) :
  rootMode r = rootMode r' -> wellFormedRoot r -> wellFormedRoot r'.
Proof.
  unfold rootMode, wellFormedRoot. intros [= _ _ Hp Hk Hm Hr]. rewrite Hp, Hk, Hm, Hr. auto.
Qed.

(** The invariant looks at the modes of the roots, at the exit hooks and
    at the hashes of read-only roots only. *)
Lemma rootsInv_modes (w w' : World) :
  rootsInv w ->
  rootMode <$> roots w' = rootMode <$> roots w ->
  atexit w' = atexit w ->
  readOnlyClean w' ->
  rootsInv w'.
Proof.
  intros (_ & Hwf & Hexit & Hnodup) Hmodes Ha Hclean.
  split; [exact Hclean|]. split; [|split; [|rewrite Ha; exact Hnodup]].
  - intros a r' Hr'. destruct (fmap_eq_lookup _ _ _ _ _ Hmodes Hr') as (r & Hr & Hm).
    apply (wellFormedRoot_mode r r' Hm). exact (Hwf a r Hr).
  - intros a. rewrite Ha, Hexit. split.
    + intros (r & Hr & Hro).
      destruct (fmap_eq_lookup _ _ _ _ _ (eq_sym Hmodes) Hr) as (r' & Hr' & Hm).
      exists r'. split; [exact Hr'|]. unfold rootMode in Hm. congruence.
    + intros (r' & Hr' & Hro).
      destruct (fmap_eq_lookup _ _ _ _ _ Hmodes Hr') as (r & Hr & Hm).
      exists r. split; [exact Hr|]. unfold rootMode in Hm. congruence.
Qed.

Lemma rootsInv_grow (w w' : World) : rootsInv w -> rootsGrow w w' -> rootsInv w'.
Proof.
  intros Hinv [(Hr & _ & Ha)|(r & Hr & Hclean & Hwf & _ & Ha)].
  - apply (rootsInv_modes w w' Hinv); [rewrite Hr; reflexivity|exact Ha|].
    intros a r. rewrite Hr. apply Hinv.
  - destruct Hinv as (Hc & Hw & Hexit & Hnodup).
    assert (Hlook : forall a x, roots w' !! a = Some x <->
              roots w !! a = Some x \/ a = length (roots w) /\ x = r).
    { intros a x. rewrite Hr, lookup_app_Some, list_lookup_singleton_Some.
      split; (intros [H|H]; [left; exact H|right]).
      - destruct H as (Hle & H0 & <-). split; [lia|reflexivity].
      - destruct H as (-> & ->). repeat split; [lia|lia]. }
    split; [|split; [|split]].
    + intros a x Hx Hro. apply Hlook in Hx as [Hx|[_ ->]]; [exact (Hc a x Hx Hro)|exact Hclean].
    + intros a x Hx. apply Hlook in Hx as [Hx|[_ ->]]; [exact (Hw a x Hx)|exact Hwf].
    + intros a. rewrite Ha, in_app_iff, Hexit. split.
      * intros [(x & Hx & Hro)|Hin].
        -- exists x. split; [apply Hlook; left; exact Hx|exact Hro].
        -- destruct (isReadOnly r) eqn:Hro; [destruct Hin|].
           destruct Hin as [<-|[]]. exists r. split; [apply Hlook; right; split; reflexivity|exact Hro].
      * intros (x & Hx & Hro). apply Hlook in Hx as [Hx|[-> ->]].
        -- left. exists x. split; assumption.
        -- right. rewrite Hro. left. reflexivity.
    + rewrite Ha. destruct (isReadOnly r); [rewrite app_nil_r; exact Hnodup|].
      apply NoDup_app. split; [exact Hnodup|]. split; [|apply NoDup_singleton].
      intros a Hin Hin'. apply list_elem_of_singleton in Hin'. subst a.
      apply list_elem_of_In, Hexit in Hin as (x & Hx & _).
      apply lookup_lt_Some in Hx. lia.
Qed.

Lemma rootsInv_mutation (m : Mutation) (w : World) :
  rootsInv w -> rootsInv (runMutation net path_Join m w).2.
Proof.
  intros Hinv.
  assert (Hmodes : rootMode <$> roots (runMutation net path_Join m w).2
                   = rootMode <$> roots w).
  { apply (runMutation_view (fun w => rootMode <$> roots w)).
    - apply stateView_fields.
    - intros h. apply blindTo_fields. intros []; reflexivity. }
  pose proof (runMutation_view (fun w => (timers w, atexit w)) stateView_hooks
                (fun h => blindTo_hooks _) m w) as Hhooks.
  cbv beta in Hhooks.
  apply (rootsInv_modes w _ Hinv Hmodes); [congruence|].
  intros a r' Hr' Hro.
  destruct (fmap_eq_lookup _ _ _ _ _ Hmodes Hr') as (r & Hr & Hm).
  assert (Hro0 : isReadOnly r = true) by (unfold rootMode in Hm; congruence).
  pose proof (runMutation_keeps m w a r Hr Hro0) as Hsame.
  rewrite Hsame in Hr'. injection Hr' as <-.
  destruct Hinv as (Hc & _). exact (Hc a r Hr Hro0).
Qed.

Lemma rootsInv_persist (p : RootPtr) (w : World) :
  rootsInv w -> rootsInv (persist net p w).2.
Proof.
  intros Hinv.
  assert (Hmodes : rootMode <$> roots (persist net p w).2 = rootMode <$> roots w).
  { apply (persist_view (fun w => rootMode <$> roots w)).
    - apply stateView_fields.
    - apply (blindTo_fields rootMode
               (fun root => Root_with_lastPersistedHash (hash root) root)).
      intros []; reflexivity. }
  pose proof (persist_view (fun w => (timers w, atexit w)) stateView_hooks
                (blindTo_hooks _) p w) as Hhooks.
  cbv beta in Hhooks.
  apply (rootsInv_modes w _ Hinv Hmodes); [congruence|].
  destruct Hinv as (Hc & _).
  destruct (persist_roots p w) as [Hsame|(a & r & _ & Hr & _ & Hnew)].
  - intros a r. rewrite Hsame. apply Hc.
  - intros a' r'. rewrite Hnew.
    destruct (decide (a' = a)) as [->|Hne].
    + rewrite list_lookup_insert_eq by (eapply lookup_lt_Some; exact Hr).
      intros [= <-] _. destruct r; reflexivity.
    + rewrite list_lookup_insert_ne by congruence. apply Hc.
Qed.

Lemma timerCallback_roots (r : nat) (w : World) :
  roots (timerCallback net r w).2 = roots (persist net (Some r) w).2 /\
  atexit (timerCallback net r w).2 = atexit (persist net (Some r) w).2.
Proof.
  unfold timerCallback, periodicPersist, bind.
  destruct (persist net (Some r) w) as [[[]|v|] w1]; split; reflexivity.
Qed.

Lemma step_rootsInv (w w' : World) :
  step net path_Join path_Base path_Dir w w' -> rootsInv w -> rootsInv w'.
Proof.
  intros Hstep Hinv. destruct Hstep as [nm rt parsed w|m w|p w|r w].
  - apply (rootsInv_grow w); [exact Hinv|apply NewFs_grows].
  - apply rootsInv_mutation. exact Hinv.
  - apply rootsInv_persist. exact Hinv.
  - destruct (timerCallback_roots r w) as [Hr Ha].
    pose proof (rootsInv_persist (Some r) w Hinv) as Hp.
    apply (rootsInv_modes _ _ Hp); [rewrite Hr; reflexivity|exact Ha|].
    intros a x. rewrite Hr. apply Hp.
Qed.

Lemma rootsInv_empty : rootsInv emptyWorld.
Proof.
  split; [|split; [|split]].
  - intros a r H. discriminate.
  - intros a r H. discriminate.
  - intros a. split; [intros []|intros (r & H & _); discriminate].
  - apply NoDup_nil_2.
Qed.

Lemma steps_rootsInv (w w' : World) :
  rtc (step net path_Join path_Base path_Dir) w w' -> rootsInv w -> rootsInv w'.
Proof.
  induction 1 as [w|w w1 w2 Hstep _ IH]; intros Hinv; [exact Hinv|].
  apply IH. exact (step_rootsInv w w1 Hstep Hinv).
Qed.

(** X4: in every state the process can reach, a read-only root is persisted,
    a writable root is an MFS root or has an IPNS key, an MFS root has no
    IPNS name, and the roots registered for a persist at exit are the
    writable roots, each once. *)
Theorem reachable_roots (w : World) :
  rtc (step net path_Join path_Base path_Dir) emptyWorld w ->
  (forall a r, roots w !! a = Some r ->
     (isReadOnly r = true -> hash r = lastPersistedHash r) /\
     (isReadOnly r = false -> isMFS r = true \/ ipnsKey r <> "") /\
     (isMFS r = true -> ipnsPath r = "" /\ ipnsKey r = "") /\
     (In a (atexit w) <-> isReadOnly r = false)) /\
  NoDup (atexit w).
Proof.
  intros Hreach.
  destruct (steps_rootsInv _ _ Hreach rootsInv_empty)
    as (Hclean & Hwf & Hexit & Hnodup).
  split; [|exact Hnodup]. intros a r Hr.
  destruct (Hwf a r Hr) as [Hw Hm].
  split; [exact (Hclean a r Hr)|]. split; [exact Hw|]. split; [exact Hm|].
  rewrite Hexit. split.
  - intros (r' & Hr' & Hro). congruence.
  - intros Hro. exists r. split; assumption.
Qed.

(** X5: a persist of a read-only root, whenever it runs, returns at once:
    nothing is sent and nothing changes. *)
Theorem readOnly_root_never_persists (w : World) (a : nat) (r : Root) :
  rtc (step net path_Join path_Base path_Dir) emptyWorld w ->
  roots w !! a = Some r ->
  isReadOnly r = true ->
  persist net (Some a) w = (Done tt, w).
Proof.
  intros Hreach Hr Hro.
  destruct (steps_rootsInv _ _ Hreach rootsInv_empty)
    as (Hclean & _).
  apply (persist_noop net a r w Hr). exact (Hclean a r Hr Hro).
Qed.




(** X7: the root that [NewRoot] returns is a new one at the end of the heap.
    Its hash is its last persisted hash, it has the client and the options
    of the [Fs]; it is writable only if it is an MFS root or has a key,
    and an MFS root has no IPNS name.  A timer is armed and an exit hook
    registered for it exactly when it is writable. *)
Theorem NewRoot_fresh (f : Fs) (w w' : World) (p : nat) :
  NewRoot net f w = (Done (Ok p), w') ->
  p = length (roots w) /\
  exists r,
    roots w' = roots w ++ [r] /\
    hash r = lastPersistedHash r /\
    r_api r = api f /\ r_opt r = opt f /\
    (isReadOnly r = false -> isMFS r = true \/ ipnsKey r <> "") /\
    (isMFS r = true -> ipnsPath r = "" /\ ipnsKey r = "") /\
    timers w' = timers w ++ (if isReadOnly r then [] else [p]) /\
    atexit w' = atexit w ++ (if isReadOnly r then [] else [p]).
Proof. apply NewRoot_alloc. Qed.

(** X8: on an endpoint that answers the probe with 404, [NewRoot] asks for
    no keys and no MFS stat, arms no timer and registers no exit hook, and
    a root it makes is read-only and has no key. *)
Theorem NewRoot_readOnly_endpoint (f : Fs) (w w' : World) (o : outcome (result error nat)) :
  StatusCode (net (calls w) (srv (api f)) IsReadOnlyProbe) = Some 404%Z ->
  NewRoot net f w = (o, w') ->
  Forall (fun rq => call rq = IsReadOnlyProbe \/ call rq = NameResolve (IpfsRoot (opt f)))
         (sentBetween w w') /\
  timers w' = timers w /\ atexit w' = atexit w /\
  (forall p, o = Done (Ok p) ->
     exists r, roots w' = roots w ++ [r] /\ isReadOnly r = true /\ ipnsKey r = "").
Proof.
  intros Hprobe. unfold NewRoot, bind at 1, api_IsReadOnly, bind at 1, send.
  rewrite Hprobe. cbn [ret].
  unfold api_NameResolve, allocRoot, periodicPersist, atexit_Register, bind, send, ret.
  split_matches; intros [= <- <-]; cbn [snd negb orb andb isReadOnly] in *;
    try discriminate.
  all: rewrite ?addCalls_addCalls, ?sentBetween_roots, ?sentBetween_addCalls.
  all: cbn [timers atexit roots addCalls World_with_calls World_with_roots].
  all: split;
    [cbn [app]; repeat first [ apply Forall_nil_2
                  | apply Forall_cons_2; [first [left; reflexivity | right; reflexivity]|] ]|].
  all: split; [reflexivity|]. all: split; [reflexivity|].
  all: intros p' [= <-] || (intros p' ?; discriminate).
  all: eexists; split; [reflexivity|]; split; reflexivity.
Qed.


(** What [Client.IsReadOnly] returns: the statuses 404 and 400 decide and
    hide the error; any other reply gives the error of the call. *)
Lemma api_IsReadOnly_result (a : Client) (w : World) :
  exists readOnly err,
    api_IsReadOnly net a w
    = (Done (readOnly, err),
       addCalls [{| to := srv a; call := IsReadOnlyProbe;
                    failure := probeErr (net (calls w) (srv a) IsReadOnlyProbe) |}] w) /\
    (forall pe, err = Some pe ->
                probeErr (net (calls w) (srv a) IsReadOnlyProbe) = Some pe).
Proof.
  unfold api_IsReadOnly, bind, send, ret. cbn [replyFailure].
  destruct (StatusCode _) as [z|]; [|eauto].
  destruct (z =? 404)%Z eqn:E;
    [apply Z.eqb_eq in E; subst; do 2 eexists; split; [reflexivity|discriminate]|].
  destruct (z =? 400)%Z eqn:E';
    [apply Z.eqb_eq in E'; subst; do 2 eexists; split; [reflexivity|discriminate]|].
  destruct z as [|q|q]; eauto.
  do 9 (destruct q as [q|q|]; eauto); discriminate.
Qed.

(** What [Client.IsReadOnly] gives for each reply: 404 and 400 decide,
    with no error whatever the reply carries; any other reply gives false
    and the error of the call. *)
Lemma api_IsReadOnly_cases (a : Client) (w : World) :
  let answer := net (calls w) (srv a) IsReadOnlyProbe in
  let probe := {| to := srv a; call := IsReadOnlyProbe; failure := probeErr answer |} in
  (StatusCode answer = Some 404%Z ->
   api_IsReadOnly net a w = (Done (true, None), addCalls [probe] w)) /\
  (StatusCode answer = Some 400%Z ->
   api_IsReadOnly net a w = (Done (false, None), addCalls [probe] w)) /\
  (StatusCode answer <> Some 404%Z -> StatusCode answer <> Some 400%Z ->
   api_IsReadOnly net a w = (Done (false, probeErr answer), addCalls [probe] w)).
Proof.
  cbv zeta. unfold api_IsReadOnly, bind, send, ret. cbn [replyFailure].
  split; [|split].
  - intros ->. reflexivity.
  - intros ->. reflexivity.
  - intros H404 H400.
    destruct (StatusCode _) as [z|]; [|reflexivity].
    destruct z as [|q|q]; try reflexivity.
    do 9 (destruct q as [q|q|]; try reflexivity); congruence.
Qed.

(** X9: a root path that is neither empty nor an /ipfs/ or /ipns/ path is
    refused after the endpoint was probed: the probe is the one request
    sent and no root is made.  When the probe is answered with 404 or
    400, or without an error, the error returned is that of the path,
    also when the reply carries an error; when the probe is answered with
    another status or none and with an error, that error is returned in
    place of the path's. *)
Theorem NewRoot_invalid_path (f : Fs) (w : World) :
  let answer := net (calls w) (srv (api f)) IsReadOnlyProbe in
  let decided := StatusCode answer = Some 404%Z \/ StatusCode answer = Some 400%Z in
  (path_Split (IpfsRoot (opt f))).1 <> "/ipfs/" ->
  (path_Split (IpfsRoot (opt f))).1 <> "/ipns/" ->
  IpfsRoot (opt f) <> "" ->
  (decided \/ probeErr answer = None ->
   NewRoot net f w = (Done (Err (invalidPath f)), addCalls [probeOf net f w] w)) /\
  (forall pe, ~ decided -> probeErr answer = Some pe ->
   NewRoot net f w = (Done (Err (Remote pe)), addCalls [probeOf net f w] w)).
Proof.
  intros answer decided Hipfs Hipns Hempty.
  destruct (api_IsReadOnly_cases (api f) w) as (H404 & H400 & Hother).
  fold answer in H404, H400, Hother.
  destruct (path_Split (IpfsRoot (opt f))) as [base hash] eqn:Hsplit.
  cbn [fst] in *.
  apply String.eqb_neq in Hipfs, Hipns, Hempty.
  assert (Hpath : forall readOnly,
            api_IsReadOnly net (api f) w
            = (Done (readOnly, None), addCalls [probeOf net f w] w) ->
            NewRoot net f w = (Done (Err (invalidPath f)), addCalls [probeOf net f w] w)).
  { intros readOnly Hrun. unfold NewRoot, bind at 1. rewrite Hrun, Hsplit.
    rewrite Hipfs, Hipns, Hempty. reflexivity. }
  split.
  - intros [[H|H]|H].
    + apply (Hpath true). exact (H404 H).
    + apply (Hpath false). exact (H400 H).
    + destruct (decide (StatusCode answer = Some 404%Z)) as [E|N404];
        [apply (Hpath true); exact (H404 E)|].
      destruct (decide (StatusCode answer = Some 400%Z)) as [E|N400];
        [apply (Hpath false); exact (H400 E)|].
      apply (Hpath false). rewrite (Hother N404 N400). unfold probeOf. fold answer.
      rewrite H. reflexivity.
  - intros pe Hnot Herr.
    assert (N404 : StatusCode answer <> Some 404%Z) by (intros E; apply Hnot; left; exact E).
    assert (N400 : StatusCode answer <> Some 400%Z) by (intros E; apply Hnot; right; exact E).
    unfold NewRoot, bind at 1. rewrite (Hother N404 N400). unfold probeOf. fold answer.
    rewrite Herr. reflexivity.
Qed.

Lemma NewRoot_returns (f : Fs) (w : World) : exists r, (NewRoot net f w).1 = Done r.
Proof.
  unfold NewRoot, api_IsReadOnly, api_KeyList, api_NameResolve, api_FilesStat,
    allocRoot, periodicPersist, atexit_Register, bind, send, ret.
  split_matches; cbn [fst]; eauto.
Qed.

(** Once it has a root, [NewFs] releases the lock. *)
Lemma NewFs_unlocks (fp : nat) (p : nat) (root : string) (f0 : Fs) (w : World) :
  fss w !! fp = Some f0 ->
  cacheLocked
    ((let* _ := modifyFs fp (Fs_with_ipfsRoot (Some p)) in
      let* _ := sharedRoot_Unlock in
      checkRootIsFile net path_Join path_Base path_Dir fp root) w).2 = false.
Proof.
  intros Hf. unfold bind, modifyFs, getFs, sharedRoot_Unlock, bind. rewrite Hf.
  assert (Hstate : stateView cacheLocked) by (split; reflexivity).
  match goal with |- context [checkRootIsFile _ _ _ _ fp root ?w2] =>
    pose proof (checkRootIsFile_view _ fp root Hstate w2)
      as H end.
  cbv beta in H. rewrite H. reflexivity.
Qed.

(** X10: [NewFs] returns with the lock of the shared roots held exactly when
    the options were not in the cache and [NewRoot] failed; it then
    returns that error and no filesystem.  While the lock is held, every
    [NewFs] that got options waits for it for ever. *)
Theorem NewFs_lock (name root : string) (opt0 : Options) (w w' : World)
    (o : outcome (option nat * option error)) :
  let f := newFs name root opt0 in
  let w1 := World_with_cacheLocked true (World_with_fss (fss w ++ [f]) w) in
  cacheLocked w = false ->
  NewFs net path_Join path_Base path_Dir name root (Ok opt0) w = (o, w') ->
  (cacheLocked w' = true <->
   cache w !! normalize opt0 = None /\ exists e, (NewRoot net f w1).1 = Done (Err e)) /\
  (cacheLocked w' = true ->
   (exists e, o = Done (None, Some e) /\ (NewRoot net f w1).1 = Done (Err e)) /\
   forall name2 root2 opt2,
     (NewFs net path_Join path_Base path_Dir name2 root2 (Ok opt2) w').1 = Blocked).
Proof.
  intros f w1 Hfree.
  assert (Hblock : forall w2 name2 root2 opt2, cacheLocked w2 = true ->
            (NewFs net path_Join path_Base path_Dir name2 root2 (Ok opt2) w2).1 = Blocked).
  { intros w2 name2 root2 opt2 Hheld.
    unfold NewFs, allocFs, getFs, bind at 1 2 3, ret. cbv beta.
    cbn [fss World_with_fss]. rewrite list_lookup_middle by reflexivity.
    unfold lookupSharedRoot, sharedRoot_Lock, bind at 1 2.
    cbn [cacheLocked World_with_fss]. rewrite Hheld. reflexivity. }
  unfold NewFs, allocFs, getFs, bind at 1 2 3, ret. cbv beta.
  cbn [fss World_with_fss]. rewrite list_lookup_middle by reflexivity.
  fold (newFs name root opt0). fold f.
  unfold lookupSharedRoot, sharedRoot_Lock, cacheLookup, cacheStore, bind at 1 2 3.
  cbn [cacheLocked cache World_with_fss World_with_cacheLocked]. rewrite Hfree.
  fold w1. change (opt f) with (normalize opt0). change (cache w1) with (cache w).
  assert (Hf1 : fss w1 !! length (fss w) = Some f)
    by (apply list_lookup_middle; reflexivity).
  destruct (cache w !! normalize opt0) as [p|] eqn:Hcache.
  - intros E. apply (f_equal snd) in E. cbn [snd] in E.
    pose proof (NewFs_unlocks (length (fss w)) p root f w1 Hf1) as Hun.
    replace w' with
      ((let* _ := modifyFs (length (fss w)) (Fs_with_ipfsRoot (Some p)) in
        let* _ := sharedRoot_Unlock in
        checkRootIsFile net path_Join path_Base path_Dir (length (fss w)) root) w1).2
      by (rewrite <- E; reflexivity).
    rewrite Hun.
    split; [split; [discriminate|intros [? _]; discriminate]|discriminate].
  - destruct (NewRoot_returns f w1) as (r & Hr).
    destruct (NewRoot net f w1) as [o1 w2] eqn:Hnew. cbn [fst] in Hr. subst o1.
    apply NewRoot_spec in Hnew as (Hfss & _ & Hlock & _).
    destruct r as [p|e].
    + intros E. apply (f_equal snd) in E. cbn [snd] in E.
      assert (Hf2 : fss (World_with_cache (<[normalize opt0 := p]> (cache w2)) w2)
                      !! length (fss w) = Some f)
        by (cbn [fss World_with_cache]; rewrite Hfss; exact Hf1).
      pose proof (NewFs_unlocks (length (fss w)) p root f _ Hf2) as Hun.
      replace w' with
        ((let* _ := modifyFs (length (fss w)) (Fs_with_ipfsRoot (Some p)) in
          let* _ := sharedRoot_Unlock in
          checkRootIsFile net path_Join path_Base path_Dir (length (fss w)) root)
           (World_with_cache (<[normalize opt0 := p]> (cache w2)) w2)).2
        by (rewrite <- E; reflexivity).
      rewrite Hun.
      split; [split; [discriminate|intros [_ [e [=]]]]|discriminate].
    + unfold bind, ret. intros [= <- <-]. rewrite Hlock.
      split; [split; [intros _; split; [reflexivity|exists e; reflexivity]|reflexivity]|].
      intros _. split; [exists e; split; reflexivity|].
      intros name2 root2 opt2. apply Hblock. exact Hlock.
Qed.

(** X12: the hash of the empty directory is asked for once: after
    [emptyDirHash] gave a hash, it gives the same hash again without a
    request, and changes nothing. *)
Theorem emptyDirHash_cached (fp : nat) (h : string) (w w' : World) :
  emptyDirHash net fp w = (Done (Ok h), w') ->
  h <> "" ->
  emptyDirHash net fp w' = (Done (Ok h), w').
Proof.
  unfold emptyDirHash, api_ObjectNewDir, modifyFs, getFs, bind, send, ret.
  destruct (fss w !! fp) as [f|] eqn:Hf; [|discriminate].
  destruct (_emptyDirHash f =s "") eqn:He.
  - destruct (net (calls w) (srv (api f)) ObjectNewDir) as [result|e]; [|discriminate].
    cbn [fss addCalls World_with_calls]. rewrite Hf.
    intros [= <- <-] Hne. cbn [fss World_with_fss].
    rewrite list_lookup_insert_eq by (eapply lookup_lt_Some; exact Hf).
    destruct f; cbn.
    apply String.eqb_neq in Hne. rewrite Hne. reflexivity.
  - intros [= <- <-] _. rewrite Hf, He. reflexivity.
Qed.

Lemma sendsOnly_ret {A} P (a : A) : sendsOnly P (ret a).
Proof. intros w. exists []. split; [symmetry; apply app_nil_r|constructor]. Qed.

Lemma sendsOnly_panic {A} P (x : panicValue) : sendsOnly P (@panic A x).
Proof. intros w. exists []. split; [symmetry; apply app_nil_r|constructor]. Qed.

Lemma sendsOnly_bind {A B} P (m : M A) (k : A -> M B) :
  sendsOnly P m -> (forall a, sendsOnly P (k a)) -> sendsOnly P (bind m k).
Proof.
  intros Hm Hk w. unfold bind. destruct (Hm w) as (sent & Hc & Hall).
  destruct (m w) as [[a|x|] w1]; cbn [snd] in *; try (exists sent; split; assumption).
  destruct (Hk a w1) as (sent' & Hc' & Hall').
  exists (sent ++ sent'). split; [rewrite Hc', Hc, app_assoc; reflexivity|].
  apply Forall_app. split; assumption.
Qed.

Lemma sendsOnly_send (P : Call -> bool) (a : Client) (c : Call) :
  P c = true -> sendsOnly P (send net a c).
Proof.
  intros HP w. eexists. split; [reflexivity|]. repeat constructor. exact HP.
Qed.

Lemma sendsOnly_view {A} P (m : M A) : keepsView calls m -> sendsOnly P m.
Proof.
  intros H w. exists []. split; [rewrite H; symmetry; apply app_nil_r|constructor].
Qed.

Lemma view_calls_getFs fp : keepsView calls (getFs fp).
Proof. intros w. unfold getFs. destruct (fss w !! fp); reflexivity. Qed.

Lemma view_calls_getRoot p : keepsView calls (getRoot p).
Proof. intros w. unfold getRoot. destruct p as [a|]; [destruct (roots w !! a)|]; reflexivity. Qed.

Lemma view_calls_modifyFs fp g : keepsView calls (modifyFs fp g).
Proof. intros w. unfold modifyFs, bind, getFs. destruct (fss w !! fp); reflexivity. Qed.

Lemma view_calls_modifyRoot p g : keepsView calls (modifyRoot p g).
Proof.
  intros w. unfold modifyRoot, bind, getRoot.
  destruct p as [a|]; [destruct (roots w !! a)|]; reflexivity.
Qed.

Ltac sends_with tac :=
  repeat first
    [ tac | apply sendsOnly_ret | apply sendsOnly_panic | assumption
    | apply sendsOnly_view, view_calls_getFs
    | apply sendsOnly_view, view_calls_getRoot
    | apply sendsOnly_view, view_calls_modifyFs
    | apply sendsOnly_view, view_calls_modifyRoot
    | match goal with
      | |- sendsOnly _ (send _ ?a ?c) => exact (sendsOnly_send _ a c eq_refl)
      end
    | apply sendsOnly_bind; [|intros ?]
    | match goal with
      | |- sendsOnly _ (match ?x with _ => _ end) => destruct x
      | |- sendsOnly _ (if ?b then _ else _) => destruct b
      end ].

Lemma mergeLinks_sends a srcPath links h :
  sendsOnly (fun c => negb (isStoreWrite c)) (mergeLinks net path_Join a srcPath links h).
Proof.
  revert h. induction links as [|link rest IH]; intros h; cbn [mergeLinks];
    unfold api_ObjectPatchAddLink; sends_with ltac:(apply IH).
Qed.

Lemma mergeDirs_sends f srcPath dirs h :
  sendsOnly (fun c => negb (isStoreWrite c)) (mergeDirs net path_Join f srcPath dirs h).
Proof.
  revert h. induction dirs as [|dir rest IH]; intros h; cbn [mergeDirs];
    unfold api_Ls, api_ObjectPatchRmLink;
    sends_with ltac:(first [apply mergeLinks_sends | apply IH]).
Qed.

Lemma runMutation_sends m :
  sendsOnly (fun c => negb (isStoreWrite c)) (runMutation net path_Join m).
Proof.
  destruct m;
    unfold runMutation, PutStream, Object_Update, Move, Put, Object_Remove, Mkdir, Rmdir,
      Copy, DirMove, MergeDirs, Purge, NewObject, emptyDirHash, checkReadOnly,
      api_Add, api_Ls, api_ObjectStat, api_ObjectPatchAddLink, api_ObjectPatchRmLink,
      api_ObjectNewDir, errorOf;
    sends_with ltac:(apply mergeDirs_sends).
Qed.

(** X13: the entry points that change the tree leave the endpoint's store
    alone: whatever they are called with and however they end, they send
    no FilesCp or FilesRm, no PinAdd or PinRm and no NamePublish.  The
    store is written by [persist] only. *)
Theorem mutation_leaves_store (m : Mutation) (w : World) :
  let w' := (runMutation net path_Join m w).2 in
  calls w' = calls w ++ sentBetween w w' /\
  Forall (fun rq => isMfsWrite (call rq) = false /\ isPinCall (call rq) = false /\
                    isPublish (call rq) = false)
         (sentBetween w w').
Proof.
  cbv zeta. destruct (runMutation_sends m w) as (sent & Hc & Hall).
  unfold sentBetween. rewrite Hc, drop_app_length. split; [reflexivity|].
  eapply Forall_impl; [exact Hall|]. intros rq H. cbv beta in H.
  unfold isStoreWrite in H. apply negb_true_iff in H.
  apply orb_false_iff in H as [H Hp]. apply orb_false_iff in H as [Hm Hpin]. auto.
Qed.

Lemma listEntries_onlySends fp f rootHash dir links entries :
  onlySends (listEntries net path_Join fp f rootHash dir links entries).
Proof.
  revert entries. induction links as [|link rest IH]; intros entries; cbn [listEntries];
    unfold api_ObjectStat.
  - apply onlySends_ret.
  - destruct (l_Type link =? FileEntryTypeFolder)%Z; [apply IH|].
    apply onlySends_bind; [exact (onlySends_send net _ _)|].
    intros [stat|e]; [apply IH|apply onlySends_ret].
Qed.

Lemma listEntries_sends fp f rootHash dir links entries :
  sendsOnly isLookup (listEntries net path_Join fp f rootHash dir links entries).
Proof.
  revert entries. induction links as [|link rest IH]; intros entries; cbn [listEntries];
    unfold api_ObjectStat; sends_with ltac:(apply IH).
Qed.

Lemma sendsOnly_sentBetween {A} P (m : M A) (w : World) :
  sendsOnly P m -> Forall (fun rq => P (call rq) = true) (sentBetween w (m w).2).
Proof.
  intros H. destruct (H w) as (sent & Hc & Hall).
  unfold sentBetween. rewrite Hc, drop_app_length. exact Hall.
Qed.

(** X14: listing a directory, looking an object up and making a public link
    change nothing in the process but the log, and what they send are
    lookups: Ls and ObjectStat. *)
Theorem reading_only_looks_up (fp : nat) (path : string) :
  (onlySends (Fs_List net path_Join fp path) /\
   onlySends (NewObject net path_Join fp path) /\
   onlySends (PublicLink net path_Join fp path)) /\
  forall w,
    Forall (fun rq => isLookup (call rq) = true)
           (sentBetween w (Fs_List net path_Join fp path w).2) /\
    Forall (fun rq => isLookup (call rq) = true)
           (sentBetween w (NewObject net path_Join fp path w).2) /\
    Forall (fun rq => isLookup (call rq) = true)
           (sentBetween w (PublicLink net path_Join fp path w).2).
Proof.
  split; [split; [|split]|].
  - unfold Fs_List, api_Ls. only_sends. apply listEntries_onlySends.
  - apply NewObject_onlySends.
  - unfold PublicLink, api_ObjectStat. only_sends.
  - intros w. split; [|split]; apply sendsOnly_sentBetween.
    + unfold Fs_List, api_Ls. sends_with ltac:(apply listEntries_sends).
    + unfold NewObject, api_Ls, api_ObjectStat. sends_with fail.
    + unfold PublicLink, api_ObjectStat. sends_with fail.
Qed.

Lemma listEntries_entries fp f rootHash dir links entries0 w entries w' :
  listEntries net path_Join fp f rootHash dir links entries0 w = (Done (Ok entries), w') ->
  exists new sent,
    entries = entries0 ++ new /\ w' = addCalls sent w /\
    entryRemote <$> new = (fun link => path_Join [dir; l_Name link]) <$> links /\
    entryIsDir <$> new = linkIsFolder <$> links /\
    length sent = length (filter (fun link => linkIsFolder link = false) links).
Proof.
  revert entries0 w. induction links as [|link rest IH]; intros entries0 w; cbn [listEntries].
  - intros [= <- <-]. exists [], []. rewrite app_nil_r, addCalls_nil.
    repeat split; reflexivity.
  - pose proof (eq_refl : linkIsFolder link = (l_Type link =? FileEntryTypeFolder)%Z) as Hdef.
    destruct (linkIsFolder link) eqn:Hfolder; rewrite <- Hdef.
    + intros H. apply IH in H as (new & sent & -> & -> & Hrem & Hdir & Hlen).
      exists (EntryDir (path_Join [dir; l_Name link]) :: new), sent.
      rewrite <- app_assoc. cbn [app fmap list_fmap entryRemote entryIsDir].
      rewrite Hfolder, filter_cons_False by (rewrite Hfolder; discriminate).
      repeat split; try reflexivity; try exact Hlen; f_equal; assumption.
    + unfold api_ObjectStat, bind at 1, send.
      destruct (net (calls w) (srv (api f)) _) as [stat|e] eqn:Hstat; [|discriminate].
      intros H. apply IH in H as (new & sent & -> & -> & Hrem & Hdir & Hlen).
      eexists (EntryObject _ :: new), (_ :: sent).
      rewrite <- app_assoc. cbn [app fmap list_fmap entryRemote entryIsDir newObject remote].
      rewrite Hfolder, filter_cons_True by exact Hfolder.
      split; [reflexivity|]. split; [rewrite addCalls_addCalls; reflexivity|].
      repeat split; cbn [length]; f_equal; assumption.
Qed.

(** X15: a listing that returns has one entry for every link that [Ls] gave
    for the directory, in the order of the links: a directory for a
    folder link and an object for any other, each under the joined name.
    After the Ls it sent one ObjectStat for every link that is not a
    folder. *)
Theorem List_entries (fp : nat) (dir : string) (w w' : World) (entries : list DirEntry) :
  Fs_List net path_Join fp dir w = (Done (Ok entries), w') ->
  exists f r links,
    fss w !! fp = Some f /\ getRoot (ipfsRoot f) w = (Done r, w) /\
    api_Ls net (api f) (path_Join [hash r; relativePath path_Join f dir]) w
      = (Done (Ok links), addCalls (take 1 (sentBetween w w')) w) /\
    entryRemote <$> entries = (fun link => path_Join [dir; l_Name link]) <$> links /\
    entryIsDir <$> entries = linkIsFolder <$> links /\
    length (sentBetween w w')
    = S (length (filter (fun link => linkIsFolder link = false) links)).
Proof.
  unfold Fs_List, bind at 1, getFs.
  destruct (fss w !! fp) as [f|] eqn:Hf; [|discriminate].
  unfold bind at 1.
  destruct (getRoot (ipfsRoot f) w) as [o1 w1] eqn:Hroot.
  assert (w1 = w) as ->.
  { destruct (onlySends_getRoot (ipfsRoot f) w) as (o & sent & E).
    unfold getRoot in *. destruct (ipfsRoot f) as [a|]; [destruct (roots w !! a)|];
      congruence. }
  destruct o1 as [r|v|]; try discriminate.
  unfold bind at 1.
  destruct (api_Ls net (api f) _ w) as [o2 w2] eqn:Hls.
  assert (Hw2 : exists rq, w2 = addCalls [rq] w).
  { revert Hls. unfold api_Ls, bind, send, ret, panic.
    split_matches; intros [= <- <-]; eauto. }
  destruct Hw2 as (rq & ->).
  destruct o2 as [[links|e]|v|]; try discriminate.
  2:{ destruct (isApiError e); discriminate. }
  intros H. apply listEntries_entries in H as (new & sent & -> & -> & Hrem & Hdir & Hlen).
  exists f, r, links. rewrite addCalls_addCalls, sentBetween_addCalls.
  cbn [app take length]. rewrite take_0.
  repeat split; try assumption; try reflexivity. rewrite Hlen. reflexivity.
Qed.




(** X19: [Put] stores the patched hash before it looks the new object up: once
    the content was added and the link patched in, the root has the hash
    of the patch, whatever the lookup gives and whatever [Put] returns. *)
Theorem Put_commits_before_lookup (fp : nat) (content remote : string) (w : World)
    (f : Fs) (a : nat) (r : Root) (added : FileAdded) (result : HasHash) :
  let addRq := {| to := srv (api f); call := Add (path_Split remote).2 content;
                  failure := None |} in
  fss w !! fp = Some f -> ipfsRoot f = Some a -> roots w !! a = Some r ->
  isReadOnly r = false ->
  net (calls w) (srv (api f)) (Add (path_Split remote).2 content) = Ok added ->
  net (calls w ++ [addRq]) (srv (api f))
      (ObjectPatchAddLink (hash r) (relativePath path_Join f remote) (fa_Hash added))
    = Ok result ->
  roots (Put net path_Join fp content remote w).2
  = <[a := Root_with_hash (Hash result) r]> (roots w).
Proof.
  intros addRq Hf Ha Hr Hro Hadd Hpatch.
  unfold Put, checkReadOnly, api_Add, api_ObjectPatchAddLink, modifyRoot,
    getFs, getRoot, bind at 1 2 3 4 5 6 7 8, send, ret.
  rewrite Hf, Ha, Hr, Hro, Hadd. cbn [roots addCalls World_with_calls calls replyFailure].
  rewrite Hr. fold addRq. cbn [calls addCalls World_with_calls]. rewrite Hpatch.
  cbn [roots addCalls World_with_calls calls]. rewrite Hr.
  match goal with |- roots (NewObject _ _ _ _ ?w1).2 = _ =>
    destruct (NewObject_onlySends net path_Join fp remote w1) as (o & sent & ->) end.
  reflexivity.
Qed.

(** X20: [MergeDirs] on a writable root: with no directory it panics on
    [dirs[0]], with one directory it sends nothing and leaves the process
    as it is. *)
Theorem MergeDirs_short_lists (fp : nat) (w : World) (f : Fs) (a : nat) (r : Root) :
  fss w !! fp = Some f -> ipfsRoot f = Some a -> roots w !! a = Some r ->
  isReadOnly r = false ->
  MergeDirs net path_Join fp [] w = (Panicked indexOutOfRange, w) /\
  forall dir, MergeDirs net path_Join fp [dir] w = (Done None, w).
Proof.
  intros Hf Ha Hr Hro.
  unfold MergeDirs, checkReadOnly, modifyRoot, getFs, getRoot, bind, ret, panic.
  rewrite Hf, Ha, Hr, Hro. split; [reflexivity|]. intros dir.
  cbn [mergeDirs]. unfold ret. rewrite !Hr.
  f_equal. replace (Root_with_hash (hash r) r) with r by (destruct r; reflexivity).
  rewrite list_insert_id by exact Hr. destruct w; reflexivity.
Qed.

Lemma HasPrefix_refl (s : string) : HasPrefix s s = true.
Proof. unfold HasPrefix. induction s as [|c s IH]; cbn; [reflexivity|].
  destruct (Ascii.ascii_dec c c); [exact IH|congruence]. Qed.

Lemma HasPrefix_empty (s : string) : HasPrefix s "" = true.
Proof. destruct s; reflexivity. Qed.

(** X21: the overlap test of [persistToMFS] does not depend on which side a
    path was changed on; a path changed on both sides is a conflict, and
    so is an external change of the empty path against any local change. *)
Theorem pathsConflict_symmetric (externals locals : list string) :
  pathsConflict externals locals = pathsConflict locals externals /\
  (forall p, In p externals -> In p locals -> pathsConflict externals locals = true) /\
  (In "" externals -> locals <> [] -> pathsConflict externals locals = true).
Proof.
  split; [|split].
  - destruct (pathsConflict locals externals) eqn:E.
    + apply pathsConflict_true in E as (l & e & Hl & He & H).
      apply pathsConflict_true. exists e, l.
      split; [exact He|]. split; [exact Hl|]. destruct H as [H|H]; [right|left]; exact H.
    + destruct (pathsConflict externals locals) eqn:E'; [|reflexivity].
      apply pathsConflict_true in E' as (e & l & He & Hl & H).
      rewrite <- E. symmetry. apply pathsConflict_true. exists l, e.
      split; [exact Hl|]. split; [exact He|]. destruct H as [H|H]; [right|left]; exact H.
  - intros p He Hl. apply pathsConflict_true. exists p, p.
    split; [exact He|]. split; [exact Hl|]. left. apply HasPrefix_refl.
  - intros He Hne. destruct locals as [|l rest]; [congruence|].
    apply pathsConflict_true. exists "", l.
    split; [exact He|]. split; [left; reflexivity|]. right. apply HasPrefix_empty.
Qed.

(** X22: when the last loop of [persistToMFS] returns nil, it has sent the
    requests of every change, in order: the removal for a change with a
    [Before], then the copy for a change with an [After].  Every copy
    succeeded; a request that failed is the removal of a change that has
    an [After] too, whose error the copy's result replaced. *)
Theorem applyChanges_done (a : Client) (changes : list ObjectChange) (w w' : World) :
  applyChanges net a changes w = (Done None, w') ->
  exists sent,
    w' = addCalls sent w /\
    call <$> sent = concat (changeCalls <$> changes) /\
    forall rq, In rq sent -> failure rq <> None ->
      exists change, In change changes /\ Before change <> None /\ After change <> None /\
                     call rq = FilesRm ("/" +:+ Path change).
Proof.
  revert w. induction changes as [|change rest IH]; intros w; cbn [applyChanges].
  - intros [= <-]. exists []. rewrite addCalls_nil.
    split; [reflexivity|]. split; [reflexivity|]. intros rq [].
  - unfold api_FilesRm, api_FilesCp, bind, send, ret.
    cbn [fmap list_fmap concat]. unfold changeCalls at 1.
    destruct (Before change) as [before|] eqn:Hb; destruct (After change) as [after|] eqn:Ha;
      cbn [replyFailure calls addCalls World_with_calls];
      repeat match goal with
             | |- context [match net ?p ?s ?c with _ => _ end] =>
                 destruct (net p s c) eqn:?
             end;
      try discriminate;
      intros H; apply IH in H as (sent & -> & Hcalls & Hfail);
      rewrite ?addCalls_addCalls;
      eexists; (split; [reflexivity|]);
      (split; [cbn [app fmap list_fmap call]; rewrite ?fmap_app; cbn [fmap list_fmap call];
               rewrite Hcalls; reflexivity|]);
      intros rq Hin Hne; split_in Hin; subst; cbn [failure] in Hne;
      try congruence;
      try (destruct (Hfail rq Hin Hne) as (ch & Hch & Hrest);
           exists ch; split; [right; exact Hch|exact Hrest]).
    all: exists change; rewrite Hb, Ha;
      split; [left; reflexivity|]; repeat split; discriminate.
Qed.

Lemma valuesOf_Add_eq key value v :
  valuesOf key (Values_Add key value v) = valuesOf key v ++ [value].
Proof. unfold valuesOf, Values_Add. rewrite lookup_insert_eq. reflexivity. Qed.

Lemma valuesOf_Add_ne key key' value v :
  key <> key' -> (Values_Add key value v) !! key' = v !! key'.
Proof. intros H. unfold Values_Add. apply lookup_insert_ne. exact H. Qed.

Lemma valuesOf_Add_other key key' value v :
  key <> key' -> valuesOf key' (Values_Add key value v) = valuesOf key' v.
Proof. intros H. unfold valuesOf. rewrite valuesOf_Add_ne by exact H. reflexivity. Qed.

Lemma catOption_spec (objectSize : Z) (v : gmap string (list string)) (option : OpenOption) :
  let v' := catOption objectSize v option in
  length (valuesOf "offset" v')
  = (length (valuesOf "offset" v) + (if addsOffset option then 1 else 0))%nat /\
  length (valuesOf "length" v')
  = (length (valuesOf "length" v) + (if addsLength option then 1 else 0))%nat /\
  forall k, k <> "offset" -> k <> "length" -> v' !! k = v !! k.
Proof.
  assert (Hol : "offset" <> "length") by discriminate.
  assert (Hlo : "length" <> "offset") by discriminate.
  destruct option as [Offset|Start End_|]; cbn [catOption addsOffset addsLength];
    [|destruct (Start <? 0)%Z; [|destruct (End_ >? Start)%Z]|]; cbn [negb andb];
    rewrite ?valuesOf_Add_eq, ?(valuesOf_Add_other "offset" "length"),
      ?(valuesOf_Add_other "length" "offset"), ?valuesOf_Add_eq, ?length_app by assumption;
    cbn [length];
    (split; [lia|]); (split; [lia|]);
    intros k Hk Hk'; rewrite ?valuesOf_Add_ne by congruence; reflexivity.
Qed.

Lemma catOptions_spec (objectSize : Z) (options : list OpenOption)
    (v : gmap string (list string)) :
  let v' := foldl (catOption objectSize) v options in
  length (valuesOf "offset" v')
  = (length (valuesOf "offset" v) + length (List.filter addsOffset options))%nat /\
  length (valuesOf "length" v')
  = (length (valuesOf "length" v) + length (List.filter addsLength options))%nat /\
  forall k, k <> "offset" -> k <> "length" -> v' !! k = v !! k.
Proof.
  revert v. induction options as [|option rest IH]; intros v; cbn [foldl List.filter].
  - split; [cbn; lia|]. split; [cbn; lia|]. reflexivity.
  - destruct (IH (catOption objectSize v option)) as (Ho & Hl & Hk).
    destruct (catOption_spec objectSize v option) as (Ho1 & Hl1 & Hk1).
    cbv zeta in *. rewrite Ho, Hl, Ho1, Hl1.
    split; [destruct (addsOffset option); cbn [length]; lia|].
    split; [destruct (addsLength option); cbn [length]; lia|].
    intros k H1 H2. rewrite Hk, Hk1 by assumption. reflexivity.
Qed.

(** X23: the parameters of a [Cat] request: [arg] is the path alone, whatever
    the options; there is one [offset] for every seek and every range
    option, and one [length] for every range option with a start that is
    not negative and an end above the start, so none for a range of one
    byte; no other parameter is sent. *)
Theorem catParameters_counts (objectPath : string) (objectSize : Z)
    (options : list OpenOption) :
  let parameters := catParameters objectPath objectSize options in
  parameters !! "arg" = Some [objectPath] /\
  length (valuesOf "offset" parameters) = length (List.filter addsOffset options) /\
  length (valuesOf "length" parameters) = length (List.filter addsLength options) /\
  forall k, k <> "arg" -> k <> "offset" -> k <> "length" -> parameters !! k = None.
Proof.
  cbv zeta. unfold catParameters.
  destruct (catOptions_spec objectSize options {["arg" := [objectPath]]}) as (Ho & Hl & Hk).
  cbv zeta in *. rewrite Ho, Hl.
  split; [rewrite Hk by discriminate; reflexivity|].
  split; [reflexivity|]. split; [reflexivity|].
  intros k Ha Ho' Hl'. rewrite Hk by assumption.
  apply lookup_singleton_ne. congruence.
Qed.

(** X24: for the sizes a stat call reports, the converted size is at most the
    cumulative size and at least -5: it is negative only when a last
    chunk of 1 to 5 bytes has the 6 of the smallest envelope taken off. *)
Theorem convertToFileSize_bounds (stat : ObjectStat) :
  (0 <= BlockSize stat <= CumulativeSize stat)%Z ->
  (CumulativeSize stat < Int64.half)%Z ->
  (-5 <= convertToFileSize stat <= CumulativeSize stat)%Z.
Proof.
  intros Hb Hc. rewrite (convertToFileSize_exact stat Hb Hc).
  assert (HK : (0 < MaxChunkSize + 14)%Z) by (unfold MaxChunkSize; lia).
  assert (Ho : forall z, (0 <= z)%Z ->
                         (0 <= chunkOverhead z <= 14 /\ -5 <= z - chunkOverhead z)%Z).
  { intros z Hz. unfold chunkOverhead, stepOverhead.
    repeat match goal with
           | |- context [if (?x =? ?y)%Z then _ else _] => destruct (Z.eqb_spec x y)
           | |- context [if (?x <? ?y)%Z then _ else _] => destruct (Z.ltb_spec x y)
           end; lia. }
  unfold specFileSize.
  destruct (CumulativeSize stat <? MaxChunkSize + 123)%Z.
  - pose proof (Ho (CumulativeSize stat)). lia.
  - set (i := (CumulativeSize stat - BlockSize stat)%Z).
    assert (Hi : (0 <= i)%Z) by (unfold i; lia).
    pose proof (Z.quot_rem' i (MaxChunkSize + 14)) as Hqr.
    pose proof (Z.rem_bound_pos i _ Hi HK) as Hr.
    pose proof (Z.quot_pos i _ Hi HK) as Hq.
    destruct (Ho (Z.rem i (MaxChunkSize + 14))) as [Hk Hk']; [lia|].
    assert (Hic : (i <= CumulativeSize stat)%Z) by (unfold i; lia).
    unfold MaxChunkSize in *. nia.
Qed.

(** X16: [NewObject] returns an object only for a path that has a stat and
    that the listing of its directory shows as a file: the first link of
    that name has the type of a file.  The object carries the hash of the
    stat and the size converted from it. *)
Theorem NewObject_found (fp : nat) (remote : string) (w w' : World) (o : Object) :
  NewObject net path_Join fp remote w = (Done (Ok o), w') ->
  exists f r stat listed,
    fss w !! fp = Some f /\ getRoot (ipfsRoot f) w = (Done r, w) /\
    let absolutePath := path_Join [hash r; relativePath path_Join f remote] in
    let statRq := {| to := srv (api f); call := ObjectStat_ absolutePath;
                     failure := None |} in
    net (calls w) (srv (api f)) (ObjectStat_ absolutePath) = Ok stat /\
    net (calls w ++ [statRq]) (srv (api f)) (Ls (path_Split absolutePath).1) = Ok listed /\
    (exists first, head (Objects listed) = Some first /\
                   linkIsFile (path_Split absolutePath).2 (Links first) = true) /\
    (path_Split absolutePath).1 <> hash r /\
    o = {| o_fs := fp; remote := remote; size := convertToFileSize stat;
           ipfsHash := os_Hash stat |}.
Proof.
  unfold NewObject, bind at 1, getFs.
  destruct (fss w !! fp) as [f|] eqn:Hf; [|discriminate].
  unfold bind at 1.
  destruct (getRoot (ipfsRoot f) w) as [o1 w1] eqn:Hroot.
  assert (w1 = w) as ->.
  { unfold getRoot in Hroot. destruct (ipfsRoot f) as [a|]; [destruct (roots w !! a)|];
      congruence. }
  destruct o1 as [r|v|]; try discriminate.
  unfold api_ObjectStat, api_Ls, bind, send, ret, panic.
  destruct (net (calls w) (srv (api f)) (ObjectStat_ _)) as [stat|e] eqn:Hstat.
  2:{ destruct (isApiError e); discriminate. }
  destruct (path_Split _) as [dir file] eqn:Hsplit.
  cbn [replyFailure calls addCalls World_with_calls].
  destruct (dir =s hash r) eqn:Hdir; cbn [negb]; [discriminate|].
  match goal with |- context [net ?past _ (Ls dir)] =>
    destruct (net past (srv (api f)) (Ls dir)) as [listed|e] eqn:Hls end; [|discriminate].
  destruct (Objects listed) as [|first rest] eqn:Hobjects; [discriminate|].
  destruct (linkIsFile file (Links first)) eqn:Hfile; cbv beta iota; cbn [negb];
    [|discriminate].
  intros [= <- <-]. exists f, r, stat, listed.
  split; [reflexivity|]. split; [exact Hroot|]. cbv zeta. rewrite Hsplit. cbn [fst snd].
  split; [exact Hstat|]. split; [exact Hls|].
  split; [exists first; rewrite Hobjects; split; [reflexivity|exact Hfile]|].
  split; [apply String.eqb_neq; exact Hdir|reflexivity].
Qed.

Lemma checkRootIsFile_root (fp : nat) (rootPath : string) (w w' : World) (f : Fs)
    (fp' : nat) (err : option error) :
  fss w !! fp = Some f ->
  root f = rootPath ->
  checkRootIsFile net path_Join path_Base path_Dir fp rootPath w = (Done (Some fp', err), w') ->
  fp' = fp /\
  exists f', fss w' !! fp = Some f' /\ name f' = name f /\ opt f' = opt f /\
             ipfsRoot f' = ipfsRoot f /\
             (err = None /\ root f' = rootPath \/
              err = Some ErrorIsFile /\ rootPath <> "" /\
              root f' = parentRoot path_Dir rootPath).
Proof.
  intros Hf Hroot. unfold checkRootIsFile, parentRoot.
  destruct (rootPath =s "") eqn:Hempty; cbn [negb].
  { intros [= <- <- <-]. split; [reflexivity|]. exists f. repeat split; try assumption.
    left. split; [reflexivity|exact Hroot]. }
  apply String.eqb_neq in Hempty.
  assert (Hlt : fp < length (fss w)) by (eapply lookup_lt_Some; exact Hf).
  unfold modifyFs, getFs, bind, ret. rewrite Hf.
  destruct (path_Dir rootPath =s ".") eqn:Hdot;
    cbn [fss World_with_fss];
    rewrite ?list_lookup_insert_eq by (rewrite ?length_insert; exact Hlt);
    match goal with |- context [NewObject _ _ _ _ ?w1] =>
      destruct (NewObject_onlySends net path_Join fp (path_Base rootPath) w1) as (o & sent & E)
    end;
    rewrite E; destruct o as [[obj|e]|v|]; try discriminate;
    try (destruct (isErrorObjectNotFound e || isErrorNotAFile (Cause e) || isErrorNotAFile e);
         [|discriminate]);
    cbn [fss addCalls World_with_calls World_with_fss];
    rewrite ?list_lookup_insert_eq by (rewrite ?length_insert; exact Hlt);
    intros [= <- <- <-]; (split; [reflexivity|]); eexists;
    cbn [fss addCalls World_with_calls World_with_fss];
    rewrite ?list_lookup_insert_eq by (rewrite ?length_insert; exact Hlt);
    (split; [reflexivity|]); destruct f; cbn in *; subst;
    repeat split; first [left; split; reflexivity | right; repeat split; exact Hempty].
Qed.

(** X11: the filesystem that [NewFs] returns has the name it was given and
    points at a root.  When [NewFs] returns no error, its root path is
    the path it was given; the one error that comes with a filesystem is
    [ErrorIsFile], for a path that is not empty, and the root path of the
    filesystem is then the directory of the path. *)
Theorem NewFs_root (fsName rootPath : string) (parsed : result error Options) (w w' : World)
    (fp : nat) (err : option error) :
  NewFs net path_Join path_Base path_Dir fsName rootPath parsed w = (Done (Some fp, err), w') ->
  exists f p,
    fss w' !! fp = Some f /\ name f = fsName /\ ipfsRoot f = Some p /\
    (err = None /\ root f = rootPath \/
     err = Some ErrorIsFile /\ rootPath <> "" /\ root f = parentRoot path_Dir rootPath).
Proof.
  unfold NewFs, allocFs, getFs, bind at 1 2 3, ret.
  destruct parsed as [opt0|e]; cbv beta; [|discriminate].
  cbn [fss World_with_fss]. rewrite list_lookup_middle by reflexivity.
  set (f := {| name := fsName; root := rootPath; opt := normalize opt0;
               api := NewApi (Endpoint (normalize opt0)); ipfsRoot := None;
               _emptyDirHash := "" |}).
  set (w1 := World_with_fss (fss w ++ [f]) w).
  destruct (lookupSharedRoot net f w1) as [o1 w2] eqn:E.
  assert (Hfss : fss w2 = fss w1).
  { revert E. unfold lookupSharedRoot, sharedRoot_Lock, cacheLookup, cacheStore,
      bind at 1 2, ret.
    destruct (cacheLocked w1); [intros [= _ <-]; reflexivity|].
    destruct (cache _ !! opt f); [intros [= _ <-]; reflexivity|].
    unfold bind.
    destruct (NewRoot net f (World_with_cacheLocked true w1)) as [o2 w3] eqn:E2.
    apply NewRoot_spec in E2 as (Hf & _).
    destruct o2 as [[p|e]|v|]; intros [= _ <-]; exact Hf. }
  destruct o1 as [[p|e]|v|]; try discriminate.
  unfold bind, modifyFs, getFs, sharedRoot_Unlock, bind.
  assert (Hf1 : fss w2 !! length (fss w) = Some f).
  { rewrite Hfss. apply list_lookup_middle. reflexivity. }
  rewrite Hf1. intros H.
  eapply (checkRootIsFile_root _ _ _ _ (Fs_with_ipfsRoot (Some p) f)) in H.
  - destruct H as (-> & f' & Hf' & Hname & _ & Hp & Hcases).
    exists f', p. split; [exact Hf'|]. split; [exact Hname|]. split; [exact Hp|exact Hcases].
  - cbn [fss World_with_cacheLocked World_with_fss].
    apply list_lookup_insert_eq. eapply lookup_lt_Some. exact Hf1.
  - reflexivity.
Qed.

(** X25: a public link is made only after the stat of the path under the
    root's hash succeeded, the one request sent.  It is the public gateway
    followed by the path under the root's IPNS name when the root has one,
    and by the path under /ipfs and the root's current hash otherwise. *)
Theorem PublicLink_url (fp : nat) (remote : string) (w w' : World) (url : string) :
  PublicLink net path_Join fp remote w = (Done (Ok url), w') ->
  exists f r,
    fss w !! fp = Some f /\ getRoot (ipfsRoot f) w = (Done r, w) /\
    let objectPath := path_Join [hash r; relativePath path_Join f remote] in
    w' = addCalls [{| to := srv (api f); call := ObjectStat_ objectPath;
                      failure := None |}] w /\
    url = PublicGateway +:+
          (if ipnsPath r =s ""
           then path_Join ["/ipfs"; hash r; relativePath path_Join f remote]
           else path_Join [ipnsPath r; relativePath path_Join f remote]).
Proof.
  unfold PublicLink, bind at 1, getFs.
  destruct (fss w !! fp) as [f|] eqn:Hf; [|discriminate].
  unfold bind at 1.
  destruct (getRoot (ipfsRoot f) w) as [o1 w1] eqn:Hroot.
  assert (w1 = w) as ->.
  { unfold getRoot in Hroot. destruct (ipfsRoot f) as [a|]; [destruct (roots w !! a)|];
      congruence. }
  destruct o1 as [r|v|]; try discriminate.
  unfold api_ObjectStat, bind, send, ret.
  destruct (net (calls w) (srv (api f)) (ObjectStat_ _)) as [stat|e] eqn:Hstat;
    [|discriminate].
  intros [= <- <-]. exists f, r. repeat split. exact Hroot.
Qed.

(** X26: the function a timer runs arms the next timer for the same root
    exactly when its persist returns; a persist that panics ends it with
    the timers as they were.  Either way the rest of the process is as the
    persist left it. *)
Theorem timerCallback_rearms (r : nat) (w : World) :
  let persisted := persist net (Some r) w in
  let fired := timerCallback net r w in
  (persisted.1 = Done tt ->
   fired = (Done tt, World_with_timers (timers w ++ [r]) persisted.2)) /\
  (persisted.1 <> Done tt -> fired = persisted /\ timers fired.2 = timers w).
Proof.
  cbv zeta.
  pose proof (persist_view (fun w => timers w) ltac:(split; reflexivity)
                ltac:(intros a x w0 _; reflexivity) (Some r) w) as Htimers.
  cbv beta in Htimers.
  unfold timerCallback, periodicPersist, bind.
  destruct (persist net (Some r) w) as [[[]|v|] w1]; cbn [fst snd] in *.
  - split; [intros _; rewrite Htimers; reflexivity|intros H; congruence].
  - split; [discriminate|intros _; split; [reflexivity|exact Htimers]].
  - split; [discriminate|intros _; split; [reflexivity|exact Htimers]].
Qed.

Lemma findKey_found (ipnsHash : string) (keys : list Key) :
  findKey ipnsHash keys <> "" ->
  exists key, In key keys /\ k_Id key = ipnsHash /\ k_Name key = findKey ipnsHash keys.
Proof.
  induction keys as [|key rest IH]; cbn [findKey]; [congruence|].
  destruct (k_Id key =s ipnsHash) eqn:E.
  - intros _. exists key. apply String.eqb_eq in E. repeat split; [left; reflexivity|exact E].
  - intros H. destruct (IH H) as (k & Hin & Hid & Hname).
    exists k. repeat split; [right; exact Hin|exact Hid|exact Hname].
Qed.

(** X27: an /ipns/ path on a writable endpoint: [NewRoot] sends the probe,
    KeyList and NameResolve of the path, in this order.  The root it makes
    has the last element of the resolved path as hash, the path as IPNS
    name, and as key the name of the first key of the endpoint whose id is
    the hash of the path; it is read-only exactly when that name is empty,
    so a writable root has a key of the endpoint for this path. *)
Theorem NewRoot_ipns (f : Fs) (w : World) (ipnsHash : string) (keys : KeyList)
    (result : HasPath) :
  let probe := probeOf net f w in
  let keyList := {| to := srv (api f); call := KeyList_; failure := None |} in
  let resolve := {| to := srv (api f); call := NameResolve (IpfsRoot (opt f));
                    failure := None |} in
  let key := findKey ipnsHash (Keys keys) in
  let r := rootFor f (path_Split (hp_Path result)).2 (IpfsRoot (opt f)) key false
             (key =s "") in
  path_Split (IpfsRoot (opt f)) = ("/ipns/", ipnsHash) ->
  StatusCode (net (calls w) (srv (api f)) IsReadOnlyProbe) = Some 400%Z ->
  net (calls w ++ [probe]) (srv (api f)) KeyList_ = Ok keys ->
  net (calls w ++ [probe; keyList]) (srv (api f)) (NameResolve (IpfsRoot (opt f)))
    = Ok result ->
  let made := NewRoot net f w in
  made.1 = Done (Ok (length (roots w))) /\
  roots made.2 = roots w ++ [r] /\
  sentBetween w made.2 = [probe; keyList; resolve] /\
  (isReadOnly r = false ->
   exists k, In k (Keys keys) /\ k_Id k = ipnsHash /\ k_Name k = ipnsKey r).
Proof.
  intros probe keyList resolve key r Hsplit Hprobe Hkeys Hresolve made.
  assert (Hrun : made = 
    (Done (Ok (length (roots w))),
     (if key =s "" then fun w1 => w1
      else fun w1 => World_with_atexit (atexit w1 ++ [length (roots w)])
                       (World_with_timers (timers w1 ++ [length (roots w)]) w1))
       (World_with_roots (roots w ++ [r]) (addCalls [probe; keyList; resolve] w)))).
  { unfold made, NewRoot, bind at 1, api_IsReadOnly, bind at 1, send.
    rewrite Hprobe. unfold ret at 1. cbv beta iota. rewrite Hsplit.
    change (("/ipns/" =s "/ipfs/")) with false. change (("/ipns/" =s "/ipns/")) with true.
    cbv iota. cbn [negb].
    unfold api_KeyList, api_NameResolve, bind, send, ret.
    cbn [replyFailure calls addCalls World_with_calls].
    change {| to := srv (api f); call := IsReadOnlyProbe;
              failure := probeErr (net (calls w) (srv (api f)) IsReadOnlyProbe) |}
      with probe. rewrite Hkeys. cbn [calls addCalls World_with_calls]. fold keyList.
    rewrite <- app_assoc. cbn [app]. rewrite Hresolve.
    unfold allocRoot, periodicPersist, atexit_Register.
    cbn [orb negb isReadOnly roots timers atexit addCalls calls World_with_calls
         World_with_roots World_with_timers World_with_atexit].
    fold key. rewrite negb_involutive.
    destruct (key =s "") eqn:Hk; cbn [negb]; unfold addCalls, World_with_calls;
      cbn; rewrite <- ?app_assoc; cbn [app]; fold key; rewrite ?Hk; reflexivity. }
  rewrite Hrun. cbn [fst snd].
  split; [reflexivity|].
  split; [destruct (key =s ""); reflexivity|].
  split.
  { destruct (key =s ""); unfold sentBetween; cbn; rewrite drop_app_length; reflexivity. }
  unfold r, rootFor. cbn [isReadOnly ipnsKey]. intros Hro.
  apply findKey_found. apply String.eqb_neq. exact Hro.
Qed.

(** X28: with an empty root path [NewRoot] uses MFS.  On an endpoint that
    answers the probe with 404 it refuses after the probe alone.  On one
    that answers 400 it asks for the stat of the MFS root: a failure is
    returned and no root made; otherwise the root it makes is a writable
    MFS root at the hash of the stat, with a timer and an exit hook. *)
Theorem NewRoot_mfs (f : Fs) (w : World) :
  let probe := probeOf net f w in
  let status := StatusCode (net (calls w) (srv (api f)) IsReadOnlyProbe) in
  let stat := net (calls w ++ [probe]) (srv (api f)) (FilesStat "/") in
  let made := NewRoot net f w in
  IpfsRoot (opt f) = "" ->
  (status = Some 404%Z -> made = (Done (Err mfsRefused), addCalls [probe] w)) /\
  (status = Some 400%Z ->
   match stat with
   | Err e =>
       made = (Done (Err (Remote e)),
               addCalls [probe; {| to := srv (api f); call := FilesStat "/";
                                   failure := Some e |}] w)
   | Ok stat =>
       made.1 = Done (Ok (length (roots w))) /\
       roots made.2 = roots w ++ [rootFor f (Hash stat) "" "" true false] /\
       timers made.2 = timers w ++ [length (roots w)] /\
       atexit made.2 = atexit w ++ [length (roots w)]
   end).
Proof.
  intros probe status stat made Hroot. unfold made, status, stat.
  split; intros Hstatus.
  - unfold NewRoot, bind at 1, api_IsReadOnly, bind at 1, send. rewrite Hroot.
    change (path_Split "") with ("", ""). rewrite Hstatus. reflexivity.
  - set (n := length (roots w)).
    assert (Hrun : NewRoot net f w =
      match net (calls w ++ [probe]) (srv (api f)) (FilesStat "/") with
      | Err e =>
          (Done (Err (Remote e)),
           addCalls [probe; {| to := srv (api f); call := FilesStat "/";
                               failure := Some e |}] w)
      | Ok st =>
          (Done (Ok n),
           World_with_atexit (atexit w ++ [n])
             (World_with_timers (timers w ++ [n])
                (World_with_roots (roots w ++ [rootFor f (Hash st) "" "" true false])
                   (addCalls [probe; {| to := srv (api f); call := FilesStat "/";
                                        failure := None |}] w))))
      end).
    { unfold NewRoot, bind at 1, api_IsReadOnly, bind at 1, send. rewrite Hroot.
      change (path_Split "") with ("", ""). rewrite Hstatus. unfold ret at 1. cbv beta iota.
      change ("" =s "/ipfs/") with false. change ("" =s "/ipns/") with false.
      change ("" =s "") with true. cbv iota.
      unfold api_FilesStat, bind, send, ret.
      cbn [replyFailure calls addCalls World_with_calls].
      change {| to := srv (api f); call := IsReadOnlyProbe;
                failure := probeErr (net (calls w) (srv (api f)) IsReadOnlyProbe) |}
        with probe.
      destruct (net (calls w ++ [probe]) (srv (api f)) (FilesStat "/")) as [st|e].
      - unfold allocRoot, periodicPersist, atexit_Register, rootFor, n.
        rewrite addCalls_addCalls. reflexivity.
      - rewrite addCalls_addCalls. reflexivity. }
    rewrite Hrun.
    destruct (net (calls w ++ [probe]) (srv (api f)) (FilesStat "/")) as [st|e];
      [repeat split|reflexivity].
Qed.

(** X29: an /ipfs/ path gives a read-only root on any endpoint: when the
    probe does not fail, [NewRoot] makes a read-only root at the hash of
    the path, with no IPNS name and no key, after the probe alone, and
    arms no timer and registers no exit hook. *)
Theorem NewRoot_ipfs (f : Fs) (w : World) (ipfsHash : string) :
  let probe := probeOf net f w in
  let answer := net (calls w) (srv (api f)) IsReadOnlyProbe in
  path_Split (IpfsRoot (opt f)) = ("/ipfs/", ipfsHash) ->
  StatusCode answer = Some 404%Z \/ StatusCode answer = Some 400%Z \/ probeErr answer = None ->
  NewRoot net f w
  = (Done (Ok (length (roots w))),
     World_with_roots (roots w ++ [rootFor f ipfsHash "" "" false true])
       (addCalls [probe] w)).
Proof.
  intros probe answer Hsplit Hanswer.
  destruct (api_IsReadOnly_result (api f) w) as (readOnly & err & Hrun & Herr).
  assert (Hnone : err = None).
  { destruct err as [pe|]; [|reflexivity]. specialize (Herr pe eq_refl).
    revert Hrun. unfold api_IsReadOnly, bind, send, ret. fold answer.
    destruct Hanswer as [H|[H|H]].
    - rewrite H. discriminate.
    - rewrite H. discriminate.
    - fold answer in Herr. congruence. }
  subst err. unfold NewRoot, bind at 1. rewrite Hrun, Hsplit.
  change ("/ipfs/" =s "/ipfs/") with true. cbv iota.
  unfold allocRoot, bind, ret. cbn [isReadOnly negb orb].
  rewrite orb_true_r. reflexivity.
Qed.

End MoreFacts.

(** ** The theorems on example processes *)

Lemma thirdOpen_reachable : rtc (step mfsNet simpleJoin id id) emptyWorld thirdOpen.2.
Proof.
  eapply rtc_l; [exact (step_NewFs _ _ _ _ "remote" "" (Ok localOptions) emptyWorld)|].
  eapply rtc_l; [exact (step_NewFs _ _ _ _ "other" "" (Ok localOptions) firstOpen.2)|].
  eapply rtc_l; [exact (step_NewFs _ _ _ _ "snapshot" "" (Ok snapshotOptions) secondOpen.2)|].
  apply rtc_refl.
Qed.


(** After three filesystems were opened on two roots, the first root is
    writable and registered, the second is a read-only snapshot. *)
Lemma reachable_roots_witness :
  isReadOnly <$> roots thirdOpen.2 = [false; true] /\
  atexit thirdOpen.2 = [0] /\
  (forall a r, roots thirdOpen.2 !! a = Some r ->
     (isReadOnly r = true -> hash r = lastPersistedHash r) /\
     (isReadOnly r = false -> isMFS r = true \/ ipnsKey r <> "") /\
     (isMFS r = true -> ipnsPath r = "" /\ ipnsKey r = "") /\
     (In a (atexit thirdOpen.2) <-> isReadOnly r = false)) /\
  NoDup (atexit thirdOpen.2).
Proof.
  split; [vm_compute; reflexivity|]. split; [vm_compute; reflexivity|].
  exact (reachable_roots mfsNet simpleJoin id id thirdOpen.2 thirdOpen_reachable).
Defined.

Lemma readOnly_root_never_persists_witness :
  exists r, roots thirdOpen.2 !! 1 = Some r /\ isReadOnly r = true /\
            persist mfsNet (Some 1) thirdOpen.2 = (Done tt, thirdOpen.2).
Proof.
  destruct (roots thirdOpen.2 !! 1) as [r|] eqn:Hr; [|vm_compute in Hr; discriminate].
  assert (Hro : isReadOnly r = true).
  { vm_compute in Hr. injection Hr as <-. reflexivity. }
  exists r. split; [reflexivity|]. split; [exact Hro|].
  exact (readOnly_root_never_persists mfsNet simpleJoin id id thirdOpen.2 1 r
           thirdOpen_reachable Hr Hro).
Defined.


Lemma NewRoot_fresh_witness :
  rootOpen.1 = Done (Ok 0) /\
  exists r, roots rootOpen.2 = [r] /\ hash r = lastPersistedHash r /\
            timers rootOpen.2 = (if isReadOnly r then [] else [0]).
Proof.
  assert (Hrun : NewRoot mfsNet (newFs "remote" "" localOptions) emptyWorld
                 = (Done (Ok 0), rootOpen.2)) by (vm_compute; reflexivity).
  destruct (NewRoot_fresh mfsNet (newFs "remote" "" localOptions) emptyWorld rootOpen.2 0 Hrun)
    as (_ & r & Hr & Hc & _ & _ & _ & _ & Ht & _).
  split; [vm_compute; reflexivity|].
  exists r. split; [exact Hr|]. split; [exact Hc|exact Ht].
Defined.

Lemma NewRoot_readOnly_endpoint_witness :
  exists p w', NewRoot gatewayNet siteFs emptyWorld = (Done (Ok p), w') /\
    timers w' = [] /\ atexit w' = [] /\
    exists r, roots w' = [r] /\ isReadOnly r = true /\ ipnsKey r = "".
Proof.
  destruct (NewRoot gatewayNet siteFs emptyWorld) as [o w'] eqn:E.
  assert (Ho : o = Done (Ok 0)) by (vm_compute in E; congruence).
  destruct (NewRoot_readOnly_endpoint gatewayNet siteFs emptyWorld w' o eq_refl E)
    as (_ & Ht & Ha & Hroot).
  exists 0, w'. split; [rewrite Ho; reflexivity|].
  split; [exact Ht|]. split; [exact Ha|]. exact (Hroot 0 Ho).
Defined.

(** X9 on an endpoint that answers 400 with an error, and on one that
    does not answer. *)
Lemma NewRoot_invalid_path_witness :
  probeErr (mfsNet [] (srv (api badFs)) IsReadOnlyProbe) = Some noLink /\
  NewRoot mfsNet badFs emptyWorld
  = (Done (Err (invalidPath badFs)), addCalls [probeOf mfsNet badFs emptyWorld] emptyWorld) /\
  NewRoot unreachableNet badFs emptyWorld
  = (Done (Err (Remote timeout)),
     addCalls [probeOf unreachableNet badFs emptyWorld] emptyWorld).
Proof.
  assert (H1 : (path_Split (IpfsRoot (opt badFs))).1 <> "/ipfs/") by (vm_compute; discriminate).
  assert (H2 : (path_Split (IpfsRoot (opt badFs))).1 <> "/ipns/") by (vm_compute; discriminate).
  assert (H3 : IpfsRoot (opt badFs) <> "") by (vm_compute; discriminate).
  split; [reflexivity|]. split.
  - apply (proj1 (NewRoot_invalid_path mfsNet badFs emptyWorld H1 H2 H3)).
    left. right. reflexivity.
  - apply (proj2 (NewRoot_invalid_path unreachableNet badFs emptyWorld H1 H2 H3)).
    + intros [H|H]; discriminate H.
    + reflexivity.
Defined.

Lemma NewFs_lock_witness :
  cacheLocked failedOpen.2 = true /\
  failedOpen.1 = Done (None, Some (Remote timeout)) /\
  openAfterFailure.1 = Blocked.
Proof.
  assert (Hfree : cacheLocked emptyWorld = false) by reflexivity.
  assert (Hrun : NewFs unreachableNet simpleJoin id id "remote" "" (Ok localOptions) emptyWorld
                 = (failedOpen.1, failedOpen.2)) by (vm_compute; reflexivity).
  destruct (NewFs_lock unreachableNet simpleJoin id id "remote" "" localOptions emptyWorld
              failedOpen.2 failedOpen.1 Hfree Hrun) as [Hiff Hheld].
  assert (Hlocked : cacheLocked failedOpen.2 = true).
  { apply Hiff. split; [reflexivity|]. exists (Remote timeout). vm_compute. reflexivity. }
  split; [exact Hlocked|]. split; [vm_compute; reflexivity|].
  destruct (Hheld Hlocked) as [_ Hblock].
  exact (Hblock "remote" "" localOptions).
Defined.

Lemma emptyDirHash_cached_witness :
  exists w', emptyDirHash sessionNet 0 sessionOpen.2 = (Done (Ok "QmEmpty"), w') /\
             emptyDirHash sessionNet 0 w' = (Done (Ok "QmEmpty"), w').
Proof.
  eexists. split; [vm_compute; reflexivity|].
  apply (emptyDirHash_cached sessionNet 0 "QmEmpty" sessionOpen.2).
  - vm_compute. reflexivity.
  - discriminate.
Defined.

Lemma mutation_keeps_readOnly_roots_witness :
  let after := (runMutation sessionNet simpleJoin (MMkdir 0 "docs") sessionSnapshot.2).2 in
  exists r, roots sessionSnapshot.2 !! 1 = Some r /\ isReadOnly r = true /\
            roots after !! 1 = Some r /\
            hash <$> roots sessionSnapshot.2 = ["H0"; "QmSnapshot"] /\
            hash <$> roots after = ["H1"; "QmSnapshot"].
Proof.
  cbv zeta.
  destruct (roots sessionSnapshot.2 !! 1) as [r|] eqn:Hr; [|vm_compute in Hr; discriminate].
  assert (Hro : isReadOnly r = true).
  { vm_compute in Hr. injection Hr as <-. reflexivity. }
  exists r. split; [reflexivity|]. split; [exact Hro|].
  split; [|split; vm_compute; reflexivity].
  exact (mutation_keeps_readOnly_roots sessionNet simpleJoin (MMkdir 0 "docs")
           sessionSnapshot.2 1 r Hr Hro).
Defined.

Lemma List_entries_witness :
  exists entries w',
    Fs_List treeNet simpleJoin 0 "" treeWorld = (Done (Ok entries), w') /\
    entryRemote <$> entries = ["docs"; "a.txt"] /\
    entryIsDir <$> entries = [true; false] /\
    length (sentBetween treeWorld w') = 2.
Proof.
  destruct (Fs_List treeNet simpleJoin 0 "" treeWorld) as [o w'] eqn:E.
  assert (Ho : exists entries, o = Done (Ok entries)).
  { vm_compute in E. injection E as <- _. eauto. }
  destruct Ho as (entries & ->). exists entries, w'. split; [reflexivity|].
  destruct (List_entries treeNet simpleJoin 0 "" treeWorld w' entries E)
    as (f & r & links & Hf & Hr & Hls & Hrem & Hdir & Hlen).
  injection Hf as <-. vm_compute in Hr. injection Hr as <-.
  vm_compute in Hls. injection Hls as Hlinks _. subst links.
  rewrite Hrem, Hdir, Hlen. repeat split; vm_compute; reflexivity.
Defined.



Lemma Put_commits_before_lookup_witness :
  (Put treeNet simpleJoin 0 "hello" "new" treeWorld).1 = Done (Err ErrorNotAFile) /\
  roots (Put treeNet simpleJoin 0 "hello" "new" treeWorld).2
  = [exampleRoot "H1" "H2" false].
Proof.
  split; [vm_compute; reflexivity|].
  exact (Put_commits_before_lookup treeNet simpleJoin 0 "hello" "new" treeWorld
           exampleFs 0 (exampleRoot "H1" "H1" false)
           {| fa_Hash := "QmNew"; fa_Name := "new"; fa_Size := "5" |} {| Hash := "H2" |}
           eq_refl eq_refl eq_refl eq_refl eq_refl eq_refl).
Defined.

Lemma MergeDirs_short_lists_witness :
  MergeDirs treeNet simpleJoin 0 [] treeWorld = (Panicked indexOutOfRange, treeWorld) /\
  MergeDirs treeNet simpleJoin 0 ["docs"] treeWorld = (Done None, treeWorld).
Proof.
  destruct (MergeDirs_short_lists treeNet simpleJoin 0 treeWorld exampleFs 0
              (exampleRoot "H1" "H1" false) eq_refl eq_refl eq_refl eq_refl) as [H0 H1].
  split; [exact H0|exact (H1 "docs")].
Defined.

Lemma pathsConflict_symmetric_witness :
  pathsConflict ["a/b/c"] ["a/b"; "x"] = true /\
  pathsConflict ["a/b"; "x"] ["a/b/c"] = true /\
  pathsConflict [""; "y"] ["a/b"] = true.
Proof.
  destruct (pathsConflict_symmetric ["a/b/c"] ["a/b"; "x"]) as (Hsym & _ & _).
  destruct (pathsConflict_symmetric [""; "y"] ["a/b"]) as (_ & _ & Hroot).
  split; [reflexivity|]. split; [rewrite <- Hsym; reflexivity|].
  apply Hroot; [left; reflexivity|discriminate].
Defined.

Lemma applyChanges_done_witness :
  let run := applyChanges sessionNet (NewApi ep) [replaced "docs" "QmOld" "QmNew"]
               emptyWorld in
  run.1 = Done None /\
  sentBetween emptyWorld run.2
  = [ {| to := ep; call := FilesRm "/docs"; failure := Some timeout |};
      {| to := ep; call := FilesCp "/ipfs/QmNew" "/docs"; failure := None |} ] /\
  exists sent, run.2 = addCalls sent emptyWorld /\
               call <$> sent = concat (changeCalls <$> [replaced "docs" "QmOld" "QmNew"]).
Proof.
  cbv zeta. split; [vm_compute; reflexivity|]. split; [vm_compute; reflexivity|].
  destruct (applyChanges_done sessionNet (NewApi ep) [replaced "docs" "QmOld" "QmNew"]
              emptyWorld
              (applyChanges sessionNet (NewApi ep) [replaced "docs" "QmOld" "QmNew"]
                 emptyWorld).2) as (sent & Hw & Hcalls & _).
  - vm_compute. reflexivity.
  - exists sent. split; assumption.
Defined.

Lemma catParameters_counts_witness :
  let parameters :=
    catParameters "H1/a.txt" 100
      [RangeOption 5 5; SeekOption 7; OtherOption; RangeOption (-1) 10; RangeOption 0 9] in
  valuesOf "offset" parameters = ["5"; "7"; "90"; "0"] /\
  valuesOf "length" parameters = ["10"] /\
  parameters !! "arg" = Some ["H1/a.txt"] /\
  parameters !! "recursive" = None.
Proof.
  cbv zeta.
  destruct (catParameters_counts "H1/a.txt" 100
              [RangeOption 5 5; SeekOption 7; OtherOption; RangeOption (-1) 10;
               RangeOption 0 9]) as (Harg & _ & _ & Hother).
  split; [vm_compute; reflexivity|]. split; [vm_compute; reflexivity|].
  split; [exact Harg|]. apply Hother; discriminate.
Defined.

Lemma convertToFileSize_bounds_witness :
  convertToFileSize (mkStat 1 0) = (-5)%Z /\
  (-5 <= convertToFileSize (mkStat 1 0) <= 1)%Z.
Proof.
  split; [reflexivity|].
  apply (convertToFileSize_bounds (mkStat 1 0)).
  - cbn. lia.
  - reflexivity.
Defined.

Lemma NewObject_found_witness :
  exists o w', NewObject treeNet simpleJoin 0 "a.txt" treeWorld = (Done (Ok o), w') /\
               o = {| o_fs := 0; remote := "a.txt"; size := -2; ipfsHash := "QmFile" |}.
Proof.
  destruct (NewObject treeNet simpleJoin 0 "a.txt" treeWorld) as [out w'] eqn:E.
  assert (Ho : exists o, out = Done (Ok o)).
  { vm_compute in E. injection E as <- _. eauto. }
  destruct Ho as (o & ->). exists o, w'. split; [reflexivity|].
  destruct (NewObject_found treeNet simpleJoin 0 "a.txt" treeWorld w' o E)
    as (f & r & stat & listed & Hf & Hr & H).
  cbv zeta in H. destruct H as (Hstat & _ & _ & _ & ->).
  injection Hf as <-. vm_compute in Hr. injection Hr as <-.
  vm_compute in Hstat. injection Hstat as <-. reflexivity.
Defined.

Lemma NewFs_root_witness :
  exists fp w' f,
    NewFs treeNet simpleJoin simpleBase simpleDir "remote" "a.txt" (Ok localOptions)
      emptyWorld = (Done (Some fp, Some ErrorIsFile), w') /\
    fss w' !! fp = Some f /\ name f = "remote" /\ root f = "".
Proof.
  destruct (NewFs treeNet simpleJoin simpleBase simpleDir "remote" "a.txt"
              (Ok localOptions) emptyWorld) as [out w'] eqn:E.
  assert (Ho : out = Done (Some 0, Some ErrorIsFile)).
  { vm_compute in E. injection E as <- _. reflexivity. }
  subst out.
  destruct (NewFs_root treeNet simpleJoin simpleBase simpleDir "remote" "a.txt"
              (Ok localOptions) emptyWorld w' 0 (Some ErrorIsFile) E)
    as (f & p & Hf & Hname & _ & [[Hnone _]|(_ & _ & Hroot)]); [discriminate|].
  exists 0, w', f. repeat split; assumption.
Defined.

Lemma PublicLink_url_witness :
  exists url w', PublicLink keyNet simpleJoin 0 "a.txt" ipnsWorld = (Done (Ok url), w') /\
                 url = "https://ipfs.io/ipns/QmKey/a.txt".
Proof.
  destruct (PublicLink keyNet simpleJoin 0 "a.txt" ipnsWorld) as [o w'] eqn:E.
  assert (Ho : exists url, o = Done (Ok url)).
  { vm_compute in E. injection E as <- _. eauto. }
  destruct Ho as (url & ->). exists url, w'. split; [reflexivity|].
  destruct (PublicLink_url keyNet simpleJoin 0 "a.txt" ipnsWorld w' url E)
    as (f & r & Hf & Hr & H).
  cbv zeta in H. destruct H as [_ ->].
  injection Hf as <-. vm_compute in Hr. injection Hr as <-. reflexivity.
Defined.

Lemma timerCallback_rearms_witness :
  (persist sessionNet (Some 0) sessionMkdir.2).1 = Done tt /\
  timers sessionMkdir.2 = [0] /\
  timers (timerCallback sessionNet 0 sessionMkdir.2).2 = [0; 0].
Proof.
  assert (Hdone : (persist sessionNet (Some 0) sessionMkdir.2).1 = Done tt)
    by (vm_compute; reflexivity).
  split; [exact Hdone|]. split; [vm_compute; reflexivity|].
  destruct (timerCallback_rearms sessionNet 0 sessionMkdir.2) as [Hfire _].
  rewrite (Hfire Hdone). vm_compute. reflexivity.
Defined.

Lemma NewRoot_ipns_witness :
  let made := NewRoot keyNet siteFs emptyWorld in
  made.1 = Done (Ok 0) /\
  roots made.2 = [rootFor siteFs "QmSite" "/ipns/QmKey" "self" false false] /\
  length (sentBetween emptyWorld made.2) = 3.
Proof.
  destruct (NewRoot_ipns keyNet siteFs emptyWorld "QmKey"
              {| Keys := [ {| k_Name := "other"; k_Id := "QmOther" |};
                           {| k_Name := "self"; k_Id := "QmKey" |} ] |}
              {| hp_Path := "/ipfs/QmSite" |} eq_refl eq_refl eq_refl eq_refl)
    as (Hout & Hroots & Hsent & _).
  cbv zeta. split; [exact Hout|]. split; [rewrite Hroots; reflexivity|].
  rewrite Hsent. reflexivity.
Defined.

Lemma NewRoot_mfs_witness :
  NewRoot gatewayNet (newFs "remote" "" localOptions) emptyWorld
  = (Done (Err mfsRefused),
     addCalls [probeOf gatewayNet (newFs "remote" "" localOptions) emptyWorld] emptyWorld) /\
  roots rootOpen.2 = [rootFor (newFs "remote" "" localOptions) "H0" "" "" true false].
Proof.
  destruct (NewRoot_mfs gatewayNet (newFs "remote" "" localOptions) emptyWorld eq_refl)
    as [Hrefused _].
  destruct (NewRoot_mfs mfsNet (newFs "remote" "" localOptions) emptyWorld eq_refl)
    as [_ Hmade].
  split; [exact (Hrefused eq_refl)|].
  destruct (Hmade eq_refl) as (_ & Hroots & _). exact Hroots.
Defined.

Lemma NewRoot_ipfs_witness :
  let made := NewRoot mfsNet snapshotFs emptyWorld in
  made.1 = Done (Ok 0) /\
  roots made.2 = [rootFor snapshotFs "QmSnapshot" "" "" false true] /\
  timers made.2 = [] /\ length (calls made.2) = 1.
Proof.
  cbv zeta.
  rewrite (NewRoot_ipfs mfsNet snapshotFs emptyWorld "QmSnapshot" eq_refl
             (or_intror (or_introl eq_refl))).
  repeat split.
Defined.
